(** * PacketStreamer receiver: framing, socket reader and connection pipeline

    A shallow embedding of [pkg/streamer/receiver.go]:
    - [readDataFromSocket], the exact-count socket reader;
    - [readPkts], the per-connection read loop with its header checks and its
      non-blocking pushes onto the frame queue and the size queue;
    - [receiverOutput], the output writer;
    - the accept loop of [processHost] and the goroutines it starts.

    Bytes are [Init.Byte.byte]; Go's [int] is the 64-bit two's complement
    integer, written as [Z] with its wrap-around; [uint32] is a [Z] in
    [0, 2^32).  The reusable buffer [dataBuff] is one backing array; the
    slices the loop hands to the reader are windows [lo, hi) onto it, so that
    what the reader writes is what the loop later reads back. *)

From Stdlib Require Import ZArith List Bool Lia.
From coqutil Require Import Byte Word.LittleEndianList.
Import ListNotations.
Local Open Scope Z_scope.

(** ** Go integers *)

(** Two's complement wrap-around of a 64-bit [int]. *)
Definition wrap64 (z : Z) : Z := (z + 2 ^ 63) mod 2 ^ 64 - 2 ^ 63.

(** [int(x)] for [x : uint32] on a 64-bit platform. *)
Definition int_of_uint32 (u : Z) : Z := wrap64 u.

(** ** Constants of the package (receiver.go, lines 17-26) *)

Definition compressFlagByteLen : Z := 1.
Definition payloadMarkerLen : Z := 4.
Definition maxNumPkts : nat := 100.
Definition connTimeout : Z := 60.

Definition hdrData : list byte := [Byte.xde; Byte.xef; Byte.xec; Byte.xe0].

(** [len(hdrData) + payloadMarkerLen + compressFlagByteLen] (line 66). *)
Definition totalHdrLen : Z :=
  Z.of_nat (length hdrData) + payloadMarkerLen + compressFlagByteLen.

(** ** The connection

    [net.Conn.Read] is the environment.  A connection is the script of what
    its successive reads will report: each event carries the bytes that have
    arrived and the error, if any, reported with them.  A read into a window
    of [cap] bytes
    - returns [(0, nil)] at once when [cap = 0] (both [net] and [crypto/tls]
      return before touching the socket on an empty buffer);
    - reports the read deadline as expired when the script is exhausted (the
      peer is idle and the 60 second deadline of line 33 runs out);
    - hands over a whole event when its bytes fit, and otherwise the first
      [cap] bytes with no error, leaving the rest of the event (and its
      error) for the next read. *)

Inductive ReadErr : Type :=
| EOF        (* io.EOF *)
| Timeout    (* an error for which os.IsTimeout holds *)
| OtherErr.  (* any other non-nil error *)

Record Event : Type := Ev { ev_data : list byte; ev_err : option ReadErr }.

Definition Conn : Type := list Event.

Definition connRead (c : Conn) (cap : nat) : list byte * option ReadErr * Conn :=
  match cap with
  | O => ([], None, c)
  | S _ =>
      match c with
      | [] => ([], Some Timeout, [])
      | Ev bs e :: rest =>
          if (length bs <=? cap)%nat then (bs, e, rest)
          else (firstn cap bs, None, Ev (skipn cap bs) e :: rest)
      end
  end.

(** A source that delivers error-free chunks. *)
Definition chunks (cs : list (list byte)) : Conn := map (fun c => Ev c None) cs.

(** ** Logging *)

Inductive SockErr : Type :=
| ErrClosed    (* line 40: "Client %s closed connection. Reason = %v" *)
| ErrAbrupt    (* line 43: "Client %s closed connection abruptly. Got EOF" *)
| ErrTimeout.  (* line 46: the timeout error itself, returned unchanged *)

(** [os.IsTimeout] on the reader's result: the two [fmt.Errorf] values are
    fresh errors without a [Timeout] method. *)
Definition IsTimeout (e : SockErr) : bool :=
  match e with ErrTimeout => true | _ => false end.

Inductive LogMsg : Type :=
| LogZeroErr (e : ReadErr)      (* line 49 *)
| LogZeroNoErr                  (* line 53 *)
| LogReadFail (e : SockErr)     (* lines 72 and 94 *)
| LogIllegal                    (* line 80 *)
| LogInvalidLen (n : Z)         (* line 87 *)
| LogUncompressFull             (* line 106 *)
| LogSizeFull.                  (* line 111 *)

(** ** The buffer and its windows *)

(** Copy [bs] into the backing array at offset [off]. *)
Definition bufWrite (buf : list byte) (off : nat) (bs : list byte) : list byte :=
  firstn off buf ++ bs ++ skipn (off + length bs) buf.

(** The bytes of the window [lo, hi). *)
Definition bufSlice (buf : list byte) (lo hi : nat) : list byte :=
  firstn (hi - lo) (skipn lo buf).

(** ** readDataFromSocket (lines 28-61) *)

Inductive Ret : Type :=
| RetNil                 (* return nil *)
| RetErr (e : SockErr)   (* return a non-nil error *)
| RetPanic               (* a slice expression out of range *)
| RetSpin.               (* the model's iteration budget ran out *)

Record ReadOut : Type := mkReadOut {
  ro_ret : Ret;
  ro_conn : Conn;
  ro_buf : list byte;
  ro_log : list LogMsg;
  ro_total : Z   (* totalBytesRead when the function returned *)
}.

Definition isErr (e : ReadErr) (r : option ReadErr) : bool :=
  match r, e with
  | Some EOF, EOF | Some Timeout, Timeout | Some OtherErr, OtherErr => true
  | _, _ => false
  end.

Definition notNil (r : option ReadErr) : bool :=
  match r with Some _ => true | None => false end.

(** One pass of the [for] loop per unit of [fuel].  The window handed in by
    the caller is [lo, hi) of [buf]; [dataBuff[totalBytesRead:]] is then the
    window [lo + total, hi).  Arming the deadline (lines 33-37) can only log
    and is left out; its expiry is what [Timeout] stands for. *)
Fixpoint readLoop (fuel : nat) (c : Conn) (buf : list byte) (lo hi : nat)
    (bytesToRead total : Z) (log : list LogMsg) : ReadOut :=
  match fuel with
  | O => mkReadOut RetSpin c buf log total
  | S fuel' =>
      if (total <? 0) || (Z.of_nat (hi - lo) <? total)
      then mkReadOut RetPanic c buf log total
      else
        let off := (lo + Z.to_nat total)%nat in
        let '(bs, readErr, c') := connRead c (hi - off) in
        let buf' := bufWrite buf off bs in
        let bytesRead := Z.of_nat (length bs) in
        if notNil readErr && negb (isErr EOF readErr) && negb (isErr Timeout readErr)
        then mkReadOut (RetErr ErrClosed) c' buf' log total
        else if isErr EOF readErr && negb (total =? bytesToRead)
        then mkReadOut (RetErr ErrAbrupt) c' buf' log total
        else if isErr Timeout readErr && negb (total =? bytesToRead)
        then mkReadOut (RetErr ErrTimeout) c' buf' log total
        else if (bytesRead =? 0) && notNil readErr
        then mkReadOut RetNil c' buf'
               (log ++ [LogZeroErr (match readErr with Some e => e | None => EOF end)])
               total
        else if (bytesRead =? 0) && negb (notNil readErr)
        then mkReadOut RetNil c' buf' (log ++ [LogZeroNoErr]) total
        else
          let total' := total + bytesRead in
          if total' =? bytesToRead
          then mkReadOut RetNil c' buf' log total'
          else readLoop fuel' c' buf' lo hi bytesToRead total' log
  end.

(** Every pass that goes round again has stored at least one byte in the
    window, so [hi - lo + 1] passes are enough (see [readLoop_inv]). *)
Definition readDataFromSocket (c : Conn) (buf : list byte) (lo hi : nat)
    (bytesToRead : Z) (log : list LogMsg) : ReadOut :=
  readLoop (S (hi - lo)) c buf lo hi bytesToRead 0 log.

(** ** Buffered channels and the non-blocking send

    A Go channel made with capacity [ch_cap]: a FIFO of at most that many
    items.  [ch_closes] counts the calls of [close] on it. *)

Record Chan (A : Type) : Type := mkChan {
  ch_items : list A;
  ch_cap : nat;
  ch_closes : nat
}.
Arguments mkChan {A} _ _ _.
Arguments ch_items {A} _.
Arguments ch_cap {A} _.
Arguments ch_closes {A} _.

(** [make(chan A, cap)] *)
Definition makeChan {A : Type} (cap : nat) : Chan A := mkChan [] cap 0.

(** [select { case ch <- x: default: ... }]: the send goes through when the
    buffer has room, otherwise the [default] branch runs; the boolean tells
    which. *)
Definition trySend {A : Type} (ch : Chan A) (x : A) : bool * Chan A :=
  if (length (ch_items ch) <? ch_cap ch)%nat
  then (true, mkChan (ch_items ch ++ [x]) (ch_cap ch) (ch_closes ch))
  else (false, ch).

(** [<-ch] by a consumer, when an item is there. *)
Definition recv {A : Type} (ch : Chan A) : option A * Chan A :=
  match ch_items ch with
  | [] => (None, ch)
  | x :: rest => (Some x, mkChan rest (ch_cap ch) (ch_closes ch))
  end.

(** [close(ch)] *)
Definition closeChan {A : Type} (ch : Chan A) : Chan A :=
  mkChan (ch_items ch) (ch_cap ch) (S (ch_closes ch)).

(** ** Frames and configuration *)

Record CompressData : Type := mkCompressData {
  Data : list byte;
  IsCompressed : bool
}.

Record Config : Type := mkConfig {
  CompressBlockSize : Z;   (* config.CompressBlockSize *)
  AuthEnable : bool        (* config.Auth.Enable *)
}.

(** ** Header decoding *)

(** [bytes.Compare]: lexicographic order on unsigned bytes, as -1, 0 or 1. *)
Fixpoint bytesCompare (a b : list byte) : Z :=
  match a, b with
  | [], [] => 0
  | [], _ :: _ => -1
  | _ :: _, [] => 1
  | x :: a', y :: b' =>
      match byte.compare x y with
      | Lt => -1
      | Gt => 1
      | Eq => bytesCompare a' b'
      end
  end.

(** [binary.LittleEndian.Uint32]: it reads [b[0..3]] and panics on a shorter
    slice. *)
Definition Uint32 (b : list byte) : option Z :=
  match b with
  | b0 :: b1 :: b2 :: b3 :: _ =>
      Some (Z.lor (Z.lor (Z.lor (byte.unsigned b0)
                                (Z.shiftl (byte.unsigned b1) 8))
                         (Z.shiftl (byte.unsigned b2) 16))
                  (Z.shiftl (byte.unsigned b3) 24))
  | _ => None
  end.

(** Bounds rule of a slice expression [a[lo:hi]] and of an index [a[i]]. *)
Definition sliceOK (buf : list byte) (lo hi : Z) : bool :=
  (0 <=? lo) && (lo <=? hi) && (hi <=? Z.of_nat (length buf)).

Definition indexOK (buf : list byte) (i : Z) : bool :=
  (0 <=? i) && (i <? Z.of_nat (length buf)).

(** [make([]byte, n)]: zeroed, and a panic on a negative length. *)
Definition makeBuf (n : Z) : option (list byte) :=
  if n <? 0 then None else Some (repeat Byte.x00 (Z.to_nat n)).

(** ** The connection pipeline *)

Record PState : Type := mkPState {
  clientConn : Conn;                          (* what the peer will still deliver *)
  connCloses : nat;                           (* calls of clientConn.Close() *)
  dataBuff : list byte;
  pktUncompressChannel : Chan CompressData;   (* the frame queue *)
  sizeChannel : Chan Z;                       (* the shared size queue *)
  logs : list LogMsg
}.

Inductive Step : Type :=
| Continue (s : PState)   (* the iteration ran to the end of the loop body *)
| Return (s : PState)     (* readPkts returned *)
| Panic                   (* a run-time panic *)
| Spin.                   (* the model's iteration budget ran out *)

(** [clientConn.Close(); close(pktUncompressChannel); return] *)
Definition closeAll (s : PState) (c : Conn) (buf : list byte) (log : list LogMsg)
  : PState :=
  mkPState c (S (connCloses s)) buf (closeChan (pktUncompressChannel s))
           (sizeChannel s) log.

Inductive HdrResult : Type :=
| HdrIllegal               (* line 79: magic mismatch *)
| HdrInvalidLen (n : Z)    (* line 86: declared length too large *)
| HdrOk (n : Z)            (* both checks passed; n is compressedDataLen *)
| HdrPanic.

Section Receiver.

(** The package constant [kilobyte] is declared outside receiver.go. *)
Variable kilobyte : Z.

(** [config.CompressBlockSize * kilobyte], in [int] arithmetic. *)
Definition maxFrameBytes (config : Config) : Z :=
  wrap64 (CompressBlockSize config * kilobyte).

(** Lines 78-91, on the buffer as the header read left it. *)
Definition hdrCheck (config : Config) (buf : list byte) : HdrResult :=
  if negb (sliceOK buf 0 (Z.of_nat (length hdrData))) then HdrPanic
  else
    let compareRes := bytesCompare (bufSlice buf 0 (length hdrData)) hdrData in
    if negb (compareRes =? 0) then HdrIllegal
    else
      match Uint32 (skipn (length hdrData) buf) with
      | None => HdrPanic
      | Some compressedDataLen =>
          if int_of_uint32 compressedDataLen
               >? wrap64 (maxFrameBytes config - totalHdrLen)
          then HdrInvalidLen compressedDataLen
          else HdrOk compressedDataLen
      end.

(** Lines 99-102. *)
Definition mkFrame (buf : list byte) (compressedDataLen : Z) : option CompressData :=
  let hi := wrap64 (int_of_uint32 compressedDataLen + totalHdrLen) in
  let i := wrap64 (Z.of_nat (length hdrData) + payloadMarkerLen) in
  if sliceOK buf totalHdrLen hi && indexOK buf i
  then Some (mkCompressData
               (bufSlice buf (Z.to_nat totalHdrLen) (Z.to_nat hi))
               (negb (byte.unsigned (nth (Z.to_nat i) buf Byte.x00) =? 0)))
  else None.

(** Lines 103-112: the two non-blocking pushes. *)
Definition publish (s : PState) (c : Conn) (buf : list byte) (log : list LogMsg)
    (dataToUncompress : CompressData) (size : Z) : PState :=
  let '(sent1, q1) := trySend (pktUncompressChannel s) dataToUncompress in
  let log1 := if sent1 then log else log ++ [LogUncompressFull] in
  let '(sent2, q2) := trySend (sizeChannel s) size in
  let log2 := if sent2 then log1 else log1 ++ [LogSizeFull] in
  mkPState c (connCloses s) buf q1 q2 log2.

(** Lines 78-112: what a pass does once the header read [r] has returned
    nil. *)
Definition framePass (config : Config) (s : PState) (r : ReadOut) : Step :=
  match hdrCheck config (ro_buf r) with
  | HdrPanic => Panic
  | HdrIllegal =>
      Return (closeAll s (ro_conn r) (ro_buf r) (ro_log r ++ [LogIllegal]))
  | HdrInvalidLen n =>
      Return (closeAll s (ro_conn r) (ro_buf r) (ro_log r ++ [LogInvalidLen n]))
  | HdrOk compressedDataLen =>
      let n := int_of_uint32 compressedDataLen in
      let hi := wrap64 (totalHdrLen + n) in
      if negb (sliceOK (ro_buf r) totalHdrLen hi) then Panic
      else
        let r2 := readDataFromSocket (ro_conn r) (ro_buf r)
                    (Z.to_nat totalHdrLen) (Z.to_nat hi) n (ro_log r) in
        match ro_ret r2 with
        | RetPanic => Panic
        | RetSpin => Spin
        | RetErr err =>
            Return (closeAll s (ro_conn r2) (ro_buf r2)
                             (ro_log r2 ++ [LogReadFail err]))
        | RetNil =>
            match mkFrame (ro_buf r2) compressedDataLen with
            | None => Panic
            | Some dataToUncompress =>
                Continue (publish s (ro_conn r2) (ro_buf r2) (ro_log r2)
                                  dataToUncompress
                                  (wrap64 (totalHdrLen + n)))
            end
        end
  end.

(** One pass of the [for] loop of [readPkts] (lines 68-113). *)
Definition readPktsIter (config : Config) (s : PState) : Step :=
  if negb (sliceOK (dataBuff s) 0 totalHdrLen) then Panic
  else
    let r := readDataFromSocket (clientConn s) (dataBuff s)
               0 (Z.to_nat totalHdrLen) totalHdrLen (logs s) in
    match ro_ret r with
    | RetPanic => Panic
    | RetSpin => Spin
    | RetErr err =>
        let log := if negb (IsTimeout err)
                   then ro_log r ++ [LogReadFail err] else ro_log r in
        Return (closeAll s (ro_conn r) (ro_buf r) log)
    | RetNil => framePass config s r
    end.

(** The [for] loop, one pass per unit of [fuel]. *)
Fixpoint readPktsLoop (fuel : nat) (config : Config) (s : PState) : Step :=
  match fuel with
  | O => Spin
  | S fuel' =>
      match readPktsIter config s with
      | Continue s' => readPktsLoop fuel' config s'
      | r => r
      end
  end.

(** What is left of the script, counted so that every read into a non-empty
    window of a non-empty script lowers it. *)
Definition connMeasure (c : Conn) : nat :=
  fold_right (fun e acc => S (length (ev_data e)) + acc)%nat 0%nat c.

(** [readPkts] (lines 63-114): allocate the buffer, then loop.  A pass that
    goes round again has consumed part of the script, so the budget below is
    never exhausted (see [readPktsLoop_returns]). *)
Definition readPkts (clientConn0 : Conn) (config : Config)
    (pktUncompressChannel0 : Chan CompressData) (sizeChannel0 : Chan Z) : Step :=
  match makeBuf (maxFrameBytes config) with
  | None => Panic
  | Some buf =>
      readPktsLoop (S (connMeasure clientConn0)) config
        (mkPState clientConn0 0 buf pktUncompressChannel0 sizeChannel0 [])
  end.

End Receiver.

(** ** processHost and the goroutines it starts (lines 160-184)

    The accept loop hands every accepted connection on.  Without
    authentication it makes the frame queue and starts the decompression
    stage and the read loop itself (lines 181-183).  With authentication it
    starts a goroutine (lines 172-178) that runs the handshake and, if the
    handshake accepts, makes the queue and starts the two.  A goroutine runs
    when the scheduler lets it: a run of the receiver is a sequence of
    events, each of them one step of the accept loop or of one goroutine.
    Setting up the listener (lines 134-158) is outside the model. *)

Record HostConn : Type := mkHostConn {
  hc_id : nat;
  hc_stream : Conn;
  hc_closes : nat   (* calls of Close() on the handle *)
}.

(** The goroutine [readPkts] of one connection. *)
Inductive Reader : Type :=
| ReaderStarted (c : Conn)    (* started by [go], not yet run *)
| ReaderRuns (s : PState)     (* in its loop *)
| ReaderReturned (s : PState)
| ReaderPanicked.             (* ended by a run-time panic *)

(** What lines 174-176 and 181-183 make for one connection: the frame
    queue, the read loop that fills it, and the decompression stage that
    empties it (a stage has no state of its own). *)
Record Pipe : Type := mkPipe {
  pipe_id : nat;
  pipe_reader : Reader;
  pipe_queue : Chan CompressData
}.

Inductive StageLog : Type :=
| LogDecompressFailed
| LogOutputFull.

(** What all connections share: [sizeChannel] (line 160), the output queue
    [consolePktOutputChannel], and the log of the stages.  Beside its text
    an item of the output queue carries the id of the connection whose stage
    pushed it; the id is a label of the model, not a value of the program. *)
Record Shared : Type := mkShared {
  sh_size : Chan Z;
  sh_output : Chan (nat * list byte);
  sh_log : list StageLog
}.

Record Host : Type := mkHost {
  h_pending : list HostConn;  (* goroutines of line 172, started and not yet run *)
  h_handles : list HostConn;  (* handles past the handshake, or that needed none *)
  h_pipes : list Pipe;
  h_shared : Shared
}.

Inductive HostEvent : Type :=
| Accepts (hostConn : HostConn)  (* Accept returns: one pass of the loop *)
| AuthRuns (id : nat)            (* the goroutine of lines 172-178 runs *)
| ReaderSteps (id : nat)         (* readPkts of connection id: one step *)
| StageSteps (id : nat)          (* decompressPkts of connection id: one frame *)
| SizeTaken                      (* calculateDataSize takes a size report *)
| OutputTaken.                   (* receiverOutput takes an item (line 119) *)

(** The reader's state with the shared queues as they are now. *)
Definition attach (q : Chan CompressData) (sz : Chan Z) (s : PState) : PState :=
  mkPState (clientConn s) (connCloses s) (dataBuff s) q sz (logs s).

(** One step of the first pipe of connection [id], if there is one. *)
Fixpoint stepPipe (id : nat) (f : Pipe -> Shared -> Pipe * Shared)
    (pipes : list Pipe) (sh : Shared) : list Pipe * Shared :=
  match pipes with
  | [] => ([], sh)
  | p :: rest =>
      if (pipe_id p =? id)%nat
      then let '(p', sh') := f p sh in (p' :: rest, sh')
      else let '(rest', sh') := stepPipe id f rest sh in (p :: rest', sh')
  end.

(** The first pending goroutine of connection [id], taken off the list. *)
Fixpoint takePending (id : nat) (l : list HostConn)
  : option (HostConn * list HostConn) :=
  match l with
  | [] => None
  | c :: rest =>
      if (hc_id c =? id)%nat then Some (c, rest)
      else match takePending id rest with
           | Some (c', rest') => Some (c', c :: rest')
           | None => None
           end
  end.

(** Modelled from the spec: [calculateDataSize], started at line 161, is
    declared outside receiver.go.  Section 4.8: the sampler owns "a running
    total, incremented (non-blockingly consumed) from the shared size queue
    as reports arrive".  Here it takes one report off the queue, if one is
    there; the total is not modelled. *)
Definition calculateDataSize (sh : Shared) : Shared :=
  mkShared (snd (recv (sh_size sh))) (sh_output sh) (sh_log sh).

(** Line 119: [receiverOutput] takes the next item off the output queue, if
    one is there.  What it does with the item is [receiverOutput] below. *)
Definition outputTaken (sh : Shared) : Shared :=
  mkShared (sh_size sh) (snd (recv (sh_output sh))) (sh_log sh).

(** Lines 174-176 and 181-183: [make] the frame queue, [go] the stage,
    [go] the read loop. *)
Definition startPipeline (h : Host) (hostConn : HostConn) : Host :=
  mkHost (h_pending h) (h_handles h ++ [hostConn])
         (h_pipes h ++ [mkPipe (hc_id hostConn)
                               (ReaderStarted (hc_stream hostConn))
                               (makeChan maxNumPkts)])
         (h_shared h).

Section System.

Variable kilobyte : Z.

(** The content of the handshake: its verdict, and what it leaves of the
    connection's stream. *)
Variable authenticate : HostConn -> bool * Conn.

(** The decompression algorithm. *)
Variable decompress : list byte -> option (list byte).

(** Modelled from the spec: [handleServerAuth] is declared outside
    receiver.go.  Section 4.4: the handshake returns accepted or rejected;
    "On rejection, the connection is closed". *)
Definition handleServerAuth (hostConn : HostConn) : bool * HostConn :=
  let '(ok, stream') := authenticate hostConn in
  if ok
  then (true, mkHostConn (hc_id hostConn) stream' (hc_closes hostConn))
  else (false, mkHostConn (hc_id hostConn) stream' (S (hc_closes hostConn))).

(** Modelled from the spec: [decompressPkts] is declared outside
    receiver.go.  Sections 4.6 and 5: for each frame, "if isCompressed
    invoke the decompression collaborator, else pass payload through
    unchanged; push the resulting text onto the shared output queue", by "a
    single non-blocking push and drop-and-log on failure"; "Decompression
    failures are logged and the offending frame is dropped".  This is the
    stage of connection [id] handling one frame. *)
Definition decompressFrame (id : nat) (fr : CompressData)
    (out : Chan (nat * list byte)) (log : list StageLog)
  : Chan (nat * list byte) * list StageLog :=
  match (if IsCompressed fr then decompress (Data fr) else Some (Data fr)) with
  | None => (out, log ++ [LogDecompressFailed])
  | Some text =>
      let '(sent, out') := trySend out (id, text) in
      (out', if sent then log else log ++ [LogOutputFull])
  end.

(** Modelled from the spec: section 4.6, the stage "consumes Frames from its
    connection's queue".  One step takes the next frame off the queue, if
    one is there, and handles it; that the stage ends when its queue has
    been closed and emptied is not modelled. *)
Definition stageStep (p : Pipe) (sh : Shared) : Pipe * Shared :=
  match recv (pipe_queue p) with
  | (Some fr, q') =>
      let '(out', log') :=
        decompressFrame (pipe_id p) fr (sh_output sh) (sh_log sh) in
      (mkPipe (pipe_id p) (pipe_reader p) q', mkShared (sh_size sh) out' log')
  | (None, _) => (p, sh)
  end.

(** A step of [readPkts] as a goroutine: its allocation (line 65), then
    one pass of its loop per step, on the queues as the other goroutines
    have left them. *)
Definition readerStep (config : Config) (p : Pipe) (sh : Shared)
  : Pipe * Shared :=
  match pipe_reader p with
  | ReaderStarted c =>
      match makeBuf (maxFrameBytes kilobyte config) with
      | None => (mkPipe (pipe_id p) ReaderPanicked (pipe_queue p), sh)
      | Some buf =>
          (mkPipe (pipe_id p)
                  (ReaderRuns (mkPState c 0 buf (pipe_queue p) (sh_size sh) []))
                  (pipe_queue p), sh)
      end
  | ReaderRuns s =>
      match readPktsIter kilobyte config
                         (attach (pipe_queue p) (sh_size sh) s) with
      | Continue s' =>
          (mkPipe (pipe_id p) (ReaderRuns s') (pktUncompressChannel s'),
           mkShared (sizeChannel s') (sh_output sh) (sh_log sh))
      | Return s' =>
          (mkPipe (pipe_id p) (ReaderReturned s') (pktUncompressChannel s'),
           mkShared (sizeChannel s') (sh_output sh) (sh_log sh))
      | Panic | Spin =>
          (mkPipe (pipe_id p) ReaderPanicked (pipe_queue p), sh)
      end
  | ReaderReturned _ | ReaderPanicked => (p, sh)
  end.

(** Lines 171-183: what the accept loop does with an accepted connection. *)
Definition acceptConn (config : Config) (h : Host) (hostConn : HostConn) : Host :=
  if AuthEnable config
  then mkHost (h_pending h ++ [hostConn]) (h_handles h) (h_pipes h) (h_shared h)
  else startPipeline h hostConn.

(** Lines 172-178: the goroutine started for connection [id] runs. *)
Definition authGoroutine (h : Host) (id : nat) : Host :=
  match takePending id (h_pending h) with
  | None => h
  | Some (hostConn, pending') =>
      let '(ok, hostConn') := handleServerAuth hostConn in
      if ok
      then startPipeline (mkHost pending' (h_handles h) (h_pipes h) (h_shared h))
                         hostConn'
      else mkHost pending' (h_handles h ++ [hostConn']) (h_pipes h) (h_shared h)
  end.

Definition hostStep (config : Config) (h : Host) (ev : HostEvent) : Host :=
  match ev with
  | Accepts hostConn => acceptConn config h hostConn
  | AuthRuns id => authGoroutine h id
  | ReaderSteps id =>
      let '(pipes, sh) := stepPipe id (readerStep config) (h_pipes h) (h_shared h) in
      mkHost (h_pending h) (h_handles h) pipes sh
  | StageSteps id =>
      let '(pipes, sh) := stepPipe id stageStep (h_pipes h) (h_shared h) in
      mkHost (h_pending h) (h_handles h) pipes sh
  | SizeTaken =>
      mkHost (h_pending h) (h_handles h) (h_pipes h)
             (calculateDataSize (h_shared h))
  | OutputTaken =>
      mkHost (h_pending h) (h_handles h) (h_pipes h) (outputTaken (h_shared h))
  end.

(** [processHost] with the goroutines it has started, under a schedule. *)
Definition processHost (config : Config) (events : list HostEvent) (h : Host)
  : Host :=
  fold_left (hostStep config) events h.

End System.

(** Every queue within its capacity, the frame queues of capacity
    [maxNumPkts]. *)
Definition withinCap {A : Type} (ch : Chan A) : Prop :=
  (length (ch_items ch) <= ch_cap ch)%nat.

Definition pipeBounded (p : Pipe) : Prop :=
  ch_cap (pipe_queue p) = maxNumPkts /\ withinCap (pipe_queue p).

Definition hostBounded (h : Host) : Prop :=
  Forall pipeBounded (h_pipes h) /\
  withinCap (sh_size (h_shared h)) /\
  withinCap (sh_output (h_shared h)).

(** A step of a goroutine that keeps its pipe's id, keeps every queue it
    touches within the queue's capacity, keeps the capacities, and labels
    what it pushes onto the output queue with its pipe's id. *)
Definition stepKeeps (f : Pipe -> Shared -> Pipe * Shared) : Prop :=
  forall p sh,
    pipe_id (fst (f p sh)) = pipe_id p /\
    (pipeBounded p -> pipeBounded (fst (f p sh))) /\
    (withinCap (sh_size sh) -> withinCap (sh_size (snd (f p sh)))) /\
    ch_cap (sh_size (snd (f p sh))) = ch_cap (sh_size sh) /\
    (withinCap (sh_output sh) -> withinCap (sh_output (snd (f p sh)))) /\
    ch_cap (sh_output (snd (f p sh))) = ch_cap (sh_output sh) /\
    (forall item, In item (ch_items (sh_output (snd (f p sh)))) ->
                  In item (ch_items (sh_output sh)) \/ fst item = pipe_id p).

(** Nothing of connection [i] in the receiver: no pipe (frame queue, read
    loop, stage), no item of the output queue pushed by its stage, and no
    open handle past the handshake. *)
Definition nothingFor (i : nat) (h : Host) : Prop :=
  ~ In i (map pipe_id (h_pipes h)) /\
  (forall item, In item (ch_items (sh_output (h_shared h))) -> fst item <> i) /\
  (forall c, In c (h_handles h) -> hc_id c = i -> (0 < hc_closes c)%nat).

(** Connection [i] awaits its handshake, or is past it. *)
Definition reached (i : nat) (h : Host) : Prop :=
  (exists c, In c (h_pending h) /\ hc_id c = i) \/
  (exists c, In c (h_handles h) /\ hc_id c = i).

(** The connections a run accepts. *)
Definition acceptedIn (events : list HostEvent) : list HostConn :=
  flat_map (fun ev => match ev with Accepts c => [c] | _ => [] end) events.

(** ** Sources and the wire format, for stating the properties *)

(** What is left of a list of chunks once its first [k] bytes have been
    taken by reads: whole chunks go, and the chunk a read stopped in keeps
    its remaining bytes. *)
Fixpoint dropBytes (k : nat) (cs : list (list byte)) : list (list byte) :=
  match cs with
  | [] => []
  | c :: cs' =>
      if (k =? 0)%nat then cs
      else if (length c <=? k)%nat then dropBytes (k - length c) cs'
      else skipn k c :: cs'
  end.

Definition nonEmpty (c : list byte) : Prop := c <> [].

(** A frame as a sender puts it on the wire: the magic, the payload length
    as four little-endian bytes, the flag byte, the payload. *)
Definition encodeFrame (f : byte) (P : list byte) : list byte :=
  hdrData ++ le_split 4 (Z.of_nat (length P)) ++ [f] ++ P.

(** ** The two reads of a pass

    Names for the calls of lines 69 and 92 with the constants worked out
    ([totalHdrLen] is 9), and for the frame of lines 99-102. *)

Definition hdrRead (s : PState) : ReadOut :=
  readDataFromSocket (clientConn s) (dataBuff s) 0 9 9 (logs s).

Definition payloadRead (r : ReadOut) (n : Z) : ReadOut :=
  readDataFromSocket (ro_conn r) (ro_buf r) 9 (9 + Z.to_nat n) n (ro_log r).

Definition frameOf (buf : list byte) (n : Z) : CompressData :=
  mkCompressData (bufSlice buf 9 (9 + Z.to_nat n))
                 (negb (byte.unsigned (nth 8 buf Byte.x00) =? 0)).

(** ** Concrete connections, for the examples

    A receiver configured with a one-kilobyte buffer ([kilobyte] taken as
    1024), fresh queues of [maxNumPkts] entries, and the payload "abc". *)

Definition exampleConfig : Config := mkConfig 1 false.

Definition abc : list byte := [Byte.x61; Byte.x62; Byte.x63].

Definition exampleState (c : Conn) : PState :=
  mkPState c 0 (repeat Byte.x00 1024) (makeChan maxNumPkts) (makeChan maxNumPkts) [].

(** The receiver as [StartReceiver] and [processHost] set it up: no
    connection yet, a size queue of [maxNumPkts] entries (line 160) and an
    output queue of ten times as many (line 197). *)
Definition exampleHost : Host :=
  mkHost [] [] [] (mkShared (makeChan maxNumPkts) (makeChan (maxNumPkts * 10)) []).

Definition exampleHostConn (id : nat) : HostConn :=
  mkHostConn id [Ev (encodeFrame Byte.x00 abc) None] 0.

(** A handshake that turns connection 7 away and lets the others in, and
    reads nothing; a decompression that hands the bytes back. *)
Definition exampleAuth (c : HostConn) : bool * Conn :=
  (negb (hc_id c =? 7)%nat, hc_stream c).

Definition exampleDecompress (bs : list byte) : option (list byte) := Some bs.

(** A pass with both queues full: capacity one, one entry each. *)
Definition fullState : PState :=
  mkPState [Ev (encodeFrame Byte.x00 abc) None] 0 (repeat Byte.x00 1024)
           (mkChan [mkCompressData abc true] 1 0) (mkChan [12] 1 0) [].

(** That pass has read the frame, dropped it and its size, and logged both
    drops. *)
Definition fullAfter : PState :=
  mkPState [] 0 (encodeFrame Byte.x00 abc ++ repeat Byte.x00 1012)
           (mkChan [mkCompressData abc true] 1 0) (mkChan [12] 1 0)
           [LogUncompressFull; LogSizeFull].

(** A stage with one frame to handle and a full output queue. *)
Definition fullPipe : Pipe :=
  mkPipe 8 (ReaderStarted []) (mkChan [mkCompressData abc false] maxNumPkts 0).

Definition fullShared : Shared :=
  mkShared (makeChan 1) (mkChan [(8%nat, abc)] 1 0) [].

(** A receiver whose shared queues hold one item each, and two connections
    that deliver a frame each before either stage runs. *)
Definition smallHost : Host :=
  mkHost [] [] [] (mkShared (makeChan 1) (makeChan 1) []).

Definition floodSchedule : list HostEvent :=
  [Accepts (exampleHostConn 1); Accepts (exampleHostConn 2);
   ReaderSteps 1; ReaderSteps 1; ReaderSteps 2; ReaderSteps 2;
   StageSteps 1; StageSteps 2].

(** Authentication on.  Connections 7 and 8 are accepted in that order; the
    handshake of 8 ends first; every goroutine there is gets to run. *)
Definition authConfig : Config := mkConfig 1 true.

Definition authSchedule : list HostEvent :=
  [Accepts (exampleHostConn 7); Accepts (exampleHostConn 8);
   AuthRuns 8; AuthRuns 7;
   ReaderSteps 8; ReaderSteps 8; StageSteps 8;
   ReaderSteps 7; ReaderSteps 7; StageSteps 7].

(** A destination that keeps what it is handed and reports failure (1) on
    an empty item. *)
Definition exampleWrite (config : Config) (x : list byte)
    (snk : list (list byte)) : Z * list (list byte) :=
  (if (length x =? 0)%nat then 1 else 0, snk ++ [x]).

(** ** Streams of frames

    All the bytes a connection's script holds, in order; the reader's error
    for each kind of read error that ends a read (lines 39-47); a whole
    sequence of frames on the wire, and the state a pass leaves behind when
    it has read one of them. *)

Definition allBytes (c : Conn) : list byte := concat (map ev_data c).

Definition classify (e : ReadErr) : SockErr :=
  match e with
  | EOF => ErrAbrupt
  | Timeout => ErrTimeout
  | OtherErr => ErrClosed
  end.

Definition frameFor (fp : byte * list byte) : CompressData :=
  mkCompressData (snd fp) (negb (byte.unsigned (fst fp) =? 0)).

Definition encodeAll (fs : list (byte * list byte)) : list byte :=
  concat (map (fun fp => encodeFrame (fst fp) (snd fp)) fs).

Definition setConn (c : Conn) (s : PState) : PState :=
  mkPState c (connCloses s) (dataBuff s) (pktUncompressChannel s)
           (sizeChannel s) (logs s).

(** The state after a pass that read the frame [fp]: the frame's bytes are
    at the front of the buffer, the reader's line for an empty read is in
    the log when the payload is empty, and both pushes have been tried. *)
Definition deliver (s : PState) (fp : byte * list byte) : PState :=
  publish s (clientConn s)
          (bufWrite (dataBuff s) 0 (encodeFrame (fst fp) (snd fp)))
          (logs s ++ (if (length (snd fp) =? 0)%nat then [LogZeroNoErr] else []))
          (frameFor fp) (9 + Z.of_nat (length (snd fp))).

(** A frame the receiver can take: its payload fits behind the header in
    the buffer, and its length in four bytes. *)
Definition fitsFrame (kilobyte : Z) (config : Config) (fp : byte * list byte)
  : Prop :=
  Z.of_nat (length (snd fp)) <= maxFrameBytes kilobyte config - 9 /\
  Z.of_nat (length (snd fp)) < 2 ^ 32.

(** Offering a list of items to a queue, one non-blocking push each. *)
Definition trySendAll {A : Type} (ch : Chan A) (xs : list A) : Chan A :=
  fold_left (fun q x => snd (trySend q x)) xs ch.

(** ** receiverOutput (lines 116-130)

    The writer sees the output channel as the items that arrive on it, in
    order, and then either the channel's close or nothing more, in which
    case the receive of line 119 waits.  [writeOutput] is declared outside
    receiver.go; it is taken as a parameter acting on the state of the
    destination. *)

Inductive OutputLog : Type :=
| LogOutputChannel.   (* line 122: "Error while reading from output channel" *)

Inductive OutputEnd : Type :=
| OutputClosed        (* line 123: break, the channel was closed *)
| OutputWriteFailed   (* line 127: break, writeOutput returned 1 *)
| OutputWaiting.      (* blocked in the receive of line 119 *)

Record OutputRun (Sink : Type) : Type := mkOutputRun {
  or_end : OutputEnd;
  or_sink : Sink;
  or_log : list OutputLog;
  or_unread : list (list byte)   (* items left on the channel *)
}.
Arguments mkOutputRun {Sink} _ _ _ _.
Arguments or_end {Sink} _.
Arguments or_sink {Sink} _.
Arguments or_log {Sink} _.
Arguments or_unread {Sink} _.

Section ReceiverOutput.

Variable Sink : Type.
Variable writeOutput : Config -> list byte -> Sink -> Z * Sink.

Fixpoint receiverOutput (config : Config) (arrivals : list (list byte))
    (closed : bool) (snk : Sink) (log : list OutputLog) : OutputRun Sink :=
  match arrivals with
  | [] =>
      if closed
      then mkOutputRun OutputClosed snk (log ++ [LogOutputChannel]) []
      else mkOutputRun OutputWaiting snk log []
  | tmpData :: rest =>
      let '(rc, snk') := writeOutput config tmpData snk in
      if rc =? 1
      then mkOutputRun OutputWriteFailed snk' log rest
      else receiverOutput config rest closed snk' log
  end.

(** Writing a run of items one after the other, as long as no write
    returns 1. *)
Fixpoint writeAll (config : Config) (items : list (list byte)) (snk : Sink)
  : option Sink :=
  match items with
  | [] => Some snk
  | x :: rest =>
      let '(rc, snk') := writeOutput config x snk in
      if rc =? 1 then None else writeAll config rest snk'
  end.

End ReceiverOutput.

(** Closed goals over the concrete connections are settled by evaluating
    the model. *)
Ltac by_evaluation :=
  vm_compute;
  first [ reflexivity | discriminate | (intro; discriminate)
        | (repeat constructor; discriminate) ].

(** * Properties *)

(** ** Integers and bytes *)

Lemma wrap64_small (z : Z) : - 2 ^ 63 <= z < 2 ^ 63 -> wrap64 z = z.
Proof.
  intros Hz. unfold wrap64.
  rewrite Z.mod_small by lia. lia.
Qed.

Lemma totalHdrLen_eq : totalHdrLen = 9.
Proof. reflexivity. Qed.

Lemma Uint32_le_combine (b : list byte) :
  (4 <= length b)%nat -> Uint32 b = Some (le_combine (firstn 4 b)).
Proof.
  destruct b as [|b0 [|b1 [|b2 [|b3 t]]]]; cbn [length]; try lia.
  intros _. cbn [Uint32 firstn]. unfold le_combine. f_equal.
  rewrite !Z.shiftl_lor, !Z.shiftl_shiftl by lia.
  rewrite Z.shiftl_0_l, Z.lor_0_r.
  simpl Z.add. now rewrite !Z.lor_assoc.
Qed.

Lemma Uint32_short (b : list byte) : (length b < 4)%nat -> Uint32 b = None.
Proof.
  destruct b as [|b0 [|b1 [|b2 [|b3 t]]]]; simpl; auto; lia.
Qed.

Lemma Uint32_range (b : list byte) (v : Z) :
  Uint32 b = Some v -> 0 <= v < 2 ^ 32.
Proof.
  intros H.
  destruct (Nat.lt_ge_cases (length b) 4) as [Hs | Hl].
  - rewrite Uint32_short in H by assumption. discriminate.
  - rewrite Uint32_le_combine in H by assumption.
    injection H as <-.
    pose proof (le_combine_bound (firstn 4 b)) as Hb.
    rewrite length_firstn, Nat.min_l in Hb by assumption.
    exact Hb.
Qed.

Lemma int_of_uint32_id (u : Z) : 0 <= u < 2 ^ 32 -> int_of_uint32 u = u.
Proof. intros Hu. apply wrap64_small. lia. Qed.

Lemma bytesCompare_eq (a b : list byte) : bytesCompare a b = 0 <-> a = b.
Proof.
  revert b. induction a as [|x a IH]; intros [|y b]; simpl;
    try (split; [lia | discriminate]); try tauto.
  unfold byte.compare.
  destruct (Z.compare_spec (byte.unsigned x) (byte.unsigned y)) as [E | L | G].
  - apply byte.unsigned_inj in E. subst y.
    rewrite IH. split; [now intros -> | now injection 1].
  - split; [lia | injection 1 as -> _; lia].
  - split; [lia | injection 1 as -> _; lia].
Qed.

Lemma bytesCompare_refl (a : list byte) : bytesCompare a a = 0.
Proof. now apply bytesCompare_eq. Qed.

(** ** The buffer *)

Lemma length_bufWrite (buf : list byte) (off : nat) (bs : list byte) :
  (off + length bs <= length buf)%nat ->
  length (bufWrite buf off bs) = length buf.
Proof.
  intros H. unfold bufWrite.
  rewrite !length_app, length_firstn, length_skipn. lia.
Qed.

Lemma bufWrite_nil (buf : list byte) (off : nat) : bufWrite buf off [] = buf.
Proof.
  unfold bufWrite. simpl. rewrite Nat.add_0_r. apply firstn_skipn.
Qed.

Lemma bufWrite_app (buf : list byte) (off : nat) (xs ys : list byte) :
  (off + length xs + length ys <= length buf)%nat ->
  bufWrite (bufWrite buf off xs) (off + length xs) ys = bufWrite buf off (xs ++ ys).
Proof.
  intros H. unfold bufWrite.
  assert (Hf : (off + length xs)%nat = length (firstn off buf ++ xs))
    by (rewrite length_app, length_firstn; lia).
  rewrite (app_assoc (firstn off buf) xs).
  rewrite (List.firstn_app_l _ _ _ Hf).
  rewrite (List.skipn_app_r2 _ _ _ (length ys) Hf).
  rewrite skipn_skipn, length_app, <- !app_assoc.
  do 3 apply f_equal. f_equal. lia.
Qed.

Lemma bufSlice_bufWrite (buf : list byte) (lo hi : nat) (bs : list byte) :
  (lo + length bs <= length buf)%nat -> hi = (lo + length bs)%nat ->
  bufSlice (bufWrite buf lo bs) lo hi = bs.
Proof.
  intros H ->. unfold bufSlice, bufWrite.
  assert (Hf : length (firstn lo buf) = lo)
    by (rewrite length_firstn; lia).
  rewrite skipn_app, Hf, Nat.sub_diag, skipn_all2 by lia.
  simpl. replace (lo + length bs - lo)%nat with (length bs) by lia.
  now rewrite firstn_app, firstn_all, Nat.sub_diag, app_nil_r.
Qed.

(** Bytes outside the written range keep their value. *)
Lemma nth_bufWrite_outside (buf : list byte) (off i : nat) (bs : list byte) (d : byte) :
  (off + length bs <= length buf)%nat ->
  (i < off \/ off + length bs <= i)%nat ->
  nth i (bufWrite buf off bs) d = nth i buf d.
Proof.
  intros H Hi. unfold bufWrite.
  assert (Hf : length (firstn off buf) = off)
    by (rewrite length_firstn; lia).
  rewrite <- (firstn_skipn off buf) at 3.
  destruct Hi as [Hi | Hi].
  - rewrite !app_nth1 by lia. reflexivity.
  - rewrite app_nth2 by lia. rewrite app_nth2 by lia.
    rewrite (app_nth2 (firstn off buf)) by lia.
    rewrite !nth_skipn. f_equal. lia.
Qed.

(** ** The connection script *)

Lemma connRead_cases (c : Conn) (cap : nat) :
  (cap = 0%nat /\ connRead c cap = ([], None, c))
  \/ ((0 < cap)%nat /\ c = [] /\ connRead c cap = ([], Some Timeout, []))
  \/ ((0 < cap)%nat /\ exists d e rest, c = Ev d e :: rest /\
        (length d <= cap)%nat /\ connRead c cap = (d, e, rest))
  \/ ((0 < cap)%nat /\ exists d e rest, c = Ev d e :: rest /\
        (cap < length d)%nat /\
        connRead c cap = (firstn cap d, None, Ev (skipn cap d) e :: rest)).
Proof.
  destruct cap as [|k]; [now left | right].
  destruct c as [|[d e] rest]; [left; repeat split; lia | right].
  cbn [connRead].
  destruct (Nat.leb_spec (length d) (S k)); [left | right];
    (split; [lia | exists d, e, rest; repeat split; auto]).
Qed.

Lemma connRead_length (c : Conn) (cap : nat) bs e c' :
  connRead c cap = (bs, e, c') -> (length bs <= cap)%nat.
Proof.
  destruct (connRead_cases c cap)
    as [[_ ->] | [(_ & _ & ->) | [(_ & d & er & rest & _ & Hd & ->)
                                 | (_ & d & er & rest & _ & Hd & ->)]]];
    injection 1 as <- _ _; simpl; try lia.
  rewrite length_firstn. lia.
Qed.

Lemma connRead_measure (c : Conn) (cap : nat) bs e c' :
  connRead c cap = (bs, e, c') -> (connMeasure c' <= connMeasure c)%nat.
Proof.
  destruct (connRead_cases c cap)
    as [[_ ->] | [(_ & _ & ->) | [(_ & d & er & rest & -> & Hd & ->)
                                 | (_ & d & er & rest & -> & Hd & ->)]]];
    injection 1 as _ _ <-; simpl; try lia.
  rewrite length_skipn. lia.
Qed.

(** A read into a non-empty window either reports the expired deadline of an
    exhausted script or consumes part of the script. *)
Lemma connRead_progress (c : Conn) (cap : nat) bs e c' :
  connRead c cap = (bs, e, c') -> (0 < cap)%nat ->
  (bs = [] /\ e = Some Timeout) \/ (connMeasure c' < connMeasure c)%nat.
Proof.
  destruct (connRead_cases c cap)
    as [[-> _] | [(_ & _ & ->) | [(_ & d & er & rest & -> & Hd & ->)
                                 | (Hc & d & er & rest & -> & Hd & ->)]]];
    [lia | | |]; injection 1 as <- <- <-; intros Hcap.
  - now left.
  - right. simpl. lia.
  - right. simpl. rewrite length_skipn. lia.
Qed.

(** ** The socket reader: what every run satisfies *)

Record ReadInv (c : Conn) (buf : list byte) (lo hi : nat)
    (bytesToRead total : Z) (r : ReadOut) : Prop := mkReadInv {
  ri_no_spin : ro_ret r <> RetSpin;
  ri_no_panic : ro_ret r <> RetPanic;
  ri_length : length (ro_buf r) = length buf;
  ri_measure : (connMeasure (ro_conn r) <= connMeasure c)%nat;
  ri_outside : forall i d, (i < lo \/ hi <= i)%nat ->
                 nth i (ro_buf r) d = nth i buf d;
  ri_progress : ro_ret r = RetNil -> (lo + Z.to_nat total < hi)%nat ->
                 total <> bytesToRead ->
                 (connMeasure (ro_conn r) < connMeasure c)%nat
}.

Lemma readLoop_inv (fuel : nat) :
  forall c buf lo hi bytesToRead total log,
    0 <= total -> (lo + Z.to_nat total <= hi)%nat -> (hi <= length buf)%nat ->
    (hi - (lo + Z.to_nat total) < fuel)%nat ->
    ReadInv c buf lo hi bytesToRead total
      (readLoop fuel c buf lo hi bytesToRead total log).
Proof.
  induction fuel as [|fuel IH]; intros c buf lo hi n total log Ht Hw Hb Hf; [lia|].
  cbn [readLoop].
  replace ((total <? 0) || (Z.of_nat (hi - lo) <? total)) with false
    by (symmetry; apply orb_false_iff; split; apply Z.ltb_ge; lia).
  destruct (connRead c (hi - (lo + Z.to_nat total))) as [[bs e] c'] eqn:Hr.
  pose proof (connRead_length _ _ _ _ _ Hr) as Hlen.
  pose proof (connRead_measure _ _ _ _ _ Hr) as Hm.
  assert (Hwl : length (bufWrite buf (lo + Z.to_nat total) bs) = length buf)
    by (apply length_bufWrite; lia).
  assert (Hout : forall i d, (i < lo \/ hi <= i)%nat ->
            nth i (bufWrite buf (lo + Z.to_nat total) bs) d = nth i buf d)
    by (intros i d Hi; apply nth_bufWrite_outside; lia).
  assert (Hpr : (lo + Z.to_nat total < hi)%nat -> total <> n ->
            (bs = [] /\ e = Some Timeout) \/ (connMeasure c' < connMeasure c)%nat)
    by (intros Hlt _; apply (connRead_progress _ _ _ _ _ Hr); lia).
  repeat match goal with
         | |- context [if ?b then _ else _] => destruct b eqn:?
         end;
    try (constructor; cbn [ro_ret ro_conn ro_buf]; try discriminate; auto;
         intros _ Hlt Hne; destruct (Hpr Hlt Hne) as [[-> ->] | Hd]; auto;
         cbn in *;
         repeat match goal with
                | H : _ && _ = false |- _ => apply andb_false_iff in H; destruct H
                | H : negb _ = false |- _ => apply negb_false_iff in H
                | H : (_ =? _) = true |- _ => apply Z.eqb_eq in H
                end; try discriminate; try lia).
  (* the pass goes round again *)
  assert (Hpos : 0 < Z.of_nat (length bs)).
  { destruct bs; [|simpl; lia]. destruct e; cbn in *; discriminate. }
  assert (Hoff : Z.to_nat (total + Z.of_nat (length bs))
                 = (Z.to_nat total + length bs)%nat) by lia.
  destruct (IH c' (bufWrite buf (lo + Z.to_nat total) bs) lo hi n
              (total + Z.of_nat (length bs)) log) as [I1 I2 I3 I4 I5 I6];
    try lia.
  constructor; auto; try lia.
  - intros i d Hi. rewrite I5 by assumption. now apply Hout.
  - intros Hret Hlt Hne.
    destruct (Hpr Hlt Hne) as [[-> _] | Hd]; [simpl in Hpos; lia | lia].
Qed.

Lemma readDataFromSocket_inv c buf lo hi bytesToRead log :
  (lo <= hi)%nat -> (hi <= length buf)%nat ->
  ReadInv c buf lo hi bytesToRead 0
    (readDataFromSocket c buf lo hi bytesToRead log).
Proof.
  intros H1 H2. apply readLoop_inv; simpl; lia.
Qed.

(** ** The socket reader on particular sources *)

Lemma connRead_fit d e rest cap :
  (0 < cap)%nat -> (length d <= cap)%nat ->
  connRead (Ev d e :: rest) cap = (d, e, rest).
Proof.
  intros H0 H. destruct cap; [lia|]. cbn [connRead].
  destruct (Nat.leb_spec (length d) (S cap)); [reflexivity | lia].
Qed.

Lemma connRead_split d e rest cap :
  (0 < cap)%nat -> (cap < length d)%nat ->
  connRead (Ev d e :: rest) cap = (firstn cap d, None, Ev (skipn cap d) e :: rest).
Proof.
  intros H0 H. destruct cap; [lia|]. cbn [connRead].
  destruct (Nat.leb_spec (length d) (S cap)); [lia | reflexivity].
Qed.

Lemma readLoop_in_window fuel c buf lo hi n total log :
  0 <= total -> (lo + Z.to_nat total <= hi)%nat ->
  readLoop (S fuel) c buf lo hi n total log =
  let off := (lo + Z.to_nat total)%nat in
  let '(bs, readErr, c') := connRead c (hi - off) in
  let buf' := bufWrite buf off bs in
  let bytesRead := Z.of_nat (length bs) in
  if notNil readErr && negb (isErr EOF readErr) && negb (isErr Timeout readErr)
  then mkReadOut (RetErr ErrClosed) c' buf' log total
  else if isErr EOF readErr && negb (total =? n)
  then mkReadOut (RetErr ErrAbrupt) c' buf' log total
  else if isErr Timeout readErr && negb (total =? n)
  then mkReadOut (RetErr ErrTimeout) c' buf' log total
  else if (bytesRead =? 0) && notNil readErr
  then mkReadOut RetNil c' buf'
         (log ++ [LogZeroErr (match readErr with Some e => e | None => EOF end)])
         total
  else if (bytesRead =? 0) && negb (notNil readErr)
  then mkReadOut RetNil c' buf' (log ++ [LogZeroNoErr]) total
  else
    let total' := total + bytesRead in
    if total' =? n
    then mkReadOut RetNil c' buf' log total'
    else readLoop fuel c' buf' lo hi n total' log.
Proof.
  intros Ht Hw. cbn [readLoop].
  replace ((total <? 0) || (Z.of_nat (hi - lo) <? total)) with false
    by (symmetry; apply orb_false_iff; split; apply Z.ltb_ge; lia).
  reflexivity.
Qed.

(** An event whose bytes fit the rest of the window. *)
Lemma readLoop_event fuel d e rest buf lo hi n total log :
  0 <= total -> (lo + Z.to_nat total < hi)%nat ->
  (lo + Z.to_nat total + length d <= hi)%nat ->
  readLoop (S fuel) (Ev d e :: rest) buf lo hi n total log =
  let buf' := bufWrite buf (lo + Z.to_nat total) d in
  let bytesRead := Z.of_nat (length d) in
  if notNil e && negb (isErr EOF e) && negb (isErr Timeout e)
  then mkReadOut (RetErr ErrClosed) rest buf' log total
  else if isErr EOF e && negb (total =? n)
  then mkReadOut (RetErr ErrAbrupt) rest buf' log total
  else if isErr Timeout e && negb (total =? n)
  then mkReadOut (RetErr ErrTimeout) rest buf' log total
  else if (bytesRead =? 0) && notNil e
  then mkReadOut RetNil rest buf'
         (log ++ [LogZeroErr (match e with Some e => e | None => EOF end)])
         total
  else if (bytesRead =? 0) && negb (notNil e)
  then mkReadOut RetNil rest buf' (log ++ [LogZeroNoErr]) total
  else
    let total' := total + bytesRead in
    if total' =? n
    then mkReadOut RetNil rest buf' log total'
    else readLoop fuel rest buf' lo hi n total' log.
Proof.
  intros Ht Hlt Hfit.
  rewrite readLoop_in_window by lia. cbv zeta.
  rewrite connRead_fit by lia. reflexivity.
Qed.

Lemma dropBytes_0 cs : dropBytes 0 cs = cs.
Proof. destruct cs; reflexivity. Qed.

Lemma concat_dropBytes (cs : list (list byte)) :
  forall k, concat (dropBytes k cs) = skipn k (concat cs).
Proof.
  induction cs as [|c cs IH]; intros k; cbn [dropBytes concat].
  - now rewrite skipn_nil.
  - destruct (Nat.eqb_spec k 0) as [-> | Hk]; [reflexivity|].
    rewrite skipn_app.
    destruct (Nat.leb_spec (length c) k) as [Hc | Hc].
    + rewrite IH, (skipn_all2 c Hc). reflexivity.
    + replace (k - length c)%nat with 0%nat by lia. reflexivity.
Qed.

Lemma Forall_dropBytes (cs : list (list byte)) :
  forall k, Forall nonEmpty cs -> Forall nonEmpty (dropBytes k cs).
Proof.
  induction cs as [|c cs IH]; intros k Hne; cbn [dropBytes]; [constructor|].
  destruct (Nat.eqb_spec k 0) as [-> | Hk]; [assumption|].
  inversion Hne as [|? ? Hc Hcs]; subst.
  destruct (Nat.leb_spec (length c) k) as [Hl | Hl]; [now apply IH|].
  constructor; [|assumption].
  intros E. apply (f_equal (@length byte)) in E.
  rewrite length_skipn in E. simpl in E. lia.
Qed.

Lemma nonEmpty_concat_nil (cs : list (list byte)) :
  Forall nonEmpty cs -> concat cs = [] -> cs = [].
Proof.
  destruct cs as [|c cs]; [reflexivity|].
  intros Hne E. inversion Hne as [|? ? Hc _]; subst.
  simpl in E. apply app_eq_nil in E. destruct E as [E _]. contradiction.
Qed.

Lemma nonEmpty_length (c : list byte) : nonEmpty c -> (0 < length c)%nat.
Proof. destruct c; [now intros [] | simpl; lia]. Qed.

(** While the chunks delivered so far hold fewer bytes than asked for, the
    reader stays in its loop: it has stored them in order and goes on with
    what follows. *)
Lemma readLoop_chunks_short (cs : list (list byte)) :
  forall fuel rest buf lo hi n total log,
    Forall nonEmpty cs -> 0 <= total ->
    (lo <= hi)%nat -> (hi <= length buf)%nat -> Z.of_nat (hi - lo) = n ->
    total + Z.of_nat (length (concat cs)) < n ->
    readLoop (length cs + fuel) (chunks cs ++ rest) buf lo hi n total log =
    readLoop fuel rest (bufWrite buf (lo + Z.to_nat total) (concat cs))
             lo hi n (total + Z.of_nat (length (concat cs))) log.
Proof.
  induction cs as [|c cs IH]; intros fuel rest buf lo hi n total log Hne Ht Hw Hb Hn Hs.
  - cbn [chunks map concat length app Nat.add].
    now rewrite bufWrite_nil, Z.add_0_r.
  - inversion Hne as [|? ? Hc Hcs]; subst.
    apply nonEmpty_length in Hc.
    cbn [concat] in *. rewrite length_app in Hs.
    cbn [chunks map length app Nat.add].
    rewrite readLoop_event by lia. cbv zeta.
    cbn [notNil isErr andb].
    replace (Z.of_nat (length c) =? 0) with false by (symmetry; apply Z.eqb_neq; lia).
    replace (total + Z.of_nat (length c) =? Z.of_nat (hi - lo)) with false
      by (symmetry; apply Z.eqb_neq; lia).
    cbn [andb]. fold (chunks cs).
    rewrite IH; try assumption; try lia.
    + replace (lo + Z.to_nat (total + Z.of_nat (length c)))%nat
        with (lo + Z.to_nat total + length c)%nat by lia.
      rewrite bufWrite_app by lia.
      rewrite length_app. f_equal. lia.
    + rewrite length_bufWrite; lia.
Qed.

(** Once the chunks hold the bytes asked for, the reader returns nil with
    exactly those bytes stored, and the source keeps every byte beyond. *)
Lemma readLoop_chunks_full (cs : list (list byte)) :
  forall fuel rest buf lo hi n total log,
    Forall nonEmpty cs -> 0 <= total < n ->
    (lo <= hi)%nat -> (hi <= length buf)%nat -> Z.of_nat (hi - lo) = n ->
    n <= total + Z.of_nat (length (concat cs)) ->
    (Z.to_nat (n - total) <= fuel)%nat ->
    readLoop fuel (chunks cs ++ rest) buf lo hi n total log =
    mkReadOut RetNil
      (chunks (dropBytes (Z.to_nat (n - total)) cs) ++ rest)
      (bufWrite buf (lo + Z.to_nat total)
                (firstn (Z.to_nat (n - total)) (concat cs)))
      log n.
Proof.
  induction cs as [|c cs IH];
    intros fuel rest buf lo hi n total log Hne Ht Hw Hb Hn Hs Hf.
  - simpl in Hs. lia.
  - inversion Hne as [|? ? Hc Hcs]; subst.
    apply nonEmpty_length in Hc.
    cbn [concat] in *. rewrite length_app in Hs.
    destruct fuel as [|fuel]; [lia|].
    cbn [chunks map app]. fold (chunks cs).
    set (k := Z.to_nat (Z.of_nat (hi - lo) - total)) in *.
    assert (Hk : (hi - (lo + Z.to_nat total))%nat = k) by lia.
    assert (Hk0 : (k =? 0)%nat = false) by (apply Nat.eqb_neq; lia).
    cbn [dropBytes]. rewrite Hk0.
    destruct (Nat.leb_spec (length c) k) as [Hl | Hl].
    + rewrite readLoop_event by lia. cbv zeta.
      cbn [notNil isErr andb].
      replace (Z.of_nat (length c) =? 0) with false
        by (symmetry; apply Z.eqb_neq; lia).
      cbn [andb].
      destruct (Z.eqb_spec (total + Z.of_nat (length c)) (Z.of_nat (hi - lo)))
        as [E | E].
      * replace (k - length c)%nat with 0%nat by lia.
        rewrite dropBytes_0, E.
        rewrite firstn_app, firstn_all2 by lia.
        replace (k - length c)%nat with 0%nat by lia.
        now rewrite firstn_O, app_nil_r.
      * rewrite IH; try assumption; try lia;
          [| rewrite length_bufWrite; lia].
        replace (Z.to_nat (Z.of_nat (hi - lo) - (total + Z.of_nat (length c))))
          with (k - length c)%nat by lia.
        replace (lo + Z.to_nat (total + Z.of_nat (length c)))%nat
          with (lo + Z.to_nat total + length c)%nat by lia.
        rewrite bufWrite_app
          by (rewrite length_firstn; lia).
        rewrite (firstn_app k), (firstn_all2 (n := k) c) by lia.
        reflexivity.
    + rewrite readLoop_in_window by lia. cbv zeta.
      rewrite Hk, connRead_split by lia.
      cbn [notNil isErr andb].
      rewrite length_firstn, Nat.min_l by lia.
      replace (Z.of_nat k =? 0) with false by (symmetry; apply Z.eqb_neq; lia).
      cbn [andb].
      replace (total + Z.of_nat k =? Z.of_nat (hi - lo)) with true
        by (symmetry; apply Z.eqb_eq; lia).
      rewrite firstn_app.
      replace (k - length c)%nat with 0%nat by lia.
      rewrite firstn_O, app_nil_r.
      f_equal. lia.
Qed.

Lemma nonEmpty_count (cs : list (list byte)) :
  Forall nonEmpty cs -> (length cs <= length (concat cs))%nat.
Proof.
  induction 1 as [|c cs Hc _ IH]; simpl; [lia|].
  apply nonEmpty_length in Hc. rewrite length_app. lia.
Qed.

(** The reader after a run of chunks that is still short of the count. *)
Lemma readDataFromSocket_after_chunks cs rest buf lo hi n log :
  Forall nonEmpty cs ->
  (lo <= hi)%nat -> (hi <= length buf)%nat -> Z.of_nat (hi - lo) = n ->
  Z.of_nat (length (concat cs)) < n ->
  readDataFromSocket (chunks cs ++ rest) buf lo hi n log =
  readLoop (S (hi - lo - length cs)) rest (bufWrite buf lo (concat cs))
           lo hi n (Z.of_nat (length (concat cs))) log.
Proof.
  intros Hne Hw Hb Hn Hs. unfold readDataFromSocket.
  pose proof (nonEmpty_count cs Hne) as Hc.
  replace (S (hi - lo)) with (length cs + S (hi - lo - length cs))%nat by lia.
  rewrite readLoop_chunks_short by (try assumption; lia).
  simpl Z.to_nat. rewrite Nat.add_0_r. reflexivity.
Qed.

(** C6.  A source that hands over its bytes in non-empty, error-free chunks
    of any sizes, read into a window of [n >= 1] bytes with count [n]:
    - while the chunks seen so far hold fewer than [n] bytes the reader has
      not returned: it is in its loop with [totalBytesRead] equal to the
      number of bytes delivered, all of them stored in order;
    - once they hold [n] bytes it returns nil with [totalBytesRead = n], the
      window holds exactly the first [n] delivered bytes in order, nothing is
      logged, and the source is left with exactly the bytes after the first
      [n]: none lost, none read twice. *)
Theorem readDataFromSocket_partial_reads
    (n : Z) (cs : list (list byte)) (rest : Conn) (buf : list byte)
    (lo hi : nat) (log : list LogMsg) :
  1 <= n -> Forall nonEmpty cs ->
  (lo <= hi)%nat -> (hi <= length buf)%nat -> Z.of_nat (hi - lo) = n ->
  (Z.of_nat (length (concat cs)) < n ->
     readDataFromSocket (chunks cs ++ rest) buf lo hi n log =
     readLoop (S (hi - lo - length cs)) rest (bufWrite buf lo (concat cs))
              lo hi n (Z.of_nat (length (concat cs))) log)
  /\
  (n <= Z.of_nat (length (concat cs)) ->
     let r := readDataFromSocket (chunks cs ++ rest) buf lo hi n log in
     ro_ret r = RetNil /\ ro_total r = n /\ ro_log r = log /\
     bufSlice (ro_buf r) lo hi = firstn (Z.to_nat n) (concat cs) /\
     ro_buf r = bufWrite buf lo (firstn (Z.to_nat n) (concat cs)) /\
     exists cs', ro_conn r = chunks cs' ++ rest /\ Forall nonEmpty cs' /\
                 concat cs' = skipn (Z.to_nat n) (concat cs)).
Proof.
  intros Hn Hne Hw Hb Hwin. split.
  - intros Hs. now apply readDataFromSocket_after_chunks.
  - intros Hs. unfold readDataFromSocket.
    rewrite readLoop_chunks_full by (try assumption; lia).
    cbv zeta. cbn [ro_ret ro_total ro_log ro_buf ro_conn].
    rewrite Z.sub_0_r. simpl Z.to_nat. rewrite Nat.add_0_r.
    repeat split.
    + apply bufSlice_bufWrite; rewrite length_firstn; lia.
    + exists (dropBytes (Z.to_nat n) cs). repeat split.
      * now apply Forall_dropBytes.
      * apply concat_dropBytes.
Qed.

(** C7.  A source that signals end-of-stream when fewer than [n] bytes have
    been delivered (the last of them possibly arriving together with the
    signal) makes the reader return the abrupt-close error, never nil. *)
Theorem readDataFromSocket_abrupt_close
    (n : Z) (cs : list (list byte)) (bs : list byte) (rest : Conn)
    (buf : list byte) (lo hi : nat) (log : list LogMsg) :
  Forall nonEmpty cs ->
  (lo <= hi)%nat -> (hi <= length buf)%nat -> Z.of_nat (hi - lo) = n ->
  Z.of_nat (length (concat cs)) + Z.of_nat (length bs) < n ->
  let r := readDataFromSocket (chunks cs ++ Ev bs (Some EOF) :: rest)
             buf lo hi n log in
  ro_ret r = RetErr ErrAbrupt /\ ro_ret r <> RetNil /\
  ro_log r = log /\ ro_conn r = rest.
Proof.
  intros Hne Hw Hb Hwin Hs. cbv zeta.
  rewrite readDataFromSocket_after_chunks by (try assumption; lia).
  rewrite readLoop_event by lia. cbv zeta.
  cbn [notNil isErr andb negb].
  replace (Z.of_nat (length (concat cs)) =? n) with false
    by (symmetry; apply Z.eqb_neq; lia).
  cbn [negb ro_ret ro_log ro_conn]. repeat split. discriminate.
Qed.

(** ** Channels *)

Lemma trySend_full {A : Type} (ch : Chan A) (x : A) :
  (ch_cap ch <= length (ch_items ch))%nat -> trySend ch x = (false, ch).
Proof.
  intros H. unfold trySend.
  destruct (Nat.ltb_spec (length (ch_items ch)) (ch_cap ch)); [lia | reflexivity].
Qed.

Lemma trySend_room {A : Type} (ch : Chan A) (x : A) :
  (length (ch_items ch) < ch_cap ch)%nat ->
  trySend ch x = (true, mkChan (ch_items ch ++ [x]) (ch_cap ch) (ch_closes ch)).
Proof.
  intros H. unfold trySend.
  destruct (Nat.ltb_spec (length (ch_items ch)) (ch_cap ch)); [reflexivity | lia].
Qed.

Lemma trySend_keeps {A : Type} (ch : Chan A) (x : A) :
  ch_cap (snd (trySend ch x)) = ch_cap ch /\
  ch_closes (snd (trySend ch x)) = ch_closes ch.
Proof.
  unfold trySend.
  destruct (length (ch_items ch) <? ch_cap ch)%nat; simpl; auto.
Qed.

Lemma trySend_bound {A : Type} (ch : Chan A) (x : A) :
  (length (ch_items ch) <= ch_cap ch)%nat ->
  (length (ch_items (snd (trySend ch x))) <= ch_cap ch)%nat.
Proof.
  intros H. unfold trySend.
  destruct (Nat.ltb_spec (length (ch_items ch)) (ch_cap ch)); simpl; [|assumption].
  rewrite length_app. simpl. lia.
Qed.

Lemma recv_bound {A : Type} (ch : Chan A) :
  (length (ch_items ch) <= ch_cap ch)%nat ->
  (length (ch_items (snd (recv ch))) <= ch_cap ch)%nat /\
  ch_cap (snd (recv ch)) = ch_cap ch.
Proof.
  intros H. unfold recv. destruct (ch_items ch) eqn:E; simpl in *.
  - rewrite E. simpl. split; [lia | reflexivity].
  - split; [lia | reflexivity].
Qed.

(** ** Header checks *)

Lemma wrap64_range (z : Z) : - 2 ^ 63 <= wrap64 z < 2 ^ 63.
Proof.
  unfold wrap64.
  pose proof (Z.mod_pos_bound (z + 2 ^ 63) (2 ^ 64) ltac:(lia)). lia.
Qed.

Section ReceiverFacts.

Variable kilobyte : Z.
Variable config : Config.

Local Notation "'maxFrame'" := (maxFrameBytes kilobyte config).

(** The declared length, read off the buffer the way line 85 does. *)
Lemma hdrCheck_cases (buf : list byte) :
  (8 <= length buf)%nat -> 0 <= maxFrame ->
  let declared := le_combine (firstn 4 (skipn 4 buf)) in
  (firstn 4 buf <> hdrData -> hdrCheck kilobyte config buf = HdrIllegal) /\
  (firstn 4 buf = hdrData -> maxFrame - 9 < declared ->
     hdrCheck kilobyte config buf = HdrInvalidLen declared) /\
  (firstn 4 buf = hdrData -> declared <= maxFrame - 9 ->
     hdrCheck kilobyte config buf = HdrOk declared).
Proof.
  intros Hlen Hmax declared. unfold hdrCheck.
  assert (Hs : sliceOK buf 0 (Z.of_nat (length hdrData)) = true).
  { unfold sliceOK. simpl length.
    repeat (apply andb_true_intro; split); apply Z.leb_le; lia. }
  rewrite Hs. cbn [negb].
  change (bufSlice buf 0 (length hdrData)) with (firstn 4 buf).
  change (length hdrData) with 4%nat.
  rewrite Uint32_le_combine by (rewrite length_skipn; lia).
  fold declared.
  assert (Hd : 0 <= declared < 2 ^ 32).
  { pose proof (le_combine_bound (firstn 4 (skipn 4 buf))) as Hb.
    rewrite length_firstn, length_skipn, Nat.min_l in Hb by lia. exact Hb. }
  rewrite int_of_uint32_id by assumption.
  pose proof (wrap64_range (CompressBlockSize config * kilobyte)) as Hr.
  fold maxFrame in Hr.
  rewrite wrap64_small by (rewrite totalHdrLen_eq; lia).
  rewrite totalHdrLen_eq.
  repeat split.
  - intros Hne.
    destruct (Z.eqb_spec (bytesCompare (firstn 4 buf) hdrData) 0) as [E | E];
      [apply bytesCompare_eq in E; contradiction | reflexivity].
  - intros -> Hgt. rewrite bytesCompare_refl. cbn [Z.eqb negb].
    destruct (Z.gtb_spec declared (maxFrame - 9)); [reflexivity | lia].
  - intros -> Hle. rewrite bytesCompare_refl. cbn [Z.eqb negb].
    destruct (Z.gtb_spec declared (maxFrame - 9)); [lia | reflexivity].
Qed.

(** A header that passed both checks declares a length that fits behind the
    header in a buffer of [maxFrame] bytes. *)
Lemma hdrCheck_ok_bounds (buf : list byte) (n : Z) :
  0 <= maxFrame -> hdrCheck kilobyte config buf = HdrOk n ->
  0 <= n < 2 ^ 32 /\ 9 + n <= maxFrame.
Proof.
  intros Hmax. unfold hdrCheck.
  destruct (negb (sliceOK buf 0 (Z.of_nat (length hdrData)))); [discriminate|].
  destruct (negb (_ =? 0)); [discriminate|].
  destruct (Uint32 _) as [v|] eqn:Hu; [|discriminate].
  apply Uint32_range in Hu.
  rewrite int_of_uint32_id by assumption.
  pose proof (wrap64_range (CompressBlockSize config * kilobyte)) as Hr.
  fold maxFrame in Hr.
  rewrite wrap64_small by (rewrite totalHdrLen_eq; lia).
  rewrite totalHdrLen_eq.
  destruct (Z.gtb_spec v (maxFrame - 9)); [discriminate|].
  injection 1 as <-. lia.
Qed.

Lemma hdrCheck_no_panic (buf : list byte) :
  (8 <= length buf)%nat -> hdrCheck kilobyte config buf <> HdrPanic.
Proof.
  intros Hlen. unfold hdrCheck.
  assert (Hs : sliceOK buf 0 (Z.of_nat (length hdrData)) = true).
  { unfold sliceOK. simpl length.
    repeat (apply andb_true_intro; split); apply Z.leb_le; lia. }
  rewrite Hs. cbn [negb].
  rewrite Uint32_le_combine by (rewrite length_skipn; simpl; lia).
  destruct (negb _); [discriminate|].
  destruct (_ >? _); discriminate.
Qed.

End ReceiverFacts.

(** ** One pass of the connection pipeline *)

Lemma sliceOK_intro (buf : list byte) (lo hi : Z) :
  0 <= lo <= hi -> hi <= Z.of_nat (length buf) -> sliceOK buf lo hi = true.
Proof.
  intros H1 H2. unfold sliceOK.
  repeat (apply andb_true_intro; split); apply Z.leb_le; lia.
Qed.

Lemma mkFrame_some (buf : list byte) (n : Z) :
  0 <= n < 2 ^ 32 -> 9 + n <= Z.of_nat (length buf) ->
  mkFrame buf n =
  Some (mkCompressData (bufSlice buf 9 (9 + Z.to_nat n))
                       (negb (byte.unsigned (nth 8 buf Byte.x00) =? 0))).
Proof.
  intros Hn Hb. unfold mkFrame.
  rewrite (int_of_uint32_id n) by assumption.
  change (wrap64 (Z.of_nat (length hdrData) + payloadMarkerLen)) with 8.
  rewrite totalHdrLen_eq.
  rewrite (wrap64_small (n + 9)) by lia.
  rewrite sliceOK_intro by lia.
  assert (Hi : indexOK buf 8 = true).
  { unfold indexOK. apply andb_true_intro; split;
      [apply Z.leb_le | apply Z.ltb_lt]; lia. }
  rewrite Hi. cbn [andb].
  replace (Z.to_nat (n + 9)) with (9 + Z.to_nat n)%nat by lia.
  reflexivity.
Qed.

Section PipelineFacts.

Variable kilobyte : Z.
Variable config : Config.

Local Notation "'maxFrame'" := (maxFrameBytes kilobyte config).
Local Notation "'iter'" := (readPktsIter kilobyte config).
Local Notation "'pass'" := (framePass kilobyte config).

(** After a header read that returned nil, in a buffer of [maxFrame >= 9]
    bytes, a pass takes one of four ways out, decided by the header checks
    and the payload read. *)
Lemma framePass_cases (s : PState) (r : ReadOut) :
  Z.of_nat (length (ro_buf r)) = maxFrame -> 9 <= maxFrame ->
  (hdrCheck kilobyte config (ro_buf r) = HdrIllegal /\
   pass s r = Return (closeAll s (ro_conn r) (ro_buf r)
                        (ro_log r ++ [LogIllegal])))
  \/ (exists n,
      hdrCheck kilobyte config (ro_buf r) = HdrInvalidLen n /\
      pass s r = Return (closeAll s (ro_conn r) (ro_buf r)
                           (ro_log r ++ [LogInvalidLen n])))
  \/ (exists n,
      hdrCheck kilobyte config (ro_buf r) = HdrOk n /\
      0 <= n < 2 ^ 32 /\ 9 + n <= maxFrame /\
      let r2 := payloadRead r n in
      (exists e, ro_ret r2 = RetErr e /\
         pass s r = Return (closeAll s (ro_conn r2) (ro_buf r2)
                              (ro_log r2 ++ [LogReadFail e])))
      \/ (ro_ret r2 = RetNil /\
          pass s r = Continue (publish s (ro_conn r2) (ro_buf r2) (ro_log r2)
                                 (frameOf (ro_buf r2) n) (9 + n)))).
Proof.
  intros Hlen Hmax. unfold framePass.
  pose proof (hdrCheck_no_panic kilobyte config (ro_buf r) ltac:(lia)) as Hnp.
  destruct (hdrCheck kilobyte config (ro_buf r)) as [| n | n |] eqn:Hchk;
    try contradiction.
  - left. split; reflexivity.
  - right. left. exists n. split; reflexivity.
  - right. right. exists n.
    destruct (hdrCheck_ok_bounds kilobyte config _ _ ltac:(lia) Hchk) as [Hn Hfit].
    repeat split; try lia.
    rewrite (int_of_uint32_id n) by assumption.
    rewrite totalHdrLen_eq.
    rewrite (wrap64_small (9 + n)) by lia.
    rewrite sliceOK_intro by lia. cbn [negb].
    change (Z.to_nat 9) with 9%nat.
    replace (Z.to_nat (9 + n)) with (9 + Z.to_nat n)%nat by lia.
    fold (payloadRead r n). cbv zeta.
    assert (Hinv : ReadInv (ro_conn r) (ro_buf r) 9 (9 + Z.to_nat n) n 0
                     (payloadRead r n))
      by (apply readDataFromSocket_inv; lia).
    destruct Hinv as [J1 J2 J3 _ _ _].
    destruct (ro_ret (payloadRead r n)) as [| e | |] eqn:Hret2; try contradiction.
    + right. split; [reflexivity|].
      rewrite mkFrame_some by (try assumption; lia). reflexivity.
    + left. exists e. split; reflexivity.
Qed.

(** The header read decides between the read-failure exit and the rest of
    the pass. *)
Lemma readPktsIter_hdr (s : PState) :
  Z.of_nat (length (dataBuff s)) = maxFrame -> 9 <= maxFrame ->
  let r := hdrRead s in
  Z.of_nat (length (ro_buf r)) = maxFrame /\
  ((exists e, ro_ret r = RetErr e /\
      iter s = Return (closeAll s (ro_conn r) (ro_buf r)
                         (if negb (IsTimeout e)
                          then ro_log r ++ [LogReadFail e] else ro_log r)))
   \/ (ro_ret r = RetNil /\ iter s = pass s r)).
Proof.
  intros Hlen Hmax r.
  assert (Hinv : ReadInv (clientConn s) (dataBuff s) 0 9 9 0 r)
    by (apply readDataFromSocket_inv; lia).
  destruct Hinv as [I1 I2 I3 _ _ _].
  split; [lia|].
  unfold readPktsIter.
  rewrite sliceOK_intro by (rewrite totalHdrLen_eq; lia).
  cbn [negb]. rewrite totalHdrLen_eq.
  change (Z.to_nat 9) with 9%nat. fold (hdrRead s). fold r.
  destruct (ro_ret r) as [| e | |] eqn:Hret; try contradiction.
  - right. split; reflexivity.
  - left. exists e. split; reflexivity.
Qed.

Lemma readPktsIter_hdr_err (s : PState) (e : SockErr) :
  Z.of_nat (length (dataBuff s)) = maxFrame -> 9 <= maxFrame ->
  ro_ret (hdrRead s) = RetErr e ->
  iter s = Return (closeAll s (ro_conn (hdrRead s)) (ro_buf (hdrRead s))
                     (if negb (IsTimeout e)
                      then ro_log (hdrRead s) ++ [LogReadFail e]
                      else ro_log (hdrRead s))).
Proof.
  intros Hlen Hmax Hret.
  destruct (readPktsIter_hdr s Hlen Hmax) as [_ [(e' & He & Hit) | [Hn _]]];
    [| congruence].
  rewrite Hret in He. injection He as <-. exact Hit.
Qed.

Lemma readPktsIter_hdr_nil (s : PState) :
  Z.of_nat (length (dataBuff s)) = maxFrame -> 9 <= maxFrame ->
  ro_ret (hdrRead s) = RetNil -> iter s = pass s (hdrRead s).
Proof.
  intros Hlen Hmax Hret.
  destruct (readPktsIter_hdr s Hlen Hmax) as [_ [(e' & He & _) | [_ Hit]]];
    [congruence | exact Hit].
Qed.

Lemma framePass_illegal (s : PState) (r : ReadOut) :
  Z.of_nat (length (ro_buf r)) = maxFrame -> 9 <= maxFrame ->
  hdrCheck kilobyte config (ro_buf r) = HdrIllegal ->
  pass s r = Return (closeAll s (ro_conn r) (ro_buf r) (ro_log r ++ [LogIllegal])).
Proof.
  intros Hlen Hmax Hc.
  destruct (framePass_cases s r Hlen Hmax)
    as [[_ H] | [(n & Hc' & _) | (n & Hc' & _)]]; [exact H | congruence ..].
Qed.

Lemma framePass_invalid (s : PState) (r : ReadOut) (n : Z) :
  Z.of_nat (length (ro_buf r)) = maxFrame -> 9 <= maxFrame ->
  hdrCheck kilobyte config (ro_buf r) = HdrInvalidLen n ->
  pass s r = Return (closeAll s (ro_conn r) (ro_buf r)
                       (ro_log r ++ [LogInvalidLen n])).
Proof.
  intros Hlen Hmax Hc.
  destruct (framePass_cases s r Hlen Hmax)
    as [[Hc' _] | [(n' & Hc' & H) | (n' & Hc' & _)]]; congruence.
Qed.

Lemma framePass_payload_err (s : PState) (r : ReadOut) (n : Z) (e : SockErr) :
  Z.of_nat (length (ro_buf r)) = maxFrame -> 9 <= maxFrame ->
  hdrCheck kilobyte config (ro_buf r) = HdrOk n ->
  ro_ret (payloadRead r n) = RetErr e ->
  pass s r = Return (closeAll s (ro_conn (payloadRead r n))
                       (ro_buf (payloadRead r n))
                       (ro_log (payloadRead r n) ++ [LogReadFail e])).
Proof.
  intros Hlen Hmax Hc Hret.
  destruct (framePass_cases s r Hlen Hmax)
    as [[Hc' _] | [(n' & Hc' & _) | (n' & Hc' & _ & _ & H)]]; try congruence.
  rewrite Hc in Hc'. injection Hc' as <-. cbv zeta in H.
  destruct H as [(e' & He & H) | [Hn _]]; [| congruence].
  rewrite Hret in He. injection He as <-. exact H.
Qed.

Lemma framePass_ok (s : PState) (r : ReadOut) (n : Z) :
  Z.of_nat (length (ro_buf r)) = maxFrame -> 9 <= maxFrame ->
  hdrCheck kilobyte config (ro_buf r) = HdrOk n ->
  ro_ret (payloadRead r n) = RetNil ->
  pass s r = Continue (publish s (ro_conn (payloadRead r n))
                         (ro_buf (payloadRead r n)) (ro_log (payloadRead r n))
                         (frameOf (ro_buf (payloadRead r n)) n) (9 + n)).
Proof.
  intros Hlen Hmax Hc Hret.
  destruct (framePass_cases s r Hlen Hmax)
    as [[Hc' _] | [(n' & Hc' & _) | (n' & Hc' & _ & _ & H)]]; try congruence.
  rewrite Hc in Hc'. injection Hc' as <-. cbv zeta in H.
  destruct H as [(e' & He & _) | [_ H]]; [congruence | exact H].
Qed.

End PipelineFacts.

(** ** What a pass changes *)

Lemma publish_fields (s : PState) c buf log fr size :
  let s' := publish s c buf log fr size in
  clientConn s' = c /\ dataBuff s' = buf /\ connCloses s' = connCloses s /\
  pktUncompressChannel s' = snd (trySend (pktUncompressChannel s) fr) /\
  sizeChannel s' = snd (trySend (sizeChannel s) size).
Proof.
  unfold publish.
  destruct (trySend (pktUncompressChannel s) fr) as [b1 q1].
  destruct (trySend (sizeChannel s) size) as [b2 q2].
  cbn. repeat split.
Qed.

Section PipelineRuns.

Variable kilobyte : Z.
Variable config : Config.

Local Notation "'maxFrame'" := (maxFrameBytes kilobyte config).
Local Notation "'iter'" := (readPktsIter kilobyte config).

(** A pass that goes round again has closed nothing and has consumed part of
    the connection's script; a pass that returns has closed the connection
    and the frame queue, once each, and not the size queue. *)
Lemma readPktsIter_effect (s : PState) :
  Z.of_nat (length (dataBuff s)) = maxFrame -> 9 <= maxFrame ->
  match iter s with
  | Continue s' =>
      Z.of_nat (length (dataBuff s')) = maxFrame /\
      (connMeasure (clientConn s') < connMeasure (clientConn s))%nat /\
      connCloses s' = connCloses s /\
      ch_closes (pktUncompressChannel s') = ch_closes (pktUncompressChannel s) /\
      ch_closes (sizeChannel s') = ch_closes (sizeChannel s)
  | Return s' =>
      connCloses s' = S (connCloses s) /\
      ch_closes (pktUncompressChannel s') = S (ch_closes (pktUncompressChannel s)) /\
      ch_closes (sizeChannel s') = ch_closes (sizeChannel s)
  | Panic | Spin => False
  end.
Proof.
  intros Hlen Hmax.
  destruct (readPktsIter_hdr kilobyte config s Hlen Hmax)
    as [Hlen1 [(e & _ & ->) | [Hnil ->]]]; [cbn; auto|].
  assert (Hinv : ReadInv (clientConn s) (dataBuff s) 0 9 9 0 (hdrRead s))
    by (apply readDataFromSocket_inv; lia).
  destruct (framePass_cases kilobyte config s (hdrRead s) Hlen1 Hmax)
    as [[_ ->] | [(n & _ & ->) | (n & _ & Hn & Hfit & H)]]; [cbn; auto ..|].
  cbv zeta in H.
  destruct H as [(e & _ & ->) | [_ ->]]; [cbn; auto|].
  assert (Hinv2 : ReadInv (ro_conn (hdrRead s)) (ro_buf (hdrRead s))
                    9 (9 + Z.to_nat n) n 0 (payloadRead (hdrRead s) n))
    by (apply readDataFromSocket_inv; lia).
  match goal with
  | |- context [publish ?a ?b ?c ?d ?e ?f] =>
      destruct (publish_fields a b c d e f) as (P1 & P2 & P3 & P4 & P5)
  end.
  rewrite P1, P2, P3, P4, P5.
  pose proof (ri_length _ _ _ _ _ _ _ Hinv2) as L2.
  pose proof (ri_measure _ _ _ _ _ _ _ Hinv2) as M2.
  pose proof (ri_progress _ _ _ _ _ _ _ Hinv Hnil ltac:(simpl; lia) ltac:(lia)) as M1.
  repeat split; try lia; apply trySend_keeps.
Qed.

Lemma readPktsLoop_returns (fuel : nat) :
  forall s : PState,
    Z.of_nat (length (dataBuff s)) = maxFrame -> 9 <= maxFrame ->
    (connMeasure (clientConn s) < fuel)%nat ->
    exists s', readPktsLoop kilobyte fuel config s = Return s' /\
      connCloses s' = S (connCloses s) /\
      ch_closes (pktUncompressChannel s') = S (ch_closes (pktUncompressChannel s)) /\
      ch_closes (sizeChannel s') = ch_closes (sizeChannel s).
Proof.
  induction fuel as [|fuel IH]; intros s Hlen Hmax Hf; [lia|].
  cbn [readPktsLoop].
  pose proof (readPktsIter_effect s Hlen Hmax) as He.
  destruct (iter s) as [s1 | s1 | |]; try contradiction.
  - destruct He as (L & M & C1 & C2 & C3).
    destruct (IH s1 L Hmax ltac:(lia)) as (s' & R & D1 & D2 & D3).
    exists s'. rewrite R. repeat split; congruence.
  - exists s1. split; [reflexivity | exact He].
Qed.

Lemma makeBuf_length (n : Z) (buf : list byte) :
  makeBuf n = Some buf -> Z.of_nat (length buf) = n.
Proof.
  unfold makeBuf. destruct (Z.ltb_spec n 0); [discriminate|].
  injection 1 as <-. rewrite repeat_length. lia.
Qed.

End PipelineRuns.

(** C9.  With a buffer that can hold a header ([maxFrameBytes >= 9]):
    a pass of the read loop that goes round again closes neither the
    transport handle nor the frame queue; a pass that leaves the loop
    (read failure, magic mismatch, oversize length, payload read failure)
    closes each of them exactly once; and every run of [readPkts] ends by
    such a pass, so that at its return the handle has been closed once and
    the frame queue once. *)
Theorem readPkts_closes_exactly_once (kilobyte : Z) (config : Config) :
  9 <= maxFrameBytes kilobyte config ->
  (forall s s',
     Z.of_nat (length (dataBuff s)) = maxFrameBytes kilobyte config ->
     readPktsIter kilobyte config s = Continue s' ->
     connCloses s' = connCloses s /\
     ch_closes (pktUncompressChannel s') = ch_closes (pktUncompressChannel s))
  /\
  (forall s s',
     Z.of_nat (length (dataBuff s)) = maxFrameBytes kilobyte config ->
     readPktsIter kilobyte config s = Return s' ->
     connCloses s' = S (connCloses s) /\
     ch_closes (pktUncompressChannel s') = S (ch_closes (pktUncompressChannel s)))
  /\
  (forall clientConn0 q sz,
     exists s', readPkts kilobyte clientConn0 config q sz = Return s' /\
       connCloses s' = 1%nat /\
       ch_closes (pktUncompressChannel s') = S (ch_closes q)).
Proof.
  intros Hmax. split; [|split].
  - intros s s' Hlen Hit.
    pose proof (readPktsIter_effect kilobyte config s Hlen Hmax) as He.
    rewrite Hit in He. tauto.
  - intros s s' Hlen Hit.
    pose proof (readPktsIter_effect kilobyte config s Hlen Hmax) as He.
    rewrite Hit in He. tauto.
  - intros c q sz. unfold readPkts.
    destruct (makeBuf (maxFrameBytes kilobyte config)) as [buf|] eqn:Hb.
    + apply makeBuf_length in Hb.
      destruct (readPktsLoop_returns kilobyte config (S (connMeasure c))
                  (mkPState c 0 buf q sz []) Hb Hmax ltac:(simpl; lia))
        as (s' & R & D1 & D2 & _).
      exists s'. repeat split; assumption.
    + unfold makeBuf in Hb.
      destruct (Z.ltb_spec (maxFrameBytes kilobyte config) 0); [lia | discriminate].
Qed.

(** C10.  In a pass over a buffer of [maxFrameBytes] bytes (the size line 65
    allocates), once the header has passed the length check with declared
    length [n], so that [n <= maxFrameBytes - 9]: the header slice
    [dataBuff[0:9]], the payload slice [dataBuff[9:9+n]] taken for the read
    and again for the frame, and the flag byte [dataBuff[8]] all satisfy the
    bounds rule of the buffer, and the pass does not panic. *)
Theorem readPkts_slices_in_bounds (kilobyte : Z) (config : Config)
    (s : PState) (n : Z) :
  Z.of_nat (length (dataBuff s)) = maxFrameBytes kilobyte config ->
  hdrCheck kilobyte config (ro_buf (hdrRead s)) = HdrOk n ->
  let r := hdrRead s in
  let r2 := payloadRead r n in
  0 <= n <= maxFrameBytes kilobyte config - 9 /\
  sliceOK (dataBuff s) 0 totalHdrLen = true /\
  sliceOK (ro_buf r) totalHdrLen (wrap64 (totalHdrLen + int_of_uint32 n)) = true /\
  sliceOK (ro_buf r2) totalHdrLen (wrap64 (int_of_uint32 n + totalHdrLen)) = true /\
  indexOK (ro_buf r2) (wrap64 (Z.of_nat (length hdrData) + payloadMarkerLen)) = true /\
  wrap64 (totalHdrLen + int_of_uint32 n) <= Z.of_nat (length (dataBuff s)) /\
  readPktsIter kilobyte config s <> Panic.
Proof.
  intros Hlen Hchk r r2.
  destruct (hdrCheck_ok_bounds kilobyte config _ _ ltac:(lia) Hchk) as [Hn Hfit].
  assert (Hmax : 9 <= maxFrameBytes kilobyte config) by lia.
  assert (Hinv : ReadInv (clientConn s) (dataBuff s) 0 9 9 0 r)
    by (apply readDataFromSocket_inv; lia).
  pose proof (ri_length _ _ _ _ _ _ _ Hinv) as L1.
  assert (Hinv2 : ReadInv (ro_conn r) (ro_buf r) 9 (9 + Z.to_nat n) n 0 r2)
    by (apply readDataFromSocket_inv; lia).
  pose proof (ri_length _ _ _ _ _ _ _ Hinv2) as L2.
  rewrite (int_of_uint32_id n) by assumption.
  rewrite totalHdrLen_eq.
  rewrite (wrap64_small (9 + n)), (wrap64_small (n + 9)) by lia.
  change (wrap64 (Z.of_nat (length hdrData) + payloadMarkerLen)) with 8.
  repeat split; try lia; try (apply sliceOK_intro; lia).
  - unfold indexOK. apply andb_true_intro; split;
      [apply Z.leb_le | apply Z.ltb_lt]; lia.
  - pose proof (readPktsIter_effect kilobyte config s Hlen Hmax) as He.
    intros E. rewrite E in He. exact He.
Qed.

Lemma header_fields (h tail : list byte) :
  length h = 9%nat ->
  firstn 4 (h ++ tail) = firstn 4 h /\
  firstn 4 (skipn 4 (h ++ tail)) = firstn 4 (skipn 4 h) /\
  nth 8 (h ++ tail) Byte.x00 = nth 8 h Byte.x00.
Proof.
  intros Hh. repeat split.
  - rewrite firstn_app, Hh. simpl (4 - 9)%nat. now rewrite firstn_O, app_nil_r.
  - rewrite skipn_app, Hh. simpl (4 - 9)%nat. rewrite skipn_O.
    rewrite firstn_app, length_skipn, Hh. simpl (4 - (9 - 4))%nat.
    now rewrite firstn_O, app_nil_r.
  - apply app_nth1. lia.
Qed.

(** C2.  Let the header read of a pass have returned nil, leaving the nine
    bytes [h] at the front of the buffer.
    - If the first four bytes of [h] are not the magic, the header is
      rejected whatever the other five bytes are: the pass logs the
      violation, closes the connection and the frame queue and returns, the
      connection's script being exactly as the header read left it (no
      payload read was made).
    - If they are the magic and the little-endian length in bytes 4..7
      exceeds [maxFrameBytes - 9], the header is rejected in the same way.
    - Otherwise the header is accepted with that length; the payload read is
      made for exactly that many bytes and the frame's flag is "byte 8 of
      [h] is non-zero". *)
Theorem header_validation (kilobyte : Z) (config : Config) (s : PState)
    (h tail : list byte) :
  Z.of_nat (length (dataBuff s)) = maxFrameBytes kilobyte config ->
  9 <= maxFrameBytes kilobyte config ->
  ro_ret (hdrRead s) = RetNil ->
  ro_buf (hdrRead s) = h ++ tail -> length h = 9%nat ->
  let r := hdrRead s in
  let declared := le_combine (firstn 4 (skipn 4 h)) in
  (firstn 4 h <> hdrData ->
     hdrCheck kilobyte config (ro_buf r) = HdrIllegal /\
     readPktsIter kilobyte config s =
       Return (closeAll s (ro_conn r) (ro_buf r) (ro_log r ++ [LogIllegal])))
  /\
  (firstn 4 h = hdrData -> maxFrameBytes kilobyte config - 9 < declared ->
     hdrCheck kilobyte config (ro_buf r) = HdrInvalidLen declared /\
     readPktsIter kilobyte config s =
       Return (closeAll s (ro_conn r) (ro_buf r)
                 (ro_log r ++ [LogInvalidLen declared])))
  /\
  (firstn 4 h = hdrData -> declared <= maxFrameBytes kilobyte config - 9 ->
     hdrCheck kilobyte config (ro_buf r) = HdrOk declared /\
     let r2 := payloadRead r declared in
     IsCompressed (frameOf (ro_buf r2) declared)
       = negb (byte.unsigned (nth 8 h Byte.x00) =? 0) /\
     ((exists e, ro_ret r2 = RetErr e /\
         readPktsIter kilobyte config s =
           Return (closeAll s (ro_conn r2) (ro_buf r2)
                     (ro_log r2 ++ [LogReadFail e])))
      \/ (ro_ret r2 = RetNil /\
          readPktsIter kilobyte config s =
            Continue (publish s (ro_conn r2) (ro_buf r2) (ro_log r2)
                        (frameOf (ro_buf r2) declared) (9 + declared))))).
Proof.
  intros Hlen Hmax Hnil Hbuf Hh r declared.
  destruct (readPktsIter_hdr kilobyte config s Hlen Hmax) as [Hlen1 _].
  pose proof (readPktsIter_hdr_nil kilobyte config s Hlen Hmax Hnil) as Hit.
  fold r in Hlen1, Hit |- *.
  assert (Hbuf' : ro_buf r = h ++ tail) by exact Hbuf.
  destruct (header_fields h tail Hh) as (F1 & F2 & F3).
  destruct (hdrCheck_cases kilobyte config (ro_buf r)) as (A & B & C);
    [lia | lia |].
  cbv zeta in A, B, C.
  rewrite Hbuf' in A, B, C. rewrite F1 in A, B, C. rewrite F2 in B, C.
  fold declared in B, C. rewrite <- Hbuf' in A, B, C.
  split; [|split].
  - intros Hne. split; [now apply A|].
    rewrite Hit. apply framePass_illegal; auto.
  - intros Heq Hgt. split; [now apply B|].
    rewrite Hit. apply framePass_invalid; auto.
  - intros Heq Hle. pose proof (C Heq Hle) as Hok.
    split; [exact Hok|]. cbv zeta.
    destruct (framePass_cases kilobyte config s r Hlen1 Hmax)
      as [[Hc' _] | [(n' & Hc' & _) | (n' & Hc' & Hn & Hfit & H)]];
      try congruence.
    rewrite Hok in Hc'. injection Hc' as <-. cbv zeta in H.
    split.
    + assert (Hinv2 : ReadInv (ro_conn r) (ro_buf r) 9 (9 + Z.to_nat declared)
                        declared 0 (payloadRead r declared))
        by (apply readDataFromSocket_inv; lia).
      unfold frameOf. cbn [IsCompressed].
      rewrite (ri_outside _ _ _ _ _ _ _ Hinv2) by (left; lia).
      now rewrite Hbuf', F3.
    + rewrite Hit. exact H.
Qed.

(** ** A frame on the wire *)

Lemma readDataFromSocket_chunks cs rest buf lo hi n log :
  1 <= n -> Forall nonEmpty cs ->
  (lo <= hi)%nat -> (hi <= length buf)%nat -> Z.of_nat (hi - lo) = n ->
  n <= Z.of_nat (length (concat cs)) ->
  readDataFromSocket (chunks cs ++ rest) buf lo hi n log =
  mkReadOut RetNil (chunks (dropBytes (Z.to_nat n) cs) ++ rest)
            (bufWrite buf lo (firstn (Z.to_nat n) (concat cs))) log n.
Proof.
  intros Hn Hne Hw Hb Hwin Hs. unfold readDataFromSocket.
  rewrite readLoop_chunks_full by (try assumption; lia).
  rewrite Z.sub_0_r. simpl Z.to_nat. now rewrite Nat.add_0_r.
Qed.

(** A read for zero bytes into an empty window. *)
Lemma readDataFromSocket_empty_window c buf lo log :
  readDataFromSocket c buf lo lo 0 log =
  mkReadOut RetNil c buf (log ++ [LogZeroNoErr]) 0.
Proof.
  unfold readDataFromSocket. rewrite Nat.sub_diag.
  rewrite readLoop_in_window by (simpl; lia).
  cbv zeta. simpl Z.to_nat. rewrite Nat.add_0_r, Nat.sub_diag.
  cbn [connRead]. cbn. now rewrite bufWrite_nil.
Qed.

Lemma encodeFrame_parts (f : byte) (P : list byte) :
  let h := hdrData ++ le_split 4 (Z.of_nat (length P)) ++ [f] in
  encodeFrame f P = h ++ P /\ length h = 9%nat /\
  firstn 4 h = hdrData /\
  firstn 4 (skipn 4 h) = le_split 4 (Z.of_nat (length P)) /\
  nth 8 h Byte.x00 = f.
Proof.
  unfold encodeFrame, le_split, hdrData. cbn [app firstn skipn nth length].
  repeat split.
Qed.

(** C1.  A payload [P] of at most [maxFrameBytes - 9] bytes (and short
    enough for a four-byte length) and a flag byte [f], put on the wire as
    magic, little-endian length, flag, payload, and delivered in non-empty
    chunks of any sizes: the pass that reads it accepts the header with
    declared length [length P], builds the frame with payload exactly [P]
    and [IsCompressed] true iff [f] is non-zero, offers that frame to the
    frame queue and [9 + length P] to the size queue, closes nothing, and
    leaves the connection at the first byte after the frame. *)
Theorem frame_round_trip (kilobyte : Z) (config : Config) (s : PState)
    (f : byte) (P : list byte) (cs : list (list byte)) (rest : Conn) :
  Z.of_nat (length (dataBuff s)) = maxFrameBytes kilobyte config ->
  Z.of_nat (length P) <= maxFrameBytes kilobyte config - 9 ->
  Z.of_nat (length P) < 2 ^ 32 ->
  Forall nonEmpty cs -> concat cs = encodeFrame f P ->
  clientConn s = chunks cs ++ rest ->
  let frame := mkCompressData P (negb (byte.unsigned f =? 0)) in
  exists s',
    readPktsIter kilobyte config s = Continue s' /\
    hdrCheck kilobyte config (ro_buf (hdrRead s))
      = HdrOk (Z.of_nat (length P)) /\
    frameOf (dataBuff s') (Z.of_nat (length P)) = frame /\
    pktUncompressChannel s' = snd (trySend (pktUncompressChannel s) frame) /\
    sizeChannel s' =
      snd (trySend (sizeChannel s) (9 + Z.of_nat (length P))) /\
    clientConn s' = rest /\
    connCloses s' = connCloses s /\
    dataBuff s' = bufWrite (dataBuff s) 0 (encodeFrame f P).
Proof.
  intros Hlen HP H32 Hne Hcat Hconn frame.
  set (L := Z.of_nat (length P)) in *.
  assert (Hmax : 9 <= maxFrameBytes kilobyte config) by lia.
  destruct (encodeFrame_parts f P) as (Henc & Hh & Hmagic & Hlenf & Hflag).
  cbv zeta in Henc, Hh, Hmagic, Hlenf, Hflag. fold L in Henc, Hh, Hmagic, Hlenf, Hflag.
  set (h := hdrData ++ le_split 4 L ++ [f]) in *.
  (* the header read *)
  assert (Hr : hdrRead s =
               mkReadOut RetNil (chunks (dropBytes 9 cs) ++ rest)
                         (bufWrite (dataBuff s) 0 h) (logs s) 9).
  { unfold hdrRead. rewrite Hconn.
    rewrite readDataFromSocket_chunks;
      try assumption; try lia;
      [| rewrite Hcat, Henc, length_app; lia].
    change (Z.to_nat 9) with 9%nat.
    rewrite Hcat, Henc.
    now rewrite (List.firstn_app_l h P 9 (eq_sym Hh)). }
  set (cs1 := dropBytes 9 cs) in *.
  assert (Hne1 : Forall nonEmpty cs1) by now apply Forall_dropBytes.
  assert (Hcat1 : concat cs1 = P).
  { unfold cs1. rewrite concat_dropBytes, Hcat, Henc.
    now rewrite (List.skipn_app_r h P 9 (eq_sym Hh)). }
  set (buf1 := bufWrite (dataBuff s) 0 h) in *.
  assert (Hbuf1 : buf1 = h ++ skipn 9 (dataBuff s)).
  { unfold buf1, bufWrite. now rewrite Hh. }
  assert (Hlen1 : length buf1 = length (dataBuff s))
    by (apply length_bufWrite; lia).
  (* the header checks *)
  assert (Hchk : hdrCheck kilobyte config buf1 = HdrOk L).
  { destruct (header_fields h (skipn 9 (dataBuff s)) Hh) as (F1 & F2 & _).
    destruct (hdrCheck_cases kilobyte config buf1) as (_ & _ & C); [lia | lia |].
    cbv zeta in C. rewrite Hbuf1, F1, F2, Hlenf in C.
    rewrite le_combine_split in C.
    change (Z.of_nat 4 * 8) with 32 in C.
    rewrite Z.mod_small in C by lia.
    apply C; [exact Hmagic | exact HP]. }
  (* the payload read *)
  assert (Hr2 : exists extra,
             payloadRead (hdrRead s) L =
             mkReadOut RetNil rest (bufWrite buf1 9 P) (logs s ++ extra) L).
  { rewrite Hr. unfold payloadRead. cbn [ro_conn ro_buf ro_log].
    replace (Z.to_nat L) with (length P) by lia.
    destruct (Nat.eq_dec (length P) 0) as [E0 | E0].
    - exists [LogZeroNoErr].
      assert (HL0 : L = 0) by (unfold L; rewrite E0; reflexivity).
      apply length_zero_iff_nil in E0.
      rewrite E0 in Hcat1.
      rewrite (nonEmpty_concat_nil cs1 Hne1 Hcat1), E0, HL0.
      cbn [length chunks map app]. rewrite Nat.add_0_r.
      rewrite readDataFromSocket_empty_window.
      now rewrite bufWrite_nil.
    - exists [].
      rewrite readDataFromSocket_chunks; try assumption; try lia;
        [| rewrite Hcat1; lia].
      replace (Z.to_nat L) with (length P) by lia.
      rewrite Hcat1, firstn_all, app_nil_r.
      assert (Hnil : dropBytes (length P) cs1 = []).
      { apply nonEmpty_concat_nil; [now apply Forall_dropBytes|].
        now rewrite concat_dropBytes, Hcat1, skipn_all. }
      rewrite Hnil. reflexivity. }
  destruct Hr2 as (extra & Hr2).
  (* the frame *)
  assert (Hframe : frameOf (bufWrite buf1 9 P) L = frame).
  { unfold frameOf, frame.
    replace (Z.to_nat L) with (length P) by lia.
    rewrite bufSlice_bufWrite by lia.
    rewrite nth_bufWrite_outside by lia.
    rewrite Hbuf1, app_nth1 by lia. now rewrite Hflag. }
  assert (Hnil : ro_ret (hdrRead s) = RetNil) by now rewrite Hr.
  assert (Hlenr : Z.of_nat (length (ro_buf (hdrRead s)))
                  = maxFrameBytes kilobyte config)
    by (rewrite Hr; cbn [ro_buf]; lia).
  assert (Hchk' : hdrCheck kilobyte config (ro_buf (hdrRead s)) = HdrOk L)
    by now rewrite Hr.
  assert (Hnil2 : ro_ret (payloadRead (hdrRead s) L) = RetNil) by now rewrite Hr2.
  pose proof (framePass_ok kilobyte config s (hdrRead s) L Hlenr Hmax Hchk' Hnil2)
    as Hpass.
  rewrite Hr2 in Hpass. cbn [ro_conn ro_buf ro_log] in Hpass.
  rewrite Hframe in Hpass.
  eexists. split.
  { rewrite (readPktsIter_hdr_nil kilobyte config s Hlen Hmax Hnil). exact Hpass. }
  match goal with
  | |- context [publish ?a ?b ?c ?d ?e ?g] =>
      destruct (publish_fields a b c d e g) as (P1 & P2 & P3 & P4 & P5)
  end.
  rewrite P1, P2, P3, P4, P5.
  repeat split; try assumption.
  unfold buf1. rewrite Henc.
  change 9%nat with (0 + 9)%nat at 1. rewrite <- Hh.
  apply bufWrite_app. simpl. lia.
Qed.

(** ** Timeouts and empty reads *)

Lemma readDataFromSocket_timeout cs bs rest buf lo hi n log :
  Forall nonEmpty cs ->
  (lo <= hi)%nat -> (hi <= length buf)%nat -> Z.of_nat (hi - lo) = n ->
  Z.of_nat (length (concat cs)) + Z.of_nat (length bs) < n ->
  readDataFromSocket (chunks cs ++ Ev bs (Some Timeout) :: rest) buf lo hi n log =
  mkReadOut (RetErr ErrTimeout) rest (bufWrite buf lo (concat cs ++ bs)) log
            (Z.of_nat (length (concat cs))).
Proof.
  intros Hne Hw Hb Hwin Hs.
  rewrite readDataFromSocket_after_chunks by (try assumption; lia).
  rewrite readLoop_event by lia. cbv zeta.
  cbn [notNil isErr andb negb].
  replace (Z.of_nat (length (concat cs)) =? n) with false
    by (symmetry; apply Z.eqb_neq; lia).
  cbn [negb]. rewrite Nat2Z.id, bufWrite_app by lia. reflexivity.
Qed.

(** The peer goes idle: the script ends before the count is reached. *)
Lemma readDataFromSocket_idle cs buf lo hi n log :
  Forall nonEmpty cs ->
  (lo <= hi)%nat -> (hi <= length buf)%nat -> Z.of_nat (hi - lo) = n ->
  Z.of_nat (length (concat cs)) < n ->
  readDataFromSocket (chunks cs) buf lo hi n log =
  mkReadOut (RetErr ErrTimeout) [] (bufWrite buf lo (concat cs)) log
            (Z.of_nat (length (concat cs))).
Proof.
  intros Hne Hw Hb Hwin Hs.
  rewrite <- (app_nil_r (chunks cs)).
  rewrite readDataFromSocket_after_chunks by (try assumption; lia).
  rewrite readLoop_in_window by lia. cbv zeta.
  destruct (hi - (lo + Z.to_nat (Z.of_nat (length (concat cs)))))%nat
    as [|k] eqn:Hk; [lia|].
  cbn [connRead notNil isErr andb negb].
  replace (Z.of_nat (length (concat cs)) =? n) with false
    by (symmetry; apply Z.eqb_neq; lia).
  cbn [negb]. now rewrite bufWrite_nil.
Qed.

Lemma readDataFromSocket_zero_read cs rest buf lo hi n log :
  Forall nonEmpty cs ->
  (lo <= hi)%nat -> (hi <= length buf)%nat -> Z.of_nat (hi - lo) = n ->
  Z.of_nat (length (concat cs)) < n ->
  readDataFromSocket (chunks cs ++ Ev [] None :: rest) buf lo hi n log =
  mkReadOut RetNil rest (bufWrite buf lo (concat cs)) (log ++ [LogZeroNoErr])
            (Z.of_nat (length (concat cs))).
Proof.
  intros Hne Hw Hb Hwin Hs.
  rewrite readDataFromSocket_after_chunks by (try assumption; lia).
  rewrite readLoop_event by (simpl; lia). cbv zeta.
  cbn. now rewrite bufWrite_nil.
Qed.

(** C3, as the code has it.  When the read deadline expires during the
    header read before nine bytes have accumulated -- whether none or some
    have -- the pass logs nothing, closes the connection and the frame queue
    and returns: the read is not retried.  This holds when the expiry is an
    event of the script (first part) and when the peer has simply gone idle
    (second part).  A deadline that expires during the payload read ends the
    connection in the same way and is logged as a read failure (third
    part). *)
Theorem header_timeout_is_terminal (kilobyte : Z) (config : Config)
    (s : PState) (cs : list (list byte)) (bs : list byte) (rest : Conn) (n : Z) :
  Z.of_nat (length (dataBuff s)) = maxFrameBytes kilobyte config ->
  9 <= maxFrameBytes kilobyte config ->
  Forall nonEmpty cs ->
  Z.of_nat (length (concat cs)) + Z.of_nat (length bs) < 9 ->
  (clientConn s = chunks cs ++ Ev bs (Some Timeout) :: rest ->
     readPktsIter kilobyte config s =
       Return (closeAll s rest (bufWrite (dataBuff s) 0 (concat cs ++ bs))
                        (logs s)))
  /\
  (clientConn s = chunks cs ->
     readPktsIter kilobyte config s =
       Return (closeAll s [] (bufWrite (dataBuff s) 0 (concat cs)) (logs s)))
  /\
  (ro_ret (hdrRead s) = RetNil ->
   hdrCheck kilobyte config (ro_buf (hdrRead s)) = HdrOk n ->
   ro_ret (payloadRead (hdrRead s) n) = RetErr ErrTimeout ->
     readPktsIter kilobyte config s =
       Return (closeAll s (ro_conn (payloadRead (hdrRead s) n))
                        (ro_buf (payloadRead (hdrRead s) n))
                        (ro_log (payloadRead (hdrRead s) n)
                           ++ [LogReadFail ErrTimeout]))).
Proof.
  intros Hlen Hmax Hne Hs. split; [|split].
  - intros Hconn.
    assert (Hr : hdrRead s = mkReadOut (RetErr ErrTimeout) rest
                   (bufWrite (dataBuff s) 0 (concat cs ++ bs)) (logs s)
                   (Z.of_nat (length (concat cs)))).
    { unfold hdrRead. rewrite Hconn.
      apply readDataFromSocket_timeout; try assumption; lia. }
    rewrite (readPktsIter_hdr_err kilobyte config s ErrTimeout Hlen Hmax)
      by now rewrite Hr.
    rewrite Hr. reflexivity.
  - intros Hconn.
    assert (Hr : hdrRead s = mkReadOut (RetErr ErrTimeout) []
                   (bufWrite (dataBuff s) 0 (concat cs)) (logs s)
                   (Z.of_nat (length (concat cs)))).
    { unfold hdrRead. rewrite Hconn.
      apply readDataFromSocket_idle; try assumption; lia. }
    rewrite (readPktsIter_hdr_err kilobyte config s ErrTimeout Hlen Hmax)
      by now rewrite Hr.
    rewrite Hr. reflexivity.
  - intros Hnil Hchk Hret2.
    destruct (readPktsIter_hdr kilobyte config s Hlen Hmax) as [Hlen1 _].
    rewrite (readPktsIter_hdr_nil kilobyte config s Hlen Hmax Hnil).
    now apply framePass_payload_err.
Qed.

(** C5, as the code has it.  In a pass whose header read meets a read of
    zero bytes and no error before nine bytes have accumulated, the reader
    logs the event and returns nil, having stored only what arrived before
    (first part); the pass then does what it does after every header read
    that returned nil: it goes on with the header checks on the buffer as it
    stands, and no read failure is logged (second part).  The reader does the
    same for any window and count (third part). *)
Theorem zero_read_returns_nil (kilobyte : Z) (config : Config) (s : PState)
    (cs : list (list byte)) (rest : Conn) :
  Z.of_nat (length (dataBuff s)) = maxFrameBytes kilobyte config ->
  9 <= maxFrameBytes kilobyte config ->
  Forall nonEmpty cs ->
  Z.of_nat (length (concat cs)) < 9 ->
  clientConn s = chunks cs ++ Ev [] None :: rest ->
  hdrRead s =
    mkReadOut RetNil rest (bufWrite (dataBuff s) 0 (concat cs))
              (logs s ++ [LogZeroNoErr]) (Z.of_nat (length (concat cs)))
  /\
  readPktsIter kilobyte config s = framePass kilobyte config s (hdrRead s)
  /\
  (forall buf lo hi n log,
     (lo <= hi)%nat -> (hi <= length buf)%nat -> Z.of_nat (hi - lo) = n ->
     Z.of_nat (length (concat cs)) < n ->
     readDataFromSocket (chunks cs ++ Ev [] None :: rest) buf lo hi n log =
       mkReadOut RetNil rest (bufWrite buf lo (concat cs))
                 (log ++ [LogZeroNoErr]) (Z.of_nat (length (concat cs)))).
Proof.
  intros Hlen Hmax Hne Hs Hconn.
  assert (Hr : hdrRead s =
               mkReadOut RetNil rest (bufWrite (dataBuff s) 0 (concat cs))
                         (logs s ++ [LogZeroNoErr])
                         (Z.of_nat (length (concat cs)))).
  { unfold hdrRead. rewrite Hconn.
    apply readDataFromSocket_zero_read; try assumption; lia. }
  split; [exact Hr|]. split.
  - apply readPktsIter_hdr_nil; try assumption. now rewrite Hr.
  - intros buf lo hi n log Hw Hb Hwin Hn.
    now apply readDataFromSocket_zero_read.
Qed.

(** ** Bounded queues *)

Lemma publish_logs (s : PState) c buf log fr size :
  let s' := publish s c buf log fr size in
  (fst (trySend (pktUncompressChannel s) fr) = false ->
     In LogUncompressFull (logs s')) /\
  (fst (trySend (sizeChannel s) size) = false -> In LogSizeFull (logs s')).
Proof.
  unfold publish.
  destruct (trySend (pktUncompressChannel s) fr) as [b1 q1].
  destruct (trySend (sizeChannel s) size) as [b2 q2].
  cbn. split; intros ->.
  - destruct b2; rewrite ?in_app_iff; cbn; auto.
  - rewrite in_app_iff. cbn. auto.
Qed.

(** A pass that goes round again has made the two pushes of lines 103-112
    and nothing else to the queues; a pass that returns has closed the frame
    queue and left the size queue alone.  This holds for every state, also
    one whose buffer is too short. *)
Lemma readPktsIter_shape (kilobyte : Z) (config : Config) (s : PState) :
  match readPktsIter kilobyte config s with
  | Continue s' => exists c buf log fr n, s' = publish s c buf log fr n
  | Return s' => exists c buf log, s' = closeAll s c buf log
  | Panic | Spin => True
  end.
Proof.
  unfold readPktsIter.
  destruct (negb (sliceOK (dataBuff s) 0 totalHdrLen)); [exact I|].
  set (r := readDataFromSocket _ _ _ _ _ _). clearbody r.
  destruct (ro_ret r); try exact I; try (do 3 eexists; reflexivity).
  unfold framePass.
  destruct (hdrCheck kilobyte config (ro_buf r));
    try exact I; try (do 3 eexists; reflexivity).
  destruct (negb _); [exact I|].
  set (r2 := readDataFromSocket _ _ _ _ _ _). clearbody r2.
  destruct (ro_ret r2); try exact I; try (do 3 eexists; reflexivity).
  destruct (mkFrame _ _); [|exact I]. do 5 eexists; reflexivity.
Qed.

Lemma readPktsIter_pushes (kilobyte : Z) (config : Config) (s s' : PState) :
  readPktsIter kilobyte config s = Continue s' ->
  exists fr n,
    pktUncompressChannel s' = snd (trySend (pktUncompressChannel s) fr) /\
    sizeChannel s' = snd (trySend (sizeChannel s) n) /\
    (fst (trySend (pktUncompressChannel s) fr) = false ->
       In LogUncompressFull (logs s')) /\
    (fst (trySend (sizeChannel s) n) = false -> In LogSizeFull (logs s')).
Proof.
  intros H. pose proof (readPktsIter_shape kilobyte config s) as Hs.
  rewrite H in Hs. destruct Hs as (c & buf & log & fr & n & ->).
  exists fr, n.
  destruct (publish_fields s c buf log fr n) as (_ & _ & _ & Hq & Hz).
  destruct (publish_logs s c buf log fr n) as [L1 L2].
  repeat split; assumption.
Qed.

Lemma readPktsIter_closes (kilobyte : Z) (config : Config) (s s' : PState) :
  readPktsIter kilobyte config s = Return s' ->
  pktUncompressChannel s' = closeChan (pktUncompressChannel s) /\
  sizeChannel s' = sizeChannel s.
Proof.
  intros H. pose proof (readPktsIter_shape kilobyte config s) as Hs.
  rewrite H in Hs. destruct Hs as (c & buf & log & ->). split; reflexivity.
Qed.

Lemma trySend_within {A : Type} (ch : Chan A) (x : A) :
  ch_cap (snd (trySend ch x)) = ch_cap ch /\
  (withinCap ch -> withinCap (snd (trySend ch x))).
Proof.
  split; [apply trySend_keeps|].
  unfold withinCap. intros H.
  rewrite (proj1 (trySend_keeps ch x)). now apply trySend_bound.
Qed.

Lemma trySend_in {A : Type} (ch : Chan A) (x y : A) :
  In y (ch_items (snd (trySend ch x))) -> In y (ch_items ch) \/ y = x.
Proof.
  unfold trySend. destruct (length (ch_items ch) <? ch_cap ch)%nat; cbn.
  - rewrite in_app_iff. cbn. intros [H|[H|[]]]; auto.
  - auto.
Qed.

Lemma recv_in {A : Type} (ch : Chan A) (x : A) :
  In x (ch_items (snd (recv ch))) -> In x (ch_items ch).
Proof.
  unfold recv. destruct (ch_items ch) eqn:E; cbn.
  - now rewrite E.
  - auto.
Qed.

Lemma recv_within {A : Type} (ch : Chan A) :
  ch_cap (snd (recv ch)) = ch_cap ch /\
  (withinCap ch -> withinCap (snd (recv ch))).
Proof.
  unfold withinCap, recv. destruct (ch_items ch) eqn:E; cbn.
  - rewrite E. auto.
  - split; [reflexivity | lia].
Qed.

(** ** The goroutines of a connection *)

Section Goroutines.

Variable kilobyte : Z.
Variable authenticate : HostConn -> bool * Conn.
Variable decompress : list byte -> option (list byte).
Variable config : Config.

Lemma readerStep_keeps : stepKeeps (readerStep kilobyte config).
Proof.
  intros p sh. unfold readerStep, pipeBounded.
  destruct (pipe_reader p) as [c|s| |].
  - destruct (makeBuf (maxFrameBytes kilobyte config)); cbn; intuition.
  - destruct (readPktsIter kilobyte config
                (attach (pipe_queue p) (sh_size sh) s)) as [s'|s'| |] eqn:E; cbn.
    + destruct (readPktsIter_pushes _ _ _ _ E) as (fr & n & Hq & Hz & _).
      cbn in Hq, Hz. rewrite Hq, Hz.
      destruct (trySend_within (pipe_queue p) fr) as [C1 B1].
      destruct (trySend_within (sh_size sh) n) as [C2 B2].
      rewrite C1. intuition.
    + destruct (readPktsIter_closes _ _ _ _ E) as [Hq Hz].
      cbn in Hq, Hz. rewrite Hq, Hz. unfold withinCap. cbn. intuition.
    + intuition.
    + intuition.
  - cbn; intuition.
  - cbn; intuition.
Qed.

Lemma decompressFrame_keeps (id : nat) (fr : CompressData)
    (out : Chan (nat * list byte)) (log : list StageLog) :
  let out' := fst (decompressFrame decompress id fr out log) in
  ch_cap out' = ch_cap out /\
  (withinCap out -> withinCap out') /\
  (forall item, In item (ch_items out') -> In item (ch_items out) \/ fst item = id).
Proof.
  unfold decompressFrame.
  destruct (if IsCompressed fr then decompress (Data fr) else Some (Data fr))
    as [text|]; cbn; [|auto].
  destruct (trySend_within out (id, text)) as [C B].
  pose proof (trySend_in out (id, text)) as I.
  destruct (trySend out (id, text)) as [sent out']. cbn in *.
  repeat split; auto.
  intros item H. destruct (I item H) as [H1| ->]; auto.
Qed.

Lemma stageStep_keeps : stepKeeps (stageStep decompress).
Proof.
  intros p sh. unfold stageStep, pipeBounded.
  pose proof (recv_bound (pipe_queue p)) as R.
  destruct (recv (pipe_queue p)) as [[fr|] q'].
  - pose proof (decompressFrame_keeps (pipe_id p) fr (sh_output sh) (sh_log sh))
      as (C & B & L).
    destruct (decompressFrame decompress (pipe_id p) fr (sh_output sh) (sh_log sh))
      as [out' log']. unfold withinCap in *. cbn in *.
    repeat split; auto.
    + destruct H as [H1 H2]. destruct (R H2) as [_ R2]. congruence.
    + destruct H as [H1 H2]. destruct (R H2) as [R1 R2]. lia.
  - cbn. intuition.
Qed.

Lemma stepPipe_keeps (f : Pipe -> Shared -> Pipe * Shared) (id : nat) :
  stepKeeps f ->
  forall pipes sh,
    let r := stepPipe id f pipes sh in
    map pipe_id (fst r) = map pipe_id pipes /\
    (Forall pipeBounded pipes -> Forall pipeBounded (fst r)) /\
    (withinCap (sh_size sh) -> withinCap (sh_size (snd r))) /\
    ch_cap (sh_size (snd r)) = ch_cap (sh_size sh) /\
    (withinCap (sh_output sh) -> withinCap (sh_output (snd r))) /\
    ch_cap (sh_output (snd r)) = ch_cap (sh_output sh) /\
    (forall item, In item (ch_items (sh_output (snd r))) ->
       In item (ch_items (sh_output sh)) \/
       In (fst item) (map pipe_id pipes)).
Proof.
  intros Hf. induction pipes as [|p rest IH]; intros sh; cbn.
  - intuition.
  - destruct (Nat.eqb_spec (pipe_id p) id) as [E|E].
    + specialize (Hf p sh). destruct (f p sh) as [p' sh']. cbn in *.
      destruct Hf as (H1 & H2 & H3 & H4 & H5 & H6 & H7).
      repeat split; auto.
      * congruence.
      * intros HF. inversion HF; subst. constructor; auto.
      * intros item Hi. destruct (H7 item Hi); auto.
    + specialize (IH sh). destruct (stepPipe id f rest sh) as [rest' sh'].
      cbn in *. destruct IH as (H1 & H2 & H3 & H4 & H5 & H6 & H7).
      repeat split; auto.
      * congruence.
      * intros HF. inversion HF; subst. constructor; auto.
      * intros item Hi. destruct (H7 item Hi); auto.
Qed.

Lemma takePending_some (id : nat) (l : list HostConn) :
  forall c rest,
    takePending id l = Some (c, rest) ->
    hc_id c = id /\ In c l /\ (forall x, In x rest -> In x l) /\
    (forall x, In x l -> x = c \/ In x rest) /\
    (forall f : HostConn -> bool,
       length (filter f l) = ((if f c then 1 else 0) + length (filter f rest))%nat).
Proof.
  induction l as [|a l IH]; intros c rest H; cbn in H; [discriminate|].
  destruct (Nat.eqb_spec (hc_id a) id) as [E|E].
  - injection H as <- <-. repeat split; cbn; auto.
    + intros x [Hx|Hx]; auto.
    + intros f. destruct (f a); reflexivity.
  - destruct (takePending id l) as [[c' rest']|]; [|discriminate].
    injection H as <- <-.
    destruct (IH c' rest' eq_refl) as (I0 & I1 & I2 & I4 & I3).
    repeat split; cbn; auto.
    + intros x [Hx|Hx]; auto.
    + intros x [Hx|Hx]; auto. destruct (I4 x Hx); auto.
    + intros f. specialize (I3 f). destruct (f a), (f c'); cbn in *; lia.
Qed.

Lemma takePending_finds (id : nat) (l : list HostConn) :
  (exists c, In c l /\ hc_id c = id) ->
  exists c' rest, takePending id l = Some (c', rest).
Proof.
  induction l as [|a l IH]; intros (c & Hin & E); [destruct Hin|]. cbn.
  destruct (Nat.eqb_spec (hc_id a) id) as [Ea|Ea]; [eauto|].
  destruct Hin as [->|Hin]; [contradiction|].
  destruct IH as (c' & rest & ->); eauto.
Qed.

(** What one event does to the receiver: it queues a handshake, starts a
    pipeline, does nothing, ends a handshake either way, or steps the
    goroutines of a pipe. *)
Lemma hostStep_cases (h : Host) (ev : HostEvent) :
  let h' := hostStep kilobyte authenticate decompress config h ev in
  (exists c, ev = Accepts c /\ AuthEnable config = true /\
     h' = mkHost (h_pending h ++ [c]) (h_handles h) (h_pipes h) (h_shared h)) \/
  (exists c, ev = Accepts c /\ AuthEnable config = false /\
     h' = startPipeline h c) \/
  h' = h \/
  (exists c rest, In c (h_pending h) /\ (forall x, In x rest -> In x (h_pending h)) /\
     (forall x, In x (h_pending h) -> x = c \/ In x rest) /\
     (forall f : HostConn -> bool,
        length (filter f (h_pending h)) =
        ((if f c then 1 else 0) + length (filter f rest))%nat) /\
     ((fst (authenticate c) = true /\
       h' = mkHost rest
              (h_handles h ++ [mkHostConn (hc_id c) (snd (authenticate c))
                                          (hc_closes c)])
              (h_pipes h ++ [mkPipe (hc_id c)
                                    (ReaderStarted (snd (authenticate c)))
                                    (makeChan maxNumPkts)])
              (h_shared h)) \/
      (fst (authenticate c) = false /\
       h' = mkHost rest
              (h_handles h ++ [mkHostConn (hc_id c) (snd (authenticate c))
                                          (S (hc_closes c))])
              (h_pipes h) (h_shared h)))) \/
  (h_pending h' = h_pending h /\ h_handles h' = h_handles h /\
   map pipe_id (h_pipes h') = map pipe_id (h_pipes h) /\
   (Forall pipeBounded (h_pipes h) -> Forall pipeBounded (h_pipes h')) /\
   (withinCap (sh_size (h_shared h)) -> withinCap (sh_size (h_shared h'))) /\
   ch_cap (sh_size (h_shared h')) = ch_cap (sh_size (h_shared h)) /\
   (withinCap (sh_output (h_shared h)) -> withinCap (sh_output (h_shared h'))) /\
   ch_cap (sh_output (h_shared h')) = ch_cap (sh_output (h_shared h)) /\
   (forall item, In item (ch_items (sh_output (h_shared h'))) ->
      In item (ch_items (sh_output (h_shared h))) \/
      In (fst item) (map pipe_id (h_pipes h)))).
Proof.
  destruct ev as [c|id|id|id| |]; cbn.
  - unfold acceptConn. destruct (AuthEnable config) eqn:E.
    + left. exists c. auto.
    + right. left. exists c. auto.
  - unfold authGoroutine, handleServerAuth, startPipeline.
    destruct (takePending id (h_pending h)) as [[c rest]|] eqn:T;
      [|right; right; left; reflexivity].
    destruct (takePending_some _ _ _ _ T) as (_ & I1 & I2 & I4 & I3).
    right. right. right. left. exists c, rest.
    repeat split; try assumption.
    destruct (authenticate c) as [[|] st]; cbn; [left|right]; split; reflexivity.
  - pose proof (stepPipe_keeps _ id readerStep_keeps (h_pipes h) (h_shared h)) as K.
    destruct (stepPipe id (readerStep kilobyte config) (h_pipes h) (h_shared h))
      as [pipes sh]. cbn in *. do 4 right. intuition.
  - pose proof (stepPipe_keeps _ id stageStep_keeps (h_pipes h) (h_shared h)) as K.
    destruct (stepPipe id (stageStep decompress) (h_pipes h) (h_shared h))
      as [pipes sh]. cbn in *. do 4 right. intuition.
  - do 4 right. destruct (recv_within (sh_size (h_shared h))) as [C W].
    repeat split; auto.
  - do 4 right. destruct (recv_within (sh_output (h_shared h))) as [C W].
    repeat split; auto.
    intros item Hin. left. now apply recv_in.
Qed.

(** Every event keeps every queue within its capacity, and the capacities
    as they are. *)
Lemma hostStep_bounded (h : Host) (ev : HostEvent) :
  let h' := hostStep kilobyte authenticate decompress config h ev in
  (hostBounded h -> hostBounded h') /\
  ch_cap (sh_size (h_shared h')) = ch_cap (sh_size (h_shared h)) /\
  ch_cap (sh_output (h_shared h')) = ch_cap (sh_output (h_shared h)).
Proof.
  assert (Hnew : forall id r, pipeBounded (mkPipe id r (makeChan maxNumPkts))).
  { intros id r. split; [reflexivity|]. unfold withinCap. cbn. lia. }
  cbv zeta. unfold hostBounded.
  destruct (hostStep_cases h ev)
    as [(c & _ & _ & ->)|[(c & _ & _ & ->)|[->|[(c & rest & _ & _ & _ & _ & [[_ ->]|[_ ->]])|K]]]];
    cbn; try solve [intuition].
  - repeat split; try tauto. apply Forall_app. split; [tauto|].
    constructor; [apply Hnew | constructor].
  - repeat split; try tauto. apply Forall_app. split; [tauto|].
    constructor; [apply Hnew | constructor].
Qed.

Lemma processHost_bounded (events : list HostEvent) :
  forall h,
    let h' := processHost kilobyte authenticate decompress config events h in
    (hostBounded h -> hostBounded h') /\
    ch_cap (sh_size (h_shared h')) = ch_cap (sh_size (h_shared h)) /\
    ch_cap (sh_output (h_shared h')) = ch_cap (sh_output (h_shared h)).
Proof.
  unfold processHost.
  induction events as [|ev events IH]; intros h; cbn; [auto|].
  destruct (hostStep_bounded h ev) as (B & C1 & C2).
  destruct (IH (hostStep kilobyte authenticate decompress config h ev))
    as (B' & C1' & C2').
  cbv zeta in *.
  split; [auto | split; etransitivity; eassumption].
Qed.

(** With authentication, an event leaves nothing for connection [i] when
    the handshake turns away every pending connection of that id. *)
Lemma hostStep_nothingFor (h : Host) (ev : HostEvent) (i : nat) :
  AuthEnable config = true ->
  (forall c, In c (h_pending h) -> hc_id c = i -> fst (authenticate c) = false) ->
  nothingFor i h ->
  nothingFor i (hostStep kilobyte authenticate decompress config h ev).
Proof.
  intros Ha Hrej (N1 & N2 & N3). unfold nothingFor.
  destruct (hostStep_cases h ev)
    as [(c & _ & _ & ->)|[(c & _ & E & _)|[->|[(c & rest & Ic & _ & _ & _ & [[V ->]|[V ->]])|K]]]];
    cbn; try solve [intuition]; try congruence.
  - assert (Hc : hc_id c <> i).
    { intros E. rewrite (Hrej c Ic E) in V. discriminate. }
    repeat split; auto.
    + rewrite map_app, in_app_iff. cbn. intuition.
    + intros c' Hin E. apply in_app_iff in Hin. destruct Hin as [Hin|[<-|[]]]; auto.
      cbn in E. contradiction.
  - repeat split; auto.
    intros c' Hin E. apply in_app_iff in Hin. destruct Hin as [Hin|[<-|[]]]; auto.
    cbn. lia.
  - destruct K as (K1 & K2 & K3 & _ & _ & _ & _ & _ & K9).
    rewrite K2, K3. repeat split; auto.
    intros item Hin E. destruct (K9 item Hin) as [H|H].
    + exact (N2 item H E).
    + rewrite E in H. contradiction.
Qed.

Lemma hostStep_pending (h : Host) (ev : HostEvent) (c : HostConn) :
  In c (h_pending (hostStep kilobyte authenticate decompress config h ev)) ->
  In c (h_pending h) \/ ev = Accepts c.
Proof.
  destruct (hostStep_cases h ev)
    as [(c' & -> & _ & ->)|[(c' & _ & _ & ->)|[->|[(c' & rest & _ & I & _ & _ & [[_ ->]|[_ ->]])|K]]]];
    cbn; auto.
  - rewrite in_app_iff. cbn. intros [H|[->|[]]]; auto.
  - destruct K as (-> & _). auto.
Qed.

Lemma acceptedIn_cons (ev : HostEvent) (events : list HostEvent) (c : HostConn) :
  In c (acceptedIn (ev :: events)) <-> ev = Accepts c \/ In c (acceptedIn events).
Proof.
  unfold acceptedIn. cbn. rewrite in_app_iff.
  destruct ev; cbn; split; intros [H|H]; auto;
    try discriminate; try contradiction.
  - destruct H as [->|[]]. auto.
  - injection H as ->. auto.
Qed.

Lemma processHost_nothingFor (events : list HostEvent) (i : nat) :
  AuthEnable config = true ->
  forall h,
    (forall c, In c (h_pending h ++ acceptedIn events) -> hc_id c = i ->
               fst (authenticate c) = false) ->
    nothingFor i h ->
    nothingFor i (processHost kilobyte authenticate decompress config events h).
Proof.
  intros Ha. unfold processHost.
  induction events as [|ev events IH]; intros h Hrej N; cbn; [assumption|].
  apply IH.
  - intros c Hin. apply Hrej. rewrite in_app_iff in *.
    rewrite acceptedIn_cons. destruct Hin as [Hin|Hin]; [|auto].
    destruct (hostStep_pending _ _ _ Hin); auto.
  - apply hostStep_nothingFor; try assumption.
    intros c Hin. apply Hrej. rewrite in_app_iff. auto.
Qed.

Lemma hostStep_handles (h : Host) (ev : HostEvent) (c : HostConn) :
  In c (h_handles h) ->
  In c (h_handles (hostStep kilobyte authenticate decompress config h ev)).
Proof.
  destruct (hostStep_cases h ev)
    as [(c' & _ & _ & ->)|[(c' & _ & _ & ->)|[->|[(c' & rest & _ & _ & _ & _ & [[_ ->]|[_ ->]])|K]]]];
    cbn; rewrite ?in_app_iff; auto.
  destruct K as (_ & -> & _). auto.
Qed.

Lemma processHost_handles (events : list HostEvent) :
  forall h c,
    In c (h_handles h) ->
    In c (h_handles (processHost kilobyte authenticate decompress config events h)).
Proof.
  unfold processHost.
  induction events as [|ev events IH]; intros h c H; cbn; [assumption|].
  apply IH. now apply hostStep_handles.
Qed.

Lemma hostStep_reached (h : Host) (ev : HostEvent) (i : nat) :
  reached i h ->
  reached i (hostStep kilobyte authenticate decompress config h ev).
Proof.
  unfold reached.
  destruct (hostStep_cases h ev)
    as [(c' & _ & _ & ->)|[(c' & _ & _ & ->)|[->|[(c' & rest & _ & _ & I & _ & [[_ ->]|[_ ->]])|K]]]];
    cbn; auto.
  - intros [(c & Hin & E)|(c & Hin & E)]; [left|right]; exists c;
      rewrite ?in_app_iff; auto.
  - intros [(c & Hin & E)|(c & Hin & E)]; [left|right]; exists c;
      rewrite ?in_app_iff; auto.
  - intros [(c & Hin & E)|(c & Hin & E)].
    + destruct (I c Hin) as [->|Hr]; [right|left; eauto].
      eexists. rewrite in_app_iff. split; [right; left; reflexivity|exact E].
    + right. exists c. rewrite in_app_iff. auto.
  - intros [(c & Hin & E)|(c & Hin & E)].
    + destruct (I c Hin) as [->|Hr]; [right|left; eauto].
      eexists. rewrite in_app_iff. split; [right; left; reflexivity|exact E].
    + right. exists c. rewrite in_app_iff. auto.
  - destruct K as (-> & -> & _). auto.
Qed.

Lemma processHost_reached (events : list HostEvent) (i : nat) :
  AuthEnable config = true ->
  forall h,
    reached i h \/ (exists c, In c (acceptedIn events) /\ hc_id c = i) ->
    reached i (processHost kilobyte authenticate decompress config events h).
Proof.
  intros Ha. unfold processHost.
  induction events as [|ev events IH]; intros h H; cbn.
  - destruct H as [H|(c & [] & _)]. exact H.
  - apply IH. destruct H as [H|(c & Hin & E)].
    + left. now apply hostStep_reached.
    + apply acceptedIn_cons in Hin. destruct Hin as [->|Hin]; [left|right; eauto].
      cbn. unfold acceptConn. rewrite Ha. left. exists c. cbn.
      rewrite in_app_iff. cbn. auto.
Qed.

(** Once the goroutine of lines 172-178 has run for a connection of id [i]
    that was waiting, a handle of that id is past the handshake. *)
Lemma authGoroutine_records (h : Host) (i : nat) :
  reached i h ->
  exists c, In c (h_handles (authGoroutine authenticate h i)) /\ hc_id c = i.
Proof.
  intros [Hp|(c & Hin & E)].
  - destruct (takePending_finds i (h_pending h) Hp) as (c' & rest & T).
    destruct (takePending_some _ _ _ _ T) as (E & _).
    unfold authGoroutine, handleServerAuth, startPipeline. rewrite T.
    destruct (authenticate c') as [[|] st]; cbn;
      eexists; rewrite in_app_iff; (split; [right; left; reflexivity|exact E]).
  - exists c. split; [|exact E].
    exact (hostStep_handles h (AuthRuns i) c Hin).
Qed.

Lemma processHost_records (e1 e2 : list HostEvent) (h : Host) (i : nat) :
  AuthEnable config = true ->
  (exists c, In c (h_pending h ++ acceptedIn e1) /\ hc_id c = i) ->
  exists c,
    In c (h_handles (processHost kilobyte authenticate decompress config
                                 (e1 ++ AuthRuns i :: e2) h)) /\
    hc_id c = i.
Proof.
  intros Ha (c & Hin & E). unfold processHost. rewrite fold_left_app. cbn.
  assert (R : reached i (processHost kilobyte authenticate decompress config e1 h)).
  { apply processHost_reached; [assumption|].
    apply in_app_iff in Hin. destruct Hin as [Hin|Hin]; [left; left|right]; eauto. }
  destruct (authGoroutine_records _ i R) as (c' & Hc & Ec).
  exists c'. split; [|exact Ec].
  now apply processHost_handles.
Qed.






End Goroutines.

(** ** Pushes on a full queue *)

(** Whether a pass goes round again, returns or panics does not depend on
    the queues it pushes to. *)
Lemma readPktsIter_attach (kilobyte : Z) (config : Config) (s : PState)
    (q : Chan CompressData) (sz : Chan Z) :
  match readPktsIter kilobyte config s,
        readPktsIter kilobyte config (attach q sz s) with
  | Continue _, Continue _ | Return _, Return _
  | Panic, Panic | Spin, Spin => True
  | _, _ => False
  end.
Proof.
  unfold readPktsIter, framePass. cbn [attach clientConn dataBuff logs].
  destruct (negb (sliceOK (dataBuff s) 0 totalHdrLen)); [exact I|].
  set (r := readDataFromSocket _ _ _ _ _ _). clearbody r.
  destruct (ro_ret r); try exact I.
  destruct (hdrCheck kilobyte config (ro_buf r)); try exact I.
  destruct (negb _); [exact I|].
  set (r2 := readDataFromSocket _ _ _ _ _ _). clearbody r2.
  destruct (ro_ret r2); try exact I.
  destruct (mkFrame _ _); exact I.
Qed.

Lemma stageStep_full (decompress : list byte -> option (list byte))
    (p : Pipe) (sh : Shared) (fr : CompressData) (q' : Chan CompressData)
    (text : list byte) :
  recv (pipe_queue p) = (Some fr, q') ->
  (if IsCompressed fr then decompress (Data fr) else Some (Data fr)) = Some text ->
  (ch_cap (sh_output sh) <= length (ch_items (sh_output sh)))%nat ->
  stageStep decompress p sh =
    (mkPipe (pipe_id p) (pipe_reader p) q',
     mkShared (sh_size sh) (sh_output sh) (sh_log sh ++ [LogOutputFull])).
Proof.
  intros R D F. unfold stageStep, decompressFrame.
  rewrite R, D, (trySend_full _ _ F). reflexivity.
Qed.

(** C8.  Every push on a bounded queue is the non-blocking send [trySend]:
    on a full queue it hands the queue back unchanged and says so.
    - The read loop (lines 103-112): a pass that delivers a frame goes round
      again whatever the state of the queues; when the frame queue is full
      the frame is dropped, the queue is as it was and the drop is logged;
      the same for the size queue.
    - The decompression stage (section 4.6 of the specification): when the
      output queue is full the text is dropped, the queue is as it was, the
      drop is logged, and the stage has taken its frame off the frame queue.
    - Under any schedule of the accept loop and the goroutines of any number
      of connections, every frame queue holds at most [maxNumPkts] items and
      the size queue and the output queue at most their capacity, which
      does not change. *)
Theorem full_queue_push_drops
    (kilobyte : Z) (authenticate : HostConn -> bool * Conn)
    (decompress : list byte -> option (list byte)) (config : Config) :
  (forall (A : Type) (ch : Chan A) (x : A),
     (ch_cap ch <= length (ch_items ch))%nat -> trySend ch x = (false, ch)) /\
  (forall s s',
     readPktsIter kilobyte config s = Continue s' ->
     (forall q sz, exists s'',
        readPktsIter kilobyte config (attach q sz s) = Continue s'') /\
     ((ch_cap (pktUncompressChannel s)
       <= length (ch_items (pktUncompressChannel s)))%nat ->
      pktUncompressChannel s' = pktUncompressChannel s /\
      In LogUncompressFull (logs s')) /\
     ((ch_cap (sizeChannel s) <= length (ch_items (sizeChannel s)))%nat ->
      sizeChannel s' = sizeChannel s /\ In LogSizeFull (logs s'))) /\
  (forall p sh fr q' text,
     recv (pipe_queue p) = (Some fr, q') ->
     (if IsCompressed fr then decompress (Data fr) else Some (Data fr))
       = Some text ->
     (ch_cap (sh_output sh) <= length (ch_items (sh_output sh)))%nat ->
     stageStep decompress p sh =
       (mkPipe (pipe_id p) (pipe_reader p) q',
        mkShared (sh_size sh) (sh_output sh) (sh_log sh ++ [LogOutputFull]))) /\
  (forall events h,
     hostBounded h ->
     let h' := processHost kilobyte authenticate decompress config events h in
     Forall (fun p => (length (ch_items (pipe_queue p)) <= maxNumPkts)%nat /\
                      ch_cap (pipe_queue p) = maxNumPkts) (h_pipes h') /\
     (length (ch_items (sh_size (h_shared h')))
      <= ch_cap (sh_size (h_shared h)))%nat /\
     ch_cap (sh_size (h_shared h')) = ch_cap (sh_size (h_shared h)) /\
     (length (ch_items (sh_output (h_shared h')))
      <= ch_cap (sh_output (h_shared h)))%nat /\
     ch_cap (sh_output (h_shared h')) = ch_cap (sh_output (h_shared h))).
Proof.
  split; [intros A ch x; apply trySend_full|]. split; [|split].
  - intros s s' H. split; [|split].
    + intros q sz. pose proof (readPktsIter_attach kilobyte config s q sz) as K.
      rewrite H in K.
      destruct (readPktsIter kilobyte config (attach q sz s)) as [s''| | |];
        try contradiction. now exists s''.
    + intros F. destruct (readPktsIter_pushes _ _ _ _ H)
        as (fr & n & Hq & _ & L & _).
      rewrite (trySend_full _ fr F) in Hq, L. auto.
    + intros F. destruct (readPktsIter_pushes _ _ _ _ H)
        as (fr & n & _ & Hz & _ & L).
      rewrite (trySend_full _ n F) in Hz, L. auto.
  - intros p sh fr q' text. apply stageStep_full.
  - intros events h B.
    destruct (processHost_bounded kilobyte authenticate decompress config events h)
      as (B' & C1 & C2).
    cbv zeta. destruct (B' B) as (P & Z1 & O1). unfold withinCap in *.
    rewrite <- C1, <- C2. repeat split; try assumption.
    eapply Forall_impl; [|exact P].
    intros p [E W]. unfold withinCap in W. split; [lia | assumption].
Qed.

(** ** Rejection by the handshake *)

(** C4.  With authentication enabled, let the handshake turn away every
    connection of id [i], and let the receiver hold nothing of [i] at the
    start.  Then under any schedule of the accept loop and the goroutines:
    - once the goroutine of lines 172-178 has run for an accepted connection
      of id [i], its handle is past the handshake;
    - every handle of id [i] past the handshake is closed (by the handshake,
      as section 4.4 of the specification has it);
    - no pipe is ever made for [i]: no frame queue, no read loop, no
      decompression stage;
    - no item of the output queue was pushed by a stage of [i]. *)
Theorem auth_rejection_starts_nothing
    (kilobyte : Z) (authenticate : HostConn -> bool * Conn)
    (decompress : list byte -> option (list byte)) (config : Config)
    (events : list HostEvent) (h : Host) (i : nat) :
  AuthEnable config = true ->
  (forall c, In c (h_pending h ++ acceptedIn events) -> hc_id c = i ->
             fst (authenticate c) = false) ->
  nothingFor i h ->
  let h' := processHost kilobyte authenticate decompress config events h in
  (forall e1 e2,
     events = e1 ++ AuthRuns i :: e2 ->
     (exists c, In c (h_pending h ++ acceptedIn e1) /\ hc_id c = i) ->
     exists c, In c (h_handles h') /\ hc_id c = i) /\
  (forall c, In c (h_handles h') -> hc_id c = i -> (0 < hc_closes c)%nat) /\
  ~ In i (map pipe_id (h_pipes h')) /\
  (forall item, In item (ch_items (sh_output (h_shared h'))) -> fst item <> i).
Proof.
  intros Ha Hrej N. cbv zeta.
  destruct (processHost_nothingFor kilobyte authenticate decompress config
              events i Ha h Hrej N) as (N1 & N2 & N3).
  repeat split; try assumption.
  intros e1 e2 -> Hc. now apply processHost_records.
Qed.

(** * Examples *)

(** The frame "abc" with flag 1, split over two chunks in the middle of the
    length field, is decoded to the frame ("abc", compressed) and queued. *)
Lemma frame_round_trip_witness :
  let s := exampleState (chunks [firstn 5 (encodeFrame Byte.x01 abc);
                                 skipn 5 (encodeFrame Byte.x01 abc)]) in
  Z.of_nat (length abc) <= maxFrameBytes 1024 exampleConfig - 9 /\
  exists s',
    readPktsIter 1024 exampleConfig s = Continue s' /\
    ch_items (pktUncompressChannel s') = [mkCompressData abc true] /\
    connCloses s' = 0%nat.
Proof.
  cbv zeta. split; [by_evaluation|].
  destruct (frame_round_trip 1024 exampleConfig
              (exampleState (chunks [firstn 5 (encodeFrame Byte.x01 abc);
                                     skipn 5 (encodeFrame Byte.x01 abc)]))
              Byte.x01 abc
              [firstn 5 (encodeFrame Byte.x01 abc);
               skipn 5 (encodeFrame Byte.x01 abc)] [])
    as (s' & Hit & _ & _ & Hq & _ & _ & Hc & _).
  - by_evaluation.
  - by_evaluation.
  - by_evaluation.
  - repeat constructor; discriminate.
  - reflexivity.
  - reflexivity.
  - exists s'. split; [exact Hit|]. split; [rewrite Hq; reflexivity | exact Hc].
Defined.

(** The header of the frame "abc" is accepted with declared length 3. *)
Lemma header_validation_witness :
  let s := exampleState [Ev (encodeFrame Byte.x00 abc) None] in
  ro_ret (hdrRead s) = RetNil /\
  hdrCheck 1024 exampleConfig (ro_buf (hdrRead s)) = HdrOk 3.
Proof.
  cbv zeta. split; [by_evaluation|].
  refine (proj1 (proj2 (proj2
            (header_validation 1024 exampleConfig
               (exampleState [Ev (encodeFrame Byte.x00 abc) None])
               (firstn 9 (encodeFrame Byte.x00 abc)) (repeat Byte.x00 1015)
               _ _ _ _ _)) _ _)).
  - by_evaluation.
  - by_evaluation.
  - by_evaluation.
  - by_evaluation.
  - reflexivity.
  - reflexivity.
  - by_evaluation.
Defined.

(** A deadline that expires before any header byte has arrived ends the
    pass with everything closed and nothing logged. *)
Lemma header_timeout_is_terminal_witness :
  let s := exampleState [Ev [] (Some Timeout);
                         Ev (encodeFrame Byte.x00 abc) None] in
  9 <= maxFrameBytes 1024 exampleConfig /\
  readPktsIter 1024 exampleConfig s =
    Return (closeAll s [Ev (encodeFrame Byte.x00 abc) None] (dataBuff s) []).
Proof.
  cbv zeta. split; [by_evaluation|].
  refine (proj1 (header_timeout_is_terminal 1024 exampleConfig
                   (exampleState [Ev [] (Some Timeout);
                                  Ev (encodeFrame Byte.x00 abc) None])
                   [] [] [Ev (encodeFrame Byte.x00 abc) None] 0 _ _ _ _) _).
  - by_evaluation.
  - by_evaluation.
  - constructor.
  - by_evaluation.
  - reflexivity.
Defined.

(** C3 as the spec words it fails: a deadline that expires before any byte
    of the header has accumulated is not retried.  [readPkts] returns with
    the transport handle closed and the frame queue closed, although the
    peer's next event was a complete, valid frame, which is never read. *)
Lemma idle_timeout_destroys_connection :
  readPkts 1024 [Ev [] (Some Timeout); Ev (encodeFrame Byte.x00 abc) None]
           exampleConfig (makeChan maxNumPkts) (makeChan maxNumPkts)
  = Return (mkPState [Ev (encodeFrame Byte.x00 abc) None] 1
              (repeat Byte.x00 1024)
              (mkChan [] maxNumPkts 1) (makeChan maxNumPkts) []).
Proof. vm_compute. reflexivity. Qed.

(** A zero-byte read after one byte of the header: nil, with the one byte
    stored, and the pass goes on to the header checks. *)
Lemma zero_read_returns_nil_witness :
  let s := exampleState (chunks [[Byte.xde]] ++ [Ev [] None]) in
  9 <= maxFrameBytes 1024 exampleConfig /\
  hdrRead s =
    mkReadOut RetNil [] (bufWrite (dataBuff s) 0 [Byte.xde]) [LogZeroNoErr] 1 /\
  readPktsIter 1024 exampleConfig s = framePass 1024 exampleConfig s (hdrRead s).
Proof.
  cbv zeta. split; [by_evaluation|].
  destruct (zero_read_returns_nil 1024 exampleConfig
              (exampleState (chunks [[Byte.xde]] ++ [Ev [] None]))
              [[Byte.xde]] []
              ltac:(by_evaluation) ltac:(by_evaluation)
              ltac:(repeat constructor; discriminate)
              ltac:(by_evaluation) eq_refl)
    as (R & I & _).
  split; [exact R | exact I].
Defined.

(** C5 as the spec words it fails.  First: after the frame "abc", two reads
    that return zero bytes and no error make the loop take the bytes still
    in the buffer for a new header and a new payload, and the frame is
    queued a second time; the connection is stopped only by the later
    end-of-stream.  Second: on a fresh buffer the same read is followed by
    the header check on the unfilled buffer, and is reported as illegal
    data. *)
Lemma zero_read_reinterprets_buffer :
  (exists s',
     readPkts 1024
       [Ev (encodeFrame Byte.x00 abc) None; Ev [] None; Ev [] None;
        Ev [] (Some EOF)]
       exampleConfig (makeChan maxNumPkts) (makeChan maxNumPkts) = Return s' /\
     ch_items (pktUncompressChannel s')
       = [mkCompressData abc false; mkCompressData abc false] /\
     logs s' = [LogZeroNoErr; LogZeroNoErr; LogReadFail ErrAbrupt])
  /\
  readPktsIter 1024 exampleConfig (exampleState [Ev [] None]) =
    Return (closeAll (exampleState [Ev [] None]) [] (repeat Byte.x00 1024)
                     [LogZeroNoErr; LogIllegal]).
Proof.
  split.
  - eexists. split; [vm_compute; reflexivity|]. split; reflexivity.
  - vm_compute. reflexivity.
Qed.

(** Three bytes asked for, delivered as one byte and then two. *)
Lemma readDataFromSocket_partial_reads_witness :
  let r := readDataFromSocket
             (chunks [[Byte.x61]; [Byte.x62; Byte.x63]] ++ [])
             (repeat Byte.x00 4) 0 3 3 [] in
  ro_ret r = RetNil /\ ro_total r = 3 /\ bufSlice (ro_buf r) 0 3 = abc.
Proof.
  cbv zeta.
  destruct (proj2 (readDataFromSocket_partial_reads 3
                     [[Byte.x61]; [Byte.x62; Byte.x63]] [] (repeat Byte.x00 4)
                     0 3 []
                     ltac:(by_evaluation)
                     ltac:(repeat constructor; discriminate)
                     ltac:(by_evaluation) ltac:(by_evaluation) eq_refl)
                  ltac:(by_evaluation))
    as (R & T & _ & B & _).
  split; [exact R|]. split; [exact T | exact B].
Defined.

(** Three bytes asked for; the peer closes after two. *)
Lemma readDataFromSocket_abrupt_close_witness :
  ro_ret (readDataFromSocket
            (chunks [[Byte.x61]] ++ Ev [Byte.x62] (Some EOF) :: [])
            (repeat Byte.x00 4) 0 3 3 []) = RetErr ErrAbrupt.
Proof.
  refine (proj1 (readDataFromSocket_abrupt_close 3 [[Byte.x61]] [Byte.x62] []
                   (repeat Byte.x00 4) 0 3 [] _ _ _ _ _)).
  - repeat constructor; discriminate.
  - by_evaluation.
  - by_evaluation.
  - reflexivity.
  - by_evaluation.
Defined.

(** A connection that sends one frame and then closes: one close of the
    handle, one close of the frame queue. *)
Lemma readPkts_closes_exactly_once_witness :
  9 <= maxFrameBytes 1024 exampleConfig /\
  exists s',
    readPkts 1024 [Ev (encodeFrame Byte.x00 abc) None; Ev [] (Some EOF)]
             exampleConfig (makeChan maxNumPkts) (makeChan maxNumPkts)
    = Return s' /\
    connCloses s' = 1%nat /\ ch_closes (pktUncompressChannel s') = 1%nat.
Proof.
  split; [by_evaluation|].
  exact (proj2 (proj2 (readPkts_closes_exactly_once 1024 exampleConfig
                         ltac:(by_evaluation)))
               [Ev (encodeFrame Byte.x00 abc) None; Ev [] (Some EOF)]
               (makeChan maxNumPkts) (makeChan maxNumPkts)).
Defined.

(** The pass over the frame "abc" takes its slices within the buffer. *)
Lemma readPkts_slices_in_bounds_witness :
  let s := exampleState [Ev (encodeFrame Byte.x00 abc) None] in
  hdrCheck 1024 exampleConfig (ro_buf (hdrRead s)) = HdrOk 3 /\
  0 <= 3 <= maxFrameBytes 1024 exampleConfig - 9 /\
  readPktsIter 1024 exampleConfig s <> Panic.
Proof.
  cbv zeta. split; [by_evaluation|].
  destruct (readPkts_slices_in_bounds 1024 exampleConfig
              (exampleState [Ev (encodeFrame Byte.x00 abc) None]) 3
              ltac:(by_evaluation) ltac:(by_evaluation))
    as (B & _ & _ & _ & _ & _ & NP).
  split; [exact B | exact NP].
Defined.

(** A pass that reads a frame while both of its queues are full; a stage
    that handles a frame while the output queue is full; and two
    connections that overrun a size queue and an output queue of one item:
    the second size and the second text are dropped. *)
Lemma full_queue_push_drops_witness :
  let h' := processHost 1024 exampleAuth exampleDecompress exampleConfig
                        floodSchedule smallHost in
  readPktsIter 1024 exampleConfig fullState = Continue fullAfter /\
  pktUncompressChannel fullAfter = pktUncompressChannel fullState /\
  In LogUncompressFull (logs fullAfter) /\
  sizeChannel fullAfter = sizeChannel fullState /\
  In LogSizeFull (logs fullAfter) /\
  stageStep exampleDecompress fullPipe fullShared =
    (mkPipe (pipe_id fullPipe) (pipe_reader fullPipe) (mkChan [] maxNumPkts 0),
     mkShared (sh_size fullShared) (sh_output fullShared)
              (sh_log fullShared ++ [LogOutputFull])) /\
  hostBounded smallHost /\
  (length (ch_items (sh_size (h_shared h')))
   <= ch_cap (sh_size (h_shared smallHost)))%nat /\
  (length (ch_items (sh_output (h_shared h')))
   <= ch_cap (sh_output (h_shared smallHost)))%nat /\
  ch_items (sh_size (h_shared h')) = [12] /\
  ch_items (sh_output (h_shared h')) = [(1%nat, abc)] /\
  sh_log (h_shared h') = [LogOutputFull].
Proof.
  cbv zeta.
  destruct (full_queue_push_drops 1024 exampleAuth exampleDecompress exampleConfig)
    as (_ & R & S & Sys).
  assert (E : readPktsIter 1024 exampleConfig fullState = Continue fullAfter)
    by (vm_compute; reflexivity).
  assert (B : hostBounded smallHost).
  { unfold hostBounded, withinCap. cbn. repeat split; [constructor | lia | lia]. }
  destruct (R fullState fullAfter E) as (_ & Fq & Fs).
  destruct Fq as [Q1 Q2]; [cbn; lia|].
  destruct Fs as [Z1 Z2]; [cbn; lia|].
  destruct (Sys floodSchedule smallHost B) as (_ & S1 & _ & S2 & _).
  split; [exact E|]. split; [exact Q1|]. split; [exact Q2|].
  split; [exact Z1|]. split; [exact Z2|]. split.
  { apply (S fullPipe fullShared (mkCompressData abc false)
             (mkChan [] maxNumPkts 0) abc);
      [reflexivity | reflexivity | cbn; lia]. }
  split; [exact B|]. split; [exact S1|]. split; [exact S2|].
  split; [vm_compute; reflexivity|].
  split; vm_compute; reflexivity.
Defined.

(** Connection 7 is turned away and connection 8 is let in.  After every
    goroutine has run, the handle of 7 is past the handshake and closed,
    there is no pipe for 7, and the output queue holds the text of 8 alone. *)
Lemma auth_rejection_starts_nothing_witness :
  let h' := processHost 1024 exampleAuth exampleDecompress authConfig
                        authSchedule exampleHost in
  (exists c, In c (h_handles h') /\ hc_id c = 7%nat) /\
  (forall c, In c (h_handles h') -> hc_id c = 7%nat -> (0 < hc_closes c)%nat) /\
  ~ In 7%nat (map pipe_id (h_pipes h')) /\
  (forall item, In item (ch_items (sh_output (h_shared h'))) ->
                fst item <> 7%nat) /\
  map pipe_id (h_pipes h') = [8%nat] /\
  ch_items (sh_output (h_shared h')) = [(8%nat, abc)].
Proof.
  cbv zeta.
  destruct (auth_rejection_starts_nothing 1024 exampleAuth exampleDecompress
              authConfig authSchedule exampleHost 7)
    as (L & C & P & O).
  - reflexivity.
  - intros c _ E. unfold exampleAuth. cbn. rewrite E. reflexivity.
  - unfold nothingFor. cbn. tauto.
  - split.
    { apply (L [Accepts (exampleHostConn 7); Accepts (exampleHostConn 8);
                AuthRuns 8]
               [ReaderSteps 8; ReaderSteps 8; StageSteps 8;
                ReaderSteps 7; ReaderSteps 7; StageSteps 7]);
        [reflexivity|].
      exists (exampleHostConn 7). split; [cbn; auto | reflexivity]. }
    split; [exact C|]. split; [exact P|]. split; [exact O|].
    split; vm_compute; reflexivity.
Defined.

(** * Further properties of the reader *)

(** X1.  On every connection, whatever its script, a call of the reader on
    a window inside the buffer comes back within [hi - lo + 1] passes,
    without a slice out of range; the buffer keeps its length, every byte
    outside the window keeps its value, and nothing is put back into the
    connection. *)
Theorem readDataFromSocket_stays_in_window
    (c : Conn) (buf : list byte) (lo hi : nat) (bytesToRead : Z)
    (log : list LogMsg) :
  (lo <= hi)%nat -> (hi <= length buf)%nat ->
  let r := readDataFromSocket c buf lo hi bytesToRead log in
  ro_ret r <> RetSpin /\ ro_ret r <> RetPanic /\
  length (ro_buf r) = length buf /\
  (forall i d, (i < lo \/ hi <= i)%nat -> nth i (ro_buf r) d = nth i buf d) /\
  (connMeasure (ro_conn r) <= connMeasure c)%nat.
Proof.
  intros Hw Hb r.
  destruct (readDataFromSocket_inv c buf lo hi bytesToRead log Hw Hb)
    as [I1 I2 I3 I4 I5 _].
  repeat split; assumption.
Qed.

(** A window in the middle of a buffer, and a source that fails after two
    bytes. *)
Lemma readDataFromSocket_stays_in_window_witness :
  let buf := repeat Byte.xff 6 in
  let r := readDataFromSocket
             [Ev [Byte.x61; Byte.x62] None; Ev [Byte.x63] (Some OtherErr)]
             buf 2 5 3 [] in
  ro_ret r <> RetPanic /\ length (ro_buf r) = length buf /\
  nth 1 (ro_buf r) Byte.x00 = nth 1 buf Byte.x00 /\
  nth 5 (ro_buf r) Byte.x00 = nth 5 buf Byte.x00.
Proof.
  cbv zeta.
  destruct (readDataFromSocket_stays_in_window
              [Ev [Byte.x61; Byte.x62] None; Ev [Byte.x63] (Some OtherErr)]
              (repeat Byte.xff 6) 2 5 3 []
              ltac:(by_evaluation) ltac:(by_evaluation))
    as (_ & NP & L & O & _).
  split; [exact NP|]. split; [exact L|].
  split; [apply O; left; by_evaluation | apply O; right; by_evaluation].
Defined.

Lemma connRead_bytes (c : Conn) (cap : nat) bs e c' :
  connRead c cap = (bs, e, c') -> allBytes c = bs ++ allBytes c'.
Proof.
  destruct (connRead_cases c cap)
    as [[_ ->] | [(_ & -> & ->) | [(_ & d & er & rest & -> & Hd & ->)
                                  | (_ & d & er & rest & -> & Hd & ->)]]];
    injection 1 as <- _ <-; try reflexivity.
  unfold allBytes. cbn [map concat ev_data].
  now rewrite app_assoc, firstn_skipn.
Qed.

Lemma readLoop_bytes (fuel : nat) :
  forall c buf lo hi n total log,
    0 <= total -> (lo + Z.to_nat total <= hi)%nat -> (hi <= length buf)%nat ->
    let r := readLoop fuel c buf lo hi n total log in
    exists taken,
      allBytes c = taken ++ allBytes (ro_conn r) /\
      ro_buf r = bufWrite buf (lo + Z.to_nat total) taken /\
      (lo + Z.to_nat total + length taken <= hi)%nat /\
      total <= ro_total r <= total + Z.of_nat (length taken) /\
      (ro_ret r = RetNil -> ro_total r = total + Z.of_nat (length taken)).
Proof.
  induction fuel as [|fuel IH]; intros c buf lo hi n total log Ht Hw Hb.
  - exists []. cbn. rewrite bufWrite_nil. repeat split; lia.
  - cbv zeta. rewrite readLoop_in_window by assumption. cbv zeta.
    destruct (connRead c (hi - (lo + Z.to_nat total))) as [[bs e] c'] eqn:Hr.
    pose proof (connRead_length _ _ _ _ _ Hr) as Hlen.
    pose proof (connRead_bytes _ _ _ _ _ Hr) as Hbytes.
    repeat match goal with
           | |- context [if ?b then _ else _] => destruct b eqn:?
           end;
      try (exists bs; cbn [ro_ret ro_conn ro_buf ro_total];
           repeat split; try assumption; try lia; try discriminate;
           repeat match goal with
                  | H : _ && _ = true |- _ => apply andb_prop in H; destruct H
                  | H : (_ =? _) = true |- _ => apply Z.eqb_eq in H
                  end; lia).
    assert (Hoff : Z.to_nat (total + Z.of_nat (length bs))
                   = (Z.to_nat total + length bs)%nat) by lia.
    destruct (IH c' (bufWrite buf (lo + Z.to_nat total) bs) lo hi n
                (total + Z.of_nat (length bs)) log)
      as (taken & B1 & B2 & B3 & B4 & B5);
      [lia | lia | rewrite length_bufWrite; lia |].
    exists (bs ++ taken). rewrite length_app.
    repeat split; try lia.
    + now rewrite Hbytes, B1, app_assoc.
    + rewrite B2.
      replace (lo + Z.to_nat (total + Z.of_nat (length bs)))%nat
        with (lo + Z.to_nat total + length bs)%nat by lia.
      apply bufWrite_app. lia.
    + intros Hn. rewrite (B5 Hn). lia.
Qed.

(** X2.  On every connection, whatever its script: the bytes the reader has
    stored in the window are exactly the bytes it has taken off the
    connection, in their order, and what it leaves on the connection is
    everything after them.  When it returns nil, [totalBytesRead] is the
    number of bytes taken; when it returns an error it is at most that
    number. *)
Theorem readDataFromSocket_keeps_the_stream
    (c : Conn) (buf : list byte) (lo hi : nat) (bytesToRead : Z)
    (log : list LogMsg) :
  (lo <= hi)%nat -> (hi <= length buf)%nat ->
  let r := readDataFromSocket c buf lo hi bytesToRead log in
  exists taken,
    allBytes c = taken ++ allBytes (ro_conn r) /\
    (lo + length taken <= hi)%nat /\
    ro_buf r = bufWrite buf lo taken /\
    bufSlice (ro_buf r) lo (lo + length taken) = taken /\
    0 <= ro_total r <= Z.of_nat (length taken) /\
    (ro_ret r = RetNil -> ro_total r = Z.of_nat (length taken)).
Proof.
  intros Hw Hb r.
  destruct (readLoop_bytes (S (hi - lo)) c buf lo hi bytesToRead 0 log)
    as (taken & B1 & B2 & B3 & B4 & B5); [lia | simpl; lia | assumption |].
  fold (readDataFromSocket c buf lo hi bytesToRead log) in B1, B2, B4, B5.
  fold r in B1, B2, B4, B5.
  simpl Z.to_nat in B2, B3. rewrite Nat.add_0_r in B2, B3.
  exists taken. repeat split; try assumption; try lia.
  rewrite B2. apply bufSlice_bufWrite; lia.
Qed.

Lemma readDataFromSocket_keeps_the_stream_witness :
  let c := [Ev [Byte.x61] None; Ev [Byte.x62; Byte.x63; Byte.x64] None] in
  let r := readDataFromSocket c (repeat Byte.x00 4) 0 3 3 [] in
  exists taken,
    allBytes c = taken ++ allBytes (ro_conn r) /\
    bufSlice (ro_buf r) 0 (0 + length taken) = taken.
Proof.
  cbv zeta.
  destruct (readDataFromSocket_keeps_the_stream
              [Ev [Byte.x61] None; Ev [Byte.x62; Byte.x63; Byte.x64] None]
              (repeat Byte.x00 4) 0 3 3 []
              ltac:(by_evaluation) ltac:(by_evaluation))
    as (taken & B1 & _ & _ & B4 & _).
  exists taken. split; [exact B1 | exact B4].
Defined.

Lemma readDataFromSocket_err_event cs bs e rest buf lo hi n log :
  Forall nonEmpty cs ->
  (lo <= hi)%nat -> (hi <= length buf)%nat -> Z.of_nat (hi - lo) = n ->
  Z.of_nat (length (concat cs)) < n ->
  Z.of_nat (length (concat cs)) + Z.of_nat (length bs) <= n ->
  readDataFromSocket (chunks cs ++ Ev bs (Some e) :: rest) buf lo hi n log =
  mkReadOut (RetErr (classify e)) rest (bufWrite buf lo (concat cs ++ bs)) log
            (Z.of_nat (length (concat cs))).
Proof.
  intros Hne Hw Hb Hwin Hs Hfit.
  rewrite readDataFromSocket_after_chunks by (try assumption; lia).
  rewrite readLoop_event by lia. cbv zeta.
  replace (Z.of_nat (length (concat cs)) =? n) with false
    by (symmetry; apply Z.eqb_neq; lia).
  rewrite Nat2Z.id, bufWrite_app by lia.
  destruct e; reflexivity.
Qed.

(** X3.  A read error ends the read as a failure whenever it is reported
    before the count was reached, also when it is reported together with
    bytes, and even when those bytes are the last ones asked for: they are
    stored in the window but not counted, and the reader returns the
    abrupt-close error for end-of-stream, the timeout for an expired
    deadline, and the closed-connection error for anything else. *)
Theorem readDataFromSocket_error_with_data
    (cs : list (list byte)) (bs : list byte) (e : ReadErr) (rest : Conn)
    (buf : list byte) (lo hi : nat) (n : Z) (log : list LogMsg) :
  Forall nonEmpty cs ->
  (lo <= hi)%nat -> (hi <= length buf)%nat -> Z.of_nat (hi - lo) = n ->
  Z.of_nat (length (concat cs)) < n ->
  Z.of_nat (length (concat cs)) + Z.of_nat (length bs) <= n ->
  let r := readDataFromSocket (chunks cs ++ Ev bs (Some e) :: rest)
             buf lo hi n log in
  ro_ret r = RetErr (classify e) /\
  ro_total r = Z.of_nat (length (concat cs)) /\
  bufSlice (ro_buf r) lo (lo + length (concat cs ++ bs)) = concat cs ++ bs /\
  ro_conn r = rest /\ ro_log r = log.
Proof.
  intros Hne Hw Hb Hwin Hs Hfit. cbv zeta.
  rewrite readDataFromSocket_err_event by assumption.
  cbn [ro_ret ro_total ro_buf ro_conn ro_log]. repeat split.
  apply bufSlice_bufWrite; [rewrite length_app; lia | reflexivity].
Qed.

(** All three bytes asked for arrive, the last two together with the
    end-of-stream: the read fails. *)
Lemma readDataFromSocket_error_with_data_witness :
  let r := readDataFromSocket
             (chunks [[Byte.x61]] ++ Ev [Byte.x62; Byte.x63] (Some EOF) :: [])
             (repeat Byte.x00 4) 0 3 3 [] in
  ro_ret r = RetErr (classify EOF) /\
  ro_total r = Z.of_nat (length (concat [[Byte.x61]])) /\
  bufSlice (ro_buf r) 0 (0 + length (concat [[Byte.x61]] ++ [Byte.x62; Byte.x63]))
    = concat [[Byte.x61]] ++ [Byte.x62; Byte.x63].
Proof.
  cbv zeta.
  destruct (readDataFromSocket_error_with_data [[Byte.x61]]
              [Byte.x62; Byte.x63] EOF [] (repeat Byte.x00 4) 0 3 3 []
              ltac:(repeat constructor; discriminate)
              ltac:(by_evaluation) ltac:(by_evaluation) eq_refl
              ltac:(by_evaluation) ltac:(by_evaluation))
    as (R & T & B & _).
  split; [exact R|]. split; [exact T | exact B].
Defined.

(** * Further properties of the connection pipeline *)

(** X4.  With a configured buffer of fewer than nine bytes, or of negative
    size, [readPkts] panics before it has read anything: at the allocation
    for a negative size, at the header slice of its first pass otherwise.
    The connection and the frame queue are not closed on this way out. *)
Theorem readPkts_small_buffer_panics (kilobyte : Z) (config : Config)
    (clientConn0 : Conn) (q : Chan CompressData) (sz : Chan Z) :
  maxFrameBytes kilobyte config < 9 ->
  readPkts kilobyte clientConn0 config q sz = Panic.
Proof.
  intros Hsmall. unfold readPkts.
  destruct (makeBuf (maxFrameBytes kilobyte config)) as [buf|] eqn:Hb;
    [|reflexivity].
  apply makeBuf_length in Hb.
  cbn [readPktsLoop]. unfold readPktsIter. cbn [dataBuff].
  replace (sliceOK buf 0 totalHdrLen) with false; [reflexivity|].
  symmetry. unfold sliceOK. rewrite totalHdrLen_eq.
  apply andb_false_iff. right. apply Z.leb_gt. lia.
Qed.

Lemma readPkts_small_buffer_panics_witness :
  maxFrameBytes 1 (mkConfig 8 false) < 9 /\
  readPkts 1 [Ev (encodeFrame Byte.x00 abc) None] (mkConfig 8 false)
           (makeChan maxNumPkts) (makeChan maxNumPkts) = Panic.
Proof.
  split; [by_evaluation|].
  apply readPkts_small_buffer_panics. by_evaluation.
Defined.

Lemma trySendAll_cons {A : Type} (ch : Chan A) (x : A) (xs : list A) :
  trySendAll ch (x :: xs) = trySendAll (snd (trySend ch x)) xs.
Proof. reflexivity. Qed.

Lemma trySend_items {A : Type} (ch : Chan A) (x : A) :
  ch_items (snd (trySend ch x)) = ch_items ch ++ [x] \/
  ch_items (snd (trySend ch x)) = ch_items ch.
Proof.
  unfold trySend.
  destruct (length (ch_items ch) <? ch_cap ch)%nat; cbn; auto.
Qed.

Lemma trySendAll_keeps {A : Type} (xs : list A) :
  forall ch : Chan A,
    ch_cap (trySendAll ch xs) = ch_cap ch /\
    ch_closes (trySendAll ch xs) = ch_closes ch /\
    ((length (ch_items ch) <= ch_cap ch)%nat ->
     (length (ch_items (trySendAll ch xs)) <= ch_cap ch)%nat) /\
    exists new, ch_items (trySendAll ch xs) = ch_items ch ++ new /\
                (length new <= length xs)%nat /\
                forall x, In x new -> In x xs.
Proof.
  induction xs as [|x xs IH]; intros ch.
  - cbn. repeat split; auto. exists []. rewrite app_nil_r. cbn. auto.
  - rewrite trySendAll_cons.
    destruct (IH (snd (trySend ch x))) as (C & K & B & new & E & L & S).
    destruct (trySend_keeps ch x) as [C1 K1].
    rewrite C1 in C, B. rewrite K1 in K.
    split; [exact C|]. split; [exact K|]. split.
    + intros Hb. apply B. now apply trySend_bound.
    + rewrite E.
      destruct (trySend_items ch x) as [-> | ->].
      * exists (x :: new). rewrite <- app_assoc. cbn.
        repeat split; [lia|]. intros y [<- | Hy]; auto.
      * exists new. repeat split; [cbn; lia | intros y Hy; right; auto].
Qed.

(** With room for all of them, the items are queued in the order offered. *)
Lemma trySendAll_room {A : Type} (xs : list A) :
  forall ch : Chan A,
    (length (ch_items ch) + length xs <= ch_cap ch)%nat ->
    trySendAll ch xs = mkChan (ch_items ch ++ xs) (ch_cap ch) (ch_closes ch).
Proof.
  induction xs as [|x xs IH]; intros ch Hroom.
  - cbn. rewrite app_nil_r. now destruct ch.
  - rewrite trySendAll_cons. cbn [length] in Hroom.
    rewrite trySend_room by lia. cbn [snd].
    rewrite IH by (cbn [ch_items ch_cap]; rewrite length_app; cbn; lia).
    cbn [ch_items ch_cap ch_closes]. now rewrite <- app_assoc.
Qed.

Section PipelineQueues.

Variable kilobyte : Z.
Variable config : Config.

Local Notation "'maxFrame'" := (maxFrameBytes kilobyte config).
Local Notation "'iter'" := (readPktsIter kilobyte config).

(** What a pass does to the two queues. *)
Lemma readPktsIter_queues (s : PState) :
  Z.of_nat (length (dataBuff s)) = maxFrame -> 9 <= maxFrame ->
  match iter s with
  | Continue s' =>
      exists fr,
        pktUncompressChannel s' = snd (trySend (pktUncompressChannel s) fr) /\
        sizeChannel s' =
          snd (trySend (sizeChannel s) (9 + Z.of_nat (length (Data fr)))) /\
        Z.of_nat (length (Data fr)) <= maxFrame - 9
  | Return s' =>
      pktUncompressChannel s' = closeChan (pktUncompressChannel s) /\
      sizeChannel s' = sizeChannel s
  | Panic | Spin => True
  end.
Proof.
  intros Hlen Hmax.
  destruct (readPktsIter_hdr kilobyte config s Hlen Hmax)
    as [Hlen1 [(e & _ & ->) | [Hnil ->]]]; [cbn; auto|].
  destruct (framePass_cases kilobyte config s (hdrRead s) Hlen1 Hmax)
    as [[_ ->] | [(n & _ & ->) | (n & _ & Hn & Hfit & H)]]; [cbn; auto ..|].
  cbv zeta in H.
  destruct H as [(e & _ & ->) | [_ ->]]; [cbn; auto|].
  assert (Hinv2 : ReadInv (ro_conn (hdrRead s)) (ro_buf (hdrRead s))
                    9 (9 + Z.to_nat n) n 0 (payloadRead (hdrRead s) n))
    by (apply readDataFromSocket_inv; lia).
  pose proof (ri_length _ _ _ _ _ _ _ Hinv2) as L2.
  match goal with
  | |- context [publish ?a ?b ?c ?d ?e ?f] =>
      destruct (publish_fields a b c d e f) as (_ & _ & _ & P4 & P5)
  end.
  exists (frameOf (ro_buf (payloadRead (hdrRead s) n)) n).
  assert (HD : Z.of_nat (length (Data (frameOf
                 (ro_buf (payloadRead (hdrRead s) n)) n))) = n).
  { unfold frameOf, bufSlice. cbn [Data].
    rewrite length_firstn, length_skipn. lia. }
  rewrite HD. split; [exact P4|]. split; [exact P5 | lia].
Qed.

Lemma readPktsLoop_queues (fuel : nat) :
  forall s s' : PState,
    Z.of_nat (length (dataBuff s)) = maxFrame -> 9 <= maxFrame ->
    readPktsLoop kilobyte fuel config s = Return s' ->
    exists frs,
      pktUncompressChannel s' = closeChan (trySendAll (pktUncompressChannel s) frs) /\
      sizeChannel s' =
        trySendAll (sizeChannel s)
                   (map (fun fr => 9 + Z.of_nat (length (Data fr))) frs) /\
      Forall (fun fr => Z.of_nat (length (Data fr)) <= maxFrame - 9) frs.
Proof.
  induction fuel as [|fuel IH]; intros s s' Hlen Hmax Hrun; [discriminate|].
  cbn [readPktsLoop] in Hrun.
  pose proof (readPktsIter_queues s Hlen Hmax) as Hq.
  pose proof (readPktsIter_effect kilobyte config s Hlen Hmax) as He.
  destruct (iter s) as [s1 | s1 | |]; try discriminate.
  - destruct Hq as (fr & Q1 & Q2 & Q3). destruct He as (L & _).
    destruct (IH s1 s' L Hmax Hrun) as (frs & F1 & F2 & F3).
    exists (fr :: frs). cbn [map]. rewrite !trySendAll_cons, <- Q1, <- Q2.
    repeat split; try assumption. now constructor.
  - injection Hrun as <-. destruct Hq as [Q1 Q2].
    exists []. cbn. repeat split; auto.
Qed.

End PipelineQueues.

(** X5.  Whatever a connection sends, a run of [readPkts] over a buffer
    that can hold a header returns, and what it has done to the queues by
    then is to offer some frames to the frame queue, one after the other, and
    for each of them nine plus its payload length to the size queue, and to
    close the frame queue.  Every such payload is at most
    [maxFrameBytes - 9] bytes long.  So entries already in the frame queue
    stay in place with new ones only behind them, the queue stays within
    its capacity, and the size queue is never closed. *)
Theorem readPkts_only_appends (kilobyte : Z) (config : Config)
    (clientConn0 : Conn) (q : Chan CompressData) (sz : Chan Z) :
  9 <= maxFrameBytes kilobyte config ->
  exists s' frs,
    readPkts kilobyte clientConn0 config q sz = Return s' /\
    pktUncompressChannel s' = closeChan (trySendAll q frs) /\
    sizeChannel s' =
      trySendAll sz (map (fun fr => 9 + Z.of_nat (length (Data fr))) frs) /\
    Forall (fun fr => Z.of_nat (length (Data fr))
                      <= maxFrameBytes kilobyte config - 9) frs /\
    (exists new, ch_items (pktUncompressChannel s') = ch_items q ++ new /\
                 forall fr, In fr new -> In fr frs) /\
    ((length (ch_items q) <= ch_cap q)%nat ->
     (length (ch_items (pktUncompressChannel s')) <= ch_cap q)%nat) /\
    ch_closes (sizeChannel s') = ch_closes sz.
Proof.
  intros Hmax. unfold readPkts.
  destruct (makeBuf (maxFrameBytes kilobyte config)) as [buf|] eqn:Hb.
  2:{ unfold makeBuf in Hb.
      destruct (Z.ltb_spec (maxFrameBytes kilobyte config) 0);
        [lia | discriminate]. }
  apply makeBuf_length in Hb.
  set (s0 := mkPState clientConn0 0 buf q sz []).
  destruct (readPktsLoop_returns kilobyte config (S (connMeasure clientConn0))
              s0 Hb Hmax ltac:(simpl; lia)) as (s' & R & _ & _ & _).
  destruct (readPktsLoop_queues kilobyte config _ s0 s' Hb Hmax R)
    as (frs & F1 & F2 & F3).
  cbn [s0 pktUncompressChannel sizeChannel] in F1, F2.
  destruct (trySendAll_keeps frs q) as (C & K & B & new & E & _ & S).
  exists s', frs. rewrite F1, F2. cbn [closeChan ch_items].
  repeat split; try assumption.
  - exists new. split; assumption.
  - apply trySendAll_keeps.
Qed.

Lemma readPkts_only_appends_witness :
  9 <= maxFrameBytes 1024 exampleConfig /\
  exists s' frs,
    readPkts 1024 [Ev (encodeFrame Byte.x00 abc) None; Ev [] (Some OtherErr)]
             exampleConfig (makeChan maxNumPkts) (makeChan maxNumPkts)
    = Return s' /\
    pktUncompressChannel s' = closeChan (trySendAll (makeChan maxNumPkts) frs).
Proof.
  split; [by_evaluation|].
  destruct (readPkts_only_appends 1024 exampleConfig
              [Ev (encodeFrame Byte.x00 abc) None; Ev [] (Some OtherErr)]
              (makeChan maxNumPkts) (makeChan maxNumPkts)
              ltac:(by_evaluation))
    as (s' & frs & R & F & _).
  exists s', frs. split; [exact R | exact F].
Defined.

Lemma setConn_publish (s : PState) c0 c buf log fr size :
  setConn c (publish s c0 buf log fr size) = publish s c buf log fr size.
Proof.
  unfold publish, setConn.
  destruct (trySend (pktUncompressChannel s) fr) as [b1 q1].
  destruct (trySend (sizeChannel s) size) as [b2 q2].
  reflexivity.
Qed.

Lemma deliver_fields (s : PState) (fp : byte * list byte) :
  connCloses (deliver s fp) = connCloses s /\
  dataBuff (deliver s fp)
    = bufWrite (dataBuff s) 0 (encodeFrame (fst fp) (snd fp)) /\
  pktUncompressChannel (deliver s fp)
    = snd (trySend (pktUncompressChannel s) (frameFor fp)) /\
  sizeChannel (deliver s fp)
    = snd (trySend (sizeChannel s) (9 + Z.of_nat (length (snd fp)))).
Proof.
  unfold deliver.
  match goal with
  | |- context [publish ?a ?b ?c ?d ?e ?g] =>
      destruct (publish_fields a b c d e g) as (_ & P2 & P3 & P4 & P5)
  end.
  cbv zeta in P2, P3, P4, P5. repeat split; assumption.
Qed.

Lemma length_encodeFrame (f : byte) (P : list byte) :
  length (encodeFrame f P) = (9 + length P)%nat.
Proof.
  unfold encodeFrame. rewrite !length_app, length_le_split. reflexivity.
Qed.

(** One pass over a frame at the head of a stream that goes on with [tl]. *)
Lemma readPktsIter_frame (kilobyte : Z) (config : Config) (s : PState)
    (fp : byte * list byte) (cs : list (list byte)) (tl : list byte)
    (rest : Conn) :
  Z.of_nat (length (dataBuff s)) = maxFrameBytes kilobyte config ->
  Z.of_nat (length (snd fp)) <= maxFrameBytes kilobyte config - 9 ->
  Z.of_nat (length (snd fp)) < 2 ^ 32 ->
  Forall nonEmpty cs -> concat cs = encodeFrame (fst fp) (snd fp) ++ tl ->
  clientConn s = chunks cs ++ rest ->
  exists cs',
    Forall nonEmpty cs' /\ concat cs' = tl /\
    readPktsIter kilobyte config s
      = Continue (setConn (chunks cs' ++ rest) (deliver s fp)).
Proof.
  destruct fp as [f P]. cbn [fst snd].
  intros Hlen HP H32 Hne Hcat Hconn.
  set (L := Z.of_nat (length P)) in *.
  assert (Hmax : 9 <= maxFrameBytes kilobyte config) by lia.
  destruct (encodeFrame_parts f P) as (Henc & Hh & Hmagic & Hlenf & Hflag).
  cbv zeta in Henc, Hh, Hmagic, Hlenf, Hflag.
  fold L in Henc, Hh, Hmagic, Hlenf, Hflag.
  set (h := hdrData ++ le_split 4 L ++ [f]) in *.
  assert (Hcat' : concat cs = h ++ (P ++ tl))
    by (rewrite Hcat, Henc; now rewrite <- app_assoc).
  (* the header read *)
  assert (Hr : hdrRead s =
               mkReadOut RetNil (chunks (dropBytes 9 cs) ++ rest)
                         (bufWrite (dataBuff s) 0 h) (logs s) 9).
  { unfold hdrRead. rewrite Hconn.
    rewrite readDataFromSocket_chunks;
      try assumption; try lia;
      [| rewrite Hcat', length_app; lia].
    change (Z.to_nat 9) with 9%nat.
    rewrite Hcat'.
    now rewrite (List.firstn_app_l h (P ++ tl) 9 (eq_sym Hh)). }
  set (cs1 := dropBytes 9 cs) in *.
  assert (Hne1 : Forall nonEmpty cs1) by now apply Forall_dropBytes.
  assert (Hcat1 : concat cs1 = P ++ tl).
  { unfold cs1. rewrite concat_dropBytes, Hcat'.
    now rewrite (List.skipn_app_r h (P ++ tl) 9 (eq_sym Hh)). }
  set (buf1 := bufWrite (dataBuff s) 0 h) in *.
  assert (Hbuf1 : buf1 = h ++ skipn 9 (dataBuff s)).
  { unfold buf1, bufWrite. now rewrite Hh. }
  assert (Hlen1 : length buf1 = length (dataBuff s))
    by (apply length_bufWrite; lia).
  (* the header checks *)
  assert (Hchk : hdrCheck kilobyte config buf1 = HdrOk L).
  { destruct (header_fields h (skipn 9 (dataBuff s)) Hh) as (F1 & F2 & _).
    destruct (hdrCheck_cases kilobyte config buf1) as (_ & _ & C); [lia | lia |].
    cbv zeta in C. rewrite Hbuf1, F1, F2, Hlenf in C.
    rewrite le_combine_split in C.
    change (Z.of_nat 4 * 8) with 32 in C.
    rewrite Z.mod_small in C by lia.
    apply C; [exact Hmagic | exact HP]. }
  (* the payload read *)
  assert (Hr2 : exists cs',
             Forall nonEmpty cs' /\ concat cs' = tl /\
             payloadRead (hdrRead s) L =
             mkReadOut RetNil (chunks cs' ++ rest) (bufWrite buf1 9 P)
               (logs s ++ (if (length P =? 0)%nat then [LogZeroNoErr] else []))
               L).
  { rewrite Hr. unfold payloadRead. cbn [ro_conn ro_buf ro_log].
    replace (Z.to_nat L) with (length P) by lia.
    destruct (Nat.eqb_spec (length P) 0) as [E0 | E0].
    - exists cs1.
      assert (HL0 : L = 0) by (unfold L; rewrite E0; reflexivity).
      apply length_zero_iff_nil in E0.
      rewrite E0 in Hcat1. cbn [app] in Hcat1.
      split; [exact Hne1|]. split; [exact Hcat1|].
      rewrite E0, HL0. cbn [length]. rewrite Nat.add_0_r.
      rewrite readDataFromSocket_empty_window.
      now rewrite bufWrite_nil.
    - exists (dropBytes (length P) cs1).
      split; [now apply Forall_dropBytes|].
      split.
      { rewrite concat_dropBytes, Hcat1.
        now rewrite (List.skipn_app_r P tl (length P) eq_refl). }
      rewrite readDataFromSocket_chunks; try assumption; try lia;
        [| rewrite Hcat1, length_app; lia].
      replace (Z.to_nat L) with (length P) by lia.
      rewrite Hcat1, (List.firstn_app_l P tl (length P) eq_refl), app_nil_r.
      reflexivity. }
  destruct Hr2 as (cs' & Hne' & Hcat'' & Hr2).
  (* the frame *)
  assert (Hframe : frameOf (bufWrite buf1 9 P) L = frameFor (f, P)).
  { unfold frameOf, frameFor. cbn [fst snd].
    replace (Z.to_nat L) with (length P) by lia.
    rewrite bufSlice_bufWrite by lia.
    rewrite nth_bufWrite_outside by lia.
    rewrite Hbuf1, app_nth1 by lia. now rewrite Hflag. }
  assert (Hbuf2 : bufWrite buf1 9 P = bufWrite (dataBuff s) 0 (encodeFrame f P)).
  { unfold buf1. rewrite Henc.
    change 9%nat with (0 + 9)%nat at 1. rewrite <- Hh.
    apply bufWrite_app. simpl. lia. }
  assert (Hnil : ro_ret (hdrRead s) = RetNil) by now rewrite Hr.
  assert (Hlenr : Z.of_nat (length (ro_buf (hdrRead s)))
                  = maxFrameBytes kilobyte config)
    by (rewrite Hr; cbn [ro_buf]; lia).
  assert (Hchk' : hdrCheck kilobyte config (ro_buf (hdrRead s)) = HdrOk L)
    by now rewrite Hr.
  assert (Hnil2 : ro_ret (payloadRead (hdrRead s) L) = RetNil) by now rewrite Hr2.
  pose proof (framePass_ok kilobyte config s (hdrRead s) L Hlenr Hmax Hchk' Hnil2)
    as Hpass.
  rewrite Hr2 in Hpass. cbn [ro_conn ro_buf ro_log] in Hpass.
  rewrite Hframe, Hbuf2 in Hpass.
  exists cs'. split; [exact Hne'|]. split; [exact Hcat''|].
  rewrite (readPktsIter_hdr_nil kilobyte config s Hlen Hmax Hnil), Hpass.
  unfold deliver. cbn [fst snd]. now rewrite setConn_publish.
Qed.

Lemma publish_setConn (s : PState) c0 c buf log fr size :
  publish (setConn c0 s) c buf log fr size = publish s c buf log fr size.
Proof. reflexivity. Qed.

Lemma deliver_setConn (c : Conn) (s : PState) (fp : byte * list byte) :
  deliver (setConn c s) fp = setConn c (deliver s fp).
Proof.
  unfold deliver. rewrite publish_setConn, setConn_publish. reflexivity.
Qed.

Lemma foldDeliver_setConn (fs : list (byte * list byte)) :
  forall c c' s,
    setConn c' (fold_left deliver fs (setConn c s))
    = setConn c' (fold_left deliver fs s).
Proof.
  induction fs as [|fp fs IH]; intros c c' s; cbn [fold_left].
  - reflexivity.
  - rewrite deliver_setConn. apply IH.
Qed.

Lemma foldDeliver_fields (fs : list (byte * list byte)) :
  forall s,
    connCloses (fold_left deliver fs s) = connCloses s /\
    pktUncompressChannel (fold_left deliver fs s)
      = trySendAll (pktUncompressChannel s) (map frameFor fs) /\
    sizeChannel (fold_left deliver fs s)
      = trySendAll (sizeChannel s)
                   (map (fun fp => 9 + Z.of_nat (length (snd fp))) fs).
Proof.
  induction fs as [|fp fs IH]; intros s; cbn [fold_left map].
  - repeat split.
  - destruct (IH (deliver s fp)) as (I1 & I2 & I3).
    destruct (deliver_fields s fp) as (D1 & _ & D3 & D4).
    rewrite I1, I2, I3, D1, D3, D4. repeat split.
Qed.

Lemma setConn_same (s : PState) : setConn (clientConn s) s = s.
Proof. now destruct s. Qed.

(** Reading a run of frames, however it is cut into chunks, takes one pass
    per frame and leaves the loop where it would be had the frames been
    delivered to the queues one by one. *)
Lemma readPktsLoop_frames (kilobyte : Z) (config : Config)
    (fs : list (byte * list byte)) :
  forall (s : PState) (cs : list (list byte)) (rest : Conn) (fuel : nat),
    Z.of_nat (length (dataBuff s)) = maxFrameBytes kilobyte config ->
    Forall (fitsFrame kilobyte config) fs ->
    Forall nonEmpty cs -> concat cs = encodeAll fs ->
    clientConn s = chunks cs ++ rest ->
    readPktsLoop kilobyte (length fs + fuel) config s
    = readPktsLoop kilobyte fuel config (setConn rest (fold_left deliver fs s)).
Proof.
  induction fs as [|fp fs IH]; intros s cs rest fuel Hlen Hfit Hne Hcat Hconn.
  - cbn [length Nat.add fold_left].
    rewrite (nonEmpty_concat_nil cs Hne Hcat) in Hconn. cbn in Hconn.
    now rewrite <- Hconn, setConn_same.
  - inversion Hfit as [|? ? [HP H32] Hfit']; subst.
    destruct (readPktsIter_frame kilobyte config s fp cs (encodeAll fs) rest
                Hlen HP H32 Hne Hcat Hconn) as (cs' & Hne' & Hcat' & Hit).
    cbn [length Nat.add readPktsLoop fold_left]. rewrite Hit.
    rewrite (IH _ cs' rest fuel); try assumption; try reflexivity.
    + now rewrite foldDeliver_setConn.
    + cbn [setConn dataBuff].
      destruct (deliver_fields s fp) as (_ & D2 & _). rewrite D2.
      rewrite length_bufWrite; [exact Hlen|].
      rewrite length_encodeFrame. lia.
Qed.

Lemma foldDeliver_length (kilobyte : Z) (config : Config)
    (fs : list (byte * list byte)) :
  forall s,
    Forall (fitsFrame kilobyte config) fs ->
    Z.of_nat (length (dataBuff s)) = maxFrameBytes kilobyte config ->
    Z.of_nat (length (dataBuff (fold_left deliver fs s)))
    = maxFrameBytes kilobyte config.
Proof.
  induction fs as [|fp fs IH]; intros s Hfit Hs; [exact Hs|].
  inversion Hfit as [|? ? [HP _] Hfit']; subst. cbn [fold_left].
  apply IH; [exact Hfit'|].
  destruct (deliver_fields s fp) as (_ & D2 & _). rewrite D2.
  rewrite length_bufWrite; [exact Hs|]. rewrite length_encodeFrame. lia.
Qed.

Lemma connMeasure_chunks (cs : list (list byte)) (rest : Conn) :
  (length (concat cs) <= connMeasure (chunks cs ++ rest))%nat.
Proof.
  induction cs as [|c cs IH].
  - cbn [concat length]. lia.
  - cbn [concat chunks map app connMeasure fold_right ev_data].
    rewrite length_app. fold (chunks cs). fold (connMeasure (chunks cs ++ rest)).
    lia.
Qed.

Lemma length_encodeAll (fs : list (byte * list byte)) :
  (length fs <= length (encodeAll fs))%nat.
Proof.
  unfold encodeAll.
  induction fs as [|fp fs IH]; cbn [map concat length]; [lia|].
  rewrite length_app, length_encodeFrame. lia.
Qed.

(** X6.  A connection that sends a run of frames, each within the buffer's
    limit, cut into non-empty chunks in any way, and whose next read then
    reports an error before a further header is complete: [readPkts] offers
    the frames to the frame queue in the order sent, each with payload and
    flag as sent, offers nine plus the payload length of each to the size
    queue in the same order, then closes the connection once and the frame
    queue once and returns.  With room in the queues for all of them, the
    queues end up holding their former entries followed by exactly these
    frames and sizes. *)
Theorem readPkts_delivers_in_order (kilobyte : Z) (config : Config)
    (fs : list (byte * list byte)) (cs : list (list byte))
    (bs : list byte) (e : ReadErr) (rest : Conn)
    (q : Chan CompressData) (sz : Chan Z) :
  9 <= maxFrameBytes kilobyte config ->
  Forall (fitsFrame kilobyte config) fs ->
  Forall nonEmpty cs -> concat cs = encodeAll fs ->
  Z.of_nat (length bs) < 9 ->
  exists s',
    readPkts kilobyte (chunks cs ++ Ev bs (Some e) :: rest) config q sz
      = Return s' /\
    pktUncompressChannel s' = closeChan (trySendAll q (map frameFor fs)) /\
    sizeChannel s'
      = trySendAll sz (map (fun fp => 9 + Z.of_nat (length (snd fp))) fs) /\
    clientConn s' = rest /\ connCloses s' = 1%nat /\
    ((length (ch_items q) + length fs <= ch_cap q)%nat ->
     ch_items (pktUncompressChannel s') = ch_items q ++ map frameFor fs) /\
    ((length (ch_items sz) + length fs <= ch_cap sz)%nat ->
     ch_items (sizeChannel s')
       = ch_items sz ++ map (fun fp => 9 + Z.of_nat (length (snd fp))) fs).
Proof.
  intros Hmax Hfit Hne Hcat Hbs. unfold readPkts.
  destruct (makeBuf (maxFrameBytes kilobyte config)) as [buf|] eqn:Hb.
  2:{ unfold makeBuf in Hb.
      destruct (Z.ltb_spec (maxFrameBytes kilobyte config) 0);
        [lia | discriminate]. }
  apply makeBuf_length in Hb.
  set (c0 := chunks cs ++ Ev bs (Some e) :: rest).
  set (s0 := mkPState c0 0 buf q sz []).
  pose proof (connMeasure_chunks cs (Ev bs (Some e) :: rest)) as Hm.
  pose proof (length_encodeAll fs) as Hl. rewrite <- Hcat in Hl.
  fold c0 in Hm.
  replace (S (connMeasure c0))
    with (length fs + S (connMeasure c0 - length fs))%nat by lia.
  rewrite (readPktsLoop_frames kilobyte config fs s0 cs
             (Ev bs (Some e) :: rest)); try assumption; try reflexivity.
  set (s1 := setConn (Ev bs (Some e) :: rest) (fold_left deliver fs s0)).
  assert (Hlen1 : Z.of_nat (length (dataBuff s1)) = maxFrameBytes kilobyte config).
  { unfold s1. cbn [setConn dataBuff].
    now apply foldDeliver_length. }
  destruct (foldDeliver_fields fs s0) as (F1 & F2 & F3).
  assert (Hr : hdrRead s1 =
               mkReadOut (RetErr (classify e)) rest
                         (bufWrite (dataBuff s1) 0 bs) (logs s1) 0).
  { unfold hdrRead. change (clientConn s1) with (chunks [] ++ Ev bs (Some e) :: rest).
    rewrite (readDataFromSocket_err_event [] bs e rest (dataBuff s1) 0 9 9
               (logs s1));
      [reflexivity | constructor | lia | lia | reflexivity
      | cbn; lia | cbn; lia]. }
  cbn [readPktsLoop].
  rewrite (readPktsIter_hdr_err kilobyte config s1 (classify e) Hlen1 Hmax)
    by now rewrite Hr.
  rewrite Hr. cbn [ro_conn ro_buf ro_log].
  eexists. split; [reflexivity|].
  cbn [closeAll pktUncompressChannel sizeChannel clientConn connCloses s1 setConn].
  rewrite F1, F2, F3. cbn [s0 pktUncompressChannel sizeChannel connCloses].
  repeat split.
  - intros Hroom. rewrite trySendAll_room by (rewrite length_map; exact Hroom).
    reflexivity.
  - intros Hroom. rewrite trySendAll_room by (rewrite length_map; exact Hroom).
    reflexivity.
Qed.

(** Two frames, the second with an empty payload, cut in the middle of the
    first header; then the peer closes. *)
Lemma readPkts_delivers_in_order_witness :
  let fs := [(Byte.x01, abc); (Byte.x00, [])] in
  9 <= maxFrameBytes 1024 exampleConfig /\
  exists s',
    readPkts 1024
      (chunks [firstn 5 (encodeAll fs); skipn 5 (encodeAll fs)]
       ++ Ev [] (Some EOF) :: [])
      exampleConfig (makeChan maxNumPkts) (makeChan maxNumPkts) = Return s' /\
    ch_items (pktUncompressChannel s')
      = [] ++ map frameFor fs.
Proof.
  cbv zeta. split; [by_evaluation|].
  destruct (readPkts_delivers_in_order 1024 exampleConfig
              [(Byte.x01, abc); (Byte.x00, [])]
              [firstn 5 (encodeAll [(Byte.x01, abc); (Byte.x00, [])]);
               skipn 5 (encodeAll [(Byte.x01, abc); (Byte.x00, [])])]
              [] EOF [] (makeChan maxNumPkts) (makeChan maxNumPkts))
    as (s' & R & _ & _ & _ & _ & Q & _).
  - by_evaluation.
  - repeat constructor; by_evaluation.
  - repeat constructor; discriminate.
  - reflexivity.
  - by_evaluation.
  - exists s'. split; [exact R|]. apply Q. by_evaluation.
Defined.

(** X11.  A connection that sends a run of good frames and then nine bytes
    that are not a header the receiver accepts (wrong magic, or a declared
    length above [maxFrameBytes - 9]): [readPkts] has offered the good
    frames to the frame queue in order, takes the nine bytes off the
    connection and no byte after them, closes the connection once and the
    frame queue once, and returns.  It makes no attempt to find the next
    frame in what follows. *)
Theorem readPkts_stops_at_bad_header (kilobyte : Z) (config : Config)
    (fs : list (byte * list byte)) (cs cs2 : list (list byte)) (rest : Conn)
    (q : Chan CompressData) (sz : Chan Z) :
  9 <= maxFrameBytes kilobyte config ->
  Forall (fitsFrame kilobyte config) fs ->
  Forall nonEmpty cs -> concat cs = encodeAll fs ->
  Forall nonEmpty cs2 -> (9 <= length (concat cs2))%nat ->
  (firstn 4 (concat cs2) <> hdrData \/
   maxFrameBytes kilobyte config - 9
     < le_combine (firstn 4 (skipn 4 (concat cs2)))) ->
  exists s' cs',
    readPkts kilobyte (chunks cs ++ chunks cs2 ++ rest) config q sz
      = Return s' /\
    pktUncompressChannel s' = closeChan (trySendAll q (map frameFor fs)) /\
    sizeChannel s'
      = trySendAll sz (map (fun fp => 9 + Z.of_nat (length (snd fp))) fs) /\
    clientConn s' = chunks cs' ++ rest /\
    concat cs' = skipn 9 (concat cs2) /\
    connCloses s' = 1%nat.
Proof.
  intros Hmax Hfit Hne Hcat Hne2 Hlen2 Hbad. unfold readPkts.
  destruct (makeBuf (maxFrameBytes kilobyte config)) as [buf|] eqn:Hb.
  2:{ unfold makeBuf in Hb.
      destruct (Z.ltb_spec (maxFrameBytes kilobyte config) 0);
        [lia | discriminate]. }
  apply makeBuf_length in Hb.
  set (c0 := chunks cs ++ chunks cs2 ++ rest).
  set (s0 := mkPState c0 0 buf q sz []).
  pose proof (connMeasure_chunks cs (chunks cs2 ++ rest)) as Hm.
  pose proof (length_encodeAll fs) as Hl. rewrite <- Hcat in Hl.
  fold c0 in Hm.
  replace (S (connMeasure c0))
    with (length fs + S (connMeasure c0 - length fs))%nat by lia.
  rewrite (readPktsLoop_frames kilobyte config fs s0 cs (chunks cs2 ++ rest));
    try assumption; try reflexivity.
  set (s1 := setConn (chunks cs2 ++ rest) (fold_left deliver fs s0)).
  assert (Hlen1 : Z.of_nat (length (dataBuff s1)) = maxFrameBytes kilobyte config).
  { unfold s1. cbn [setConn dataBuff]. now apply foldDeliver_length. }
  destruct (foldDeliver_fields fs s0) as (F1 & F2 & F3).
  set (h := firstn 9 (concat cs2)).
  assert (Hh : length h = 9%nat) by (unfold h; rewrite length_firstn; lia).
  assert (Hr : hdrRead s1 =
               mkReadOut RetNil (chunks (dropBytes 9 cs2) ++ rest)
                         (bufWrite (dataBuff s1) 0 h) (logs s1) 9).
  { unfold hdrRead. change (clientConn s1) with (chunks cs2 ++ rest).
    rewrite readDataFromSocket_chunks; try assumption; try lia.
    reflexivity. }
  assert (Hbuf : bufWrite (dataBuff s1) 0 h = h ++ skipn 9 (dataBuff s1)).
  { unfold bufWrite. now rewrite Hh. }
  assert (Hlenr : Z.of_nat (length (ro_buf (hdrRead s1)))
                  = maxFrameBytes kilobyte config).
  { rewrite Hr. cbn [ro_buf]. rewrite length_bufWrite; [exact Hlen1 | lia]. }
  assert (Hnil : ro_ret (hdrRead s1) = RetNil) by now rewrite Hr.
  destruct (header_fields h (skipn 9 (dataBuff s1)) Hh) as (G1 & G2 & _).
  assert (Hh4 : firstn 4 h = firstn 4 (concat cs2))
    by (unfold h; rewrite firstn_firstn; reflexivity).
  assert (Hh8 : firstn 4 (skipn 4 h) = firstn 4 (skipn 4 (concat cs2))).
  { unfold h. rewrite skipn_firstn_comm, firstn_firstn. reflexivity. }
  destruct (hdrCheck_cases kilobyte config (ro_buf (hdrRead s1)))
    as (A & B & _); [lia | lia |].
  cbv zeta in A, B. rewrite Hr in A, B. cbn [ro_buf] in A, B.
  rewrite Hbuf in A, B. rewrite G1, Hh4 in A, B. rewrite G2, Hh8 in B.
  rewrite <- Hbuf in A, B.
  change (bufWrite (dataBuff s1) 0 h) with
    (ro_buf (mkReadOut RetNil (chunks (dropBytes 9 cs2) ++ rest)
                       (bufWrite (dataBuff s1) 0 h) (logs s1) 9)) in A, B.
  rewrite <- Hr in A, B.
  cbn [readPktsLoop].
  rewrite (readPktsIter_hdr_nil kilobyte config s1 Hlen1 Hmax Hnil).
  assert (Hout : exists msg,
             framePass kilobyte config s1 (hdrRead s1)
             = Return (closeAll s1 (ro_conn (hdrRead s1)) (ro_buf (hdrRead s1))
                                (ro_log (hdrRead s1) ++ [msg]))).
  { destruct (list_eq_dec Byte.byte_eq_dec (firstn 4 (concat cs2)) hdrData)
      as [Heq | Hneq].
    - destruct Hbad as [Hbad | Hbad]; [contradiction|].
      eexists. apply framePass_invalid; try assumption. now apply B.
    - eexists. apply framePass_illegal; try assumption. now apply A. }
  destruct Hout as (msg & ->).
  rewrite Hr. cbn [ro_conn ro_buf ro_log].
  eexists. exists (dropBytes 9 cs2). split; [reflexivity|].
  cbn [closeAll pktUncompressChannel sizeChannel clientConn connCloses s1 setConn].
  rewrite F1, F2, F3. cbn [s0 pktUncompressChannel sizeChannel connCloses].
  repeat split. apply concat_dropBytes.
Qed.

(** One good frame, then a header with a wrong first byte and more bytes
    behind it. *)
Lemma readPkts_stops_at_bad_header_witness :
  let bad := Byte.x00 :: skipn 1 (encodeFrame Byte.x00 abc) in
  9 <= maxFrameBytes 1024 exampleConfig /\
  exists s' cs',
    readPkts 1024
      (chunks [encodeAll [(Byte.x01, abc)]] ++ chunks [bad] ++ [])
      exampleConfig (makeChan maxNumPkts) (makeChan maxNumPkts) = Return s' /\
    pktUncompressChannel s'
      = closeChan (trySendAll (makeChan maxNumPkts)
                              (map frameFor [(Byte.x01, abc)])) /\
    concat cs' = skipn 9 (concat [bad]).
Proof.
  cbv zeta. split; [by_evaluation|].
  destruct (readPkts_stops_at_bad_header 1024 exampleConfig
              [(Byte.x01, abc)] [encodeAll [(Byte.x01, abc)]]
              [Byte.x00 :: skipn 1 (encodeFrame Byte.x00 abc)] []
              (makeChan maxNumPkts) (makeChan maxNumPkts))
    as (s' & cs' & R & Q & _ & _ & C & _).
  - by_evaluation.
  - repeat constructor; by_evaluation.
  - repeat constructor; discriminate.
  - reflexivity.
  - repeat constructor; discriminate.
  - by_evaluation.
  - left. by_evaluation.
  - exists s', cs'. split; [exact R|]. split; [exact Q | exact C].
Defined.

Lemma publish_log_extends (s : PState) c buf log fr size :
  exists extra, logs (publish s c buf log fr size) = log ++ extra.
Proof.
  unfold publish.
  destruct (trySend (pktUncompressChannel s) fr) as [[|] q1];
    destruct (trySend (sizeChannel s) size) as [[|] q2]; cbn [logs].
  - exists []. now rewrite app_nil_r.
  - now exists [LogSizeFull].
  - now exists [LogUncompressFull].
  - exists [LogUncompressFull; LogSizeFull]. now rewrite <- app_assoc.
Qed.

(** X7.  A frame that declares an empty payload: the pass takes its nine
    header bytes off the connection and nothing more, makes no read for the
    payload, yet records the reader's "zero bytes received, no errors" line;
    it offers a frame with empty data to the frame queue and the size 9 to
    the size queue, and goes round again. *)
Theorem empty_payload_frame (kilobyte : Z) (config : Config) (s : PState)
    (f : byte) (cs : list (list byte)) (tl : list byte) (rest : Conn) :
  Z.of_nat (length (dataBuff s)) = maxFrameBytes kilobyte config ->
  9 <= maxFrameBytes kilobyte config ->
  Forall nonEmpty cs -> concat cs = encodeFrame f [] ++ tl ->
  clientConn s = chunks cs ++ rest ->
  exists cs' s',
    readPktsIter kilobyte config s = Continue s' /\
    Forall nonEmpty cs' /\ concat cs' = tl /\
    clientConn s' = chunks cs' ++ rest /\
    pktUncompressChannel s'
      = snd (trySend (pktUncompressChannel s)
                     (mkCompressData [] (negb (byte.unsigned f =? 0)))) /\
    sizeChannel s' = snd (trySend (sizeChannel s) 9) /\
    exists extra, logs s' = logs s ++ LogZeroNoErr :: extra.
Proof.
  intros Hlen Hmax Hne Hcat Hconn.
  destruct (readPktsIter_frame kilobyte config s (f, []) cs tl rest Hlen
              ltac:(cbn; lia) ltac:(cbn; lia) Hne Hcat Hconn)
    as (cs' & Hne' & Hcat' & Hit).
  exists cs', (setConn (chunks cs' ++ rest) (deliver s (f, []))).
  destruct (deliver_fields s (f, [])) as (_ & _ & D3 & D4).
  split; [exact Hit|]. split; [exact Hne'|]. split; [exact Hcat'|].
  cbn [setConn clientConn pktUncompressChannel sizeChannel logs].
  split; [reflexivity|]. split; [exact D3|]. split; [exact D4|].
  unfold deliver. cbn [fst snd length Nat.eqb].
  match goal with
  | |- context [publish ?a ?b ?c ?d ?e ?g] =>
      destruct (publish_log_extends a b c d e g) as (extra & ->)
  end.
  exists extra. now rewrite <- app_assoc.
Qed.

Lemma empty_payload_frame_witness :
  let s := exampleState (chunks [encodeFrame Byte.x01 [] ++ [Byte.xde]] ++ []) in
  9 <= maxFrameBytes 1024 exampleConfig /\
  exists cs' s',
    readPktsIter 1024 exampleConfig s = Continue s' /\
    concat cs' = [Byte.xde] /\
    sizeChannel s' = snd (trySend (sizeChannel s) 9).
Proof.
  cbv zeta. split; [by_evaluation|].
  destruct (empty_payload_frame 1024 exampleConfig
              (exampleState (chunks [encodeFrame Byte.x01 [] ++ [Byte.xde]] ++ []))
              Byte.x01 [encodeFrame Byte.x01 [] ++ [Byte.xde]] [Byte.xde] []
              ltac:(by_evaluation) ltac:(by_evaluation)
              ltac:(repeat constructor; discriminate) eq_refl eq_refl)
    as (cs' & s' & Hit & _ & Hcat & _ & _ & Hsz & _).
  exists cs', s'. split; [exact Hit|]. split; [exact Hcat | exact Hsz].
Defined.

(** * Properties of the output writer and of the accept loop *)

Section OutputWriter.

Variable Sink : Type.
Variable writeOutput : Config -> list byte -> Sink -> Z * Sink.

Lemma receiverOutput_after_writes (config : Config) (pre : list (list byte)) :
  forall post closed snk snk1 log,
    writeAll Sink writeOutput config pre snk = Some snk1 ->
    receiverOutput Sink writeOutput config (pre ++ post) closed snk log
    = receiverOutput Sink writeOutput config post closed snk1 log.
Proof.
  induction pre as [|x pre IH]; intros post closed snk snk1 log Hw.
  - cbn in Hw. now injection Hw as <-.
  - cbn [writeAll] in Hw. cbn [app receiverOutput].
    destruct (writeOutput config x snk) as [rc snk'].
    destruct (rc =? 1); [discriminate|]. now apply IH.
Qed.

End OutputWriter.

(** X8.  The output writer hands the items to [writeOutput] in the order
    they arrive.  At the first call that returns 1 it stops: the destination
    is as that call left it, nothing is logged, and every later item stays
    unread on the channel.  Return values other than 1 do not stop it. *)
Theorem receiverOutput_stops_at_first_failure
    (Sink : Type) (writeOutput : Config -> list byte -> Sink -> Z * Sink)
    (config : Config) (pre : list (list byte)) (x : list byte)
    (post : list (list byte)) (closed : bool) (snk snk1 : Sink)
    (log : list OutputLog) :
  writeAll Sink writeOutput config pre snk = Some snk1 ->
  fst (writeOutput config x snk1) = 1 ->
  receiverOutput Sink writeOutput config (pre ++ x :: post) closed snk log
  = mkOutputRun OutputWriteFailed (snd (writeOutput config x snk1)) log post.
Proof.
  intros Hw Hfail.
  rewrite (receiverOutput_after_writes Sink writeOutput config pre
             (x :: post) closed snk snk1 log Hw).
  cbn [receiverOutput].
  destruct (writeOutput config x snk1) as [rc snk']. cbn in Hfail. subst rc.
  reflexivity.
Qed.

(** X9.  When no call of [writeOutput] returns 1, the writer writes every
    item that arrives, in order; it then ends with the "error while reading
    from output channel" line if the channel has been closed, and otherwise
    waits in its receive, with nothing logged. *)
Theorem receiverOutput_writes_all
    (Sink : Type) (writeOutput : Config -> list byte -> Sink -> Z * Sink)
    (config : Config) (items : list (list byte)) (closed : bool)
    (snk snk1 : Sink) (log : list OutputLog) :
  writeAll Sink writeOutput config items snk = Some snk1 ->
  receiverOutput Sink writeOutput config items closed snk log
  = if closed
    then mkOutputRun OutputClosed snk1 (log ++ [LogOutputChannel]) []
    else mkOutputRun OutputWaiting snk1 log [].
Proof.
  intros Hw.
  rewrite <- (app_nil_r items).
  rewrite (receiverOutput_after_writes Sink writeOutput config items
             [] closed snk snk1 log Hw).
  reflexivity.
Qed.


(** Three items, the second of which the destination refuses. *)
Lemma receiverOutput_stops_at_first_failure_witness :
  writeAll (list (list byte)) exampleWrite exampleConfig [abc] [] = Some [abc] /\
  receiverOutput (list (list byte)) exampleWrite exampleConfig
                 ([abc] ++ [] :: [abc]) true [] []
  = mkOutputRun OutputWriteFailed
                (snd (exampleWrite exampleConfig [] [abc])) [] [abc].
Proof.
  split; [reflexivity|].
  apply (receiverOutput_stops_at_first_failure (list (list byte)) exampleWrite
           exampleConfig [abc] [] [abc] true [] [abc] []);
    reflexivity.
Defined.

(** Two items, then the channel is closed. *)
Lemma receiverOutput_writes_all_witness :
  receiverOutput (list (list byte)) exampleWrite exampleConfig
                 [abc; abc] true [] []
  = mkOutputRun OutputClosed [abc; abc] [LogOutputChannel] [].
Proof.
  apply (receiverOutput_writes_all (list (list byte)) exampleWrite
           exampleConfig [abc; abc] true [] [abc; abc] []).
  reflexivity.
Defined.

